(** * The tree-sitter Rust grammar (grammar.js), embedded in Rocq

    [grammar.js] is a program in the tree-sitter grammar DSL: it evaluates to
    a table of production rules built from [seq], [choice], [repeat],
    [optional], [prec], [prec.left], [field], [alias], [token] and regular
    expressions, together with the [extras], [externals], [supertypes],
    [inline], [conflicts] and [word] declarations.

    The development is organised as follows:
    - [Regex]: the regular expressions used by the grammar's patterns, with a
      derivative-based matcher proved equivalent to the usual language
      semantics;
    - [DSL]: the rule combinators, as an inductive type, and the helper
      functions [sepBy1] and [sepBy] of grammar.js;
    - [PREC], [Grammar]: the constants and rules of grammar.js, in source
      order;
    - [Syntax], [Operators], [Lexing]: what the DSL means: which concrete
      syntax trees a rule admits, how precedence and associativity
      annotations resolve operator expressions, and how lexical precedence
      picks between tokens that match at the same position;
    - [Analysis], [Examples]: computations over the rule table and the trees
      used in the statements;
    - the properties of the grammar. *)

From Stdlib Require Import String Ascii List ZArith Bool Lia.
Import ListNotations.
Open Scope string_scope.

Set Warnings "-register-all".

(** ** Regular expressions *)

Module Regex.

(** Items of a bracketed character class.  A text is a [string] of bytes and
    the matcher reads it byte by byte; the Unicode properties and [\s] are
    taken on their ASCII part (letters; letters, digits and underscore; space
    and the control characters 9 to 13).  On ASCII text a byte is a
    character and the matcher reads a pattern as the generator does; beyond
    ASCII a character is several bytes, none of them an ASCII byte, so that
    a class that excludes ASCII characters, or [.], counts bytes there.
    Statements about the exact language of such a pattern are made on ASCII
    text. *)
Inductive class_item : Type :=
| CChar (c : ascii)
| CRange (lo hi : ascii)
| CSpace
| CWord
| CXidStart
| CXidContinue.

Inductive regex : Type :=
| RNone
| REps
| RChar (c : ascii)
| RAny
| RSet (negated : bool) (items : list class_item)
| RCat (r1 r2 : regex)
| RAlt (r1 r2 : regex)
| RStar (r : regex).

Definition rplus (r : regex) : regex := RCat r (RStar r).
Definition ropt (r : regex) : regex := RAlt r REps.

Fixpoint rtimes (n : nat) (r : regex) : regex :=
  match n with
  | O => REps
  | S k => RCat r (rtimes k r)
  end.

Fixpoint rstr (s : string) : regex :=
  match s with
  | EmptyString => REps
  | String c s' => RCat (RChar c) (rstr s')
  end.

Definition code (c : ascii) : N := N_of_ascii c.

Definition between (lo hi c : ascii) : bool :=
  (code lo <=? code c)%N && (code c <=? code hi)%N.

Definition is_space (c : ascii) : bool :=
  Ascii.eqb c " " || between "009" "013" c.

Definition is_alpha (c : ascii) : bool :=
  between "a" "z" c || between "A" "Z" c.

Definition is_digit (c : ascii) : bool := between "0" "9" c.

Definition is_word (c : ascii) : bool :=
  is_alpha c || is_digit c || Ascii.eqb c "_".

Definition in_item (c : ascii) (i : class_item) : bool :=
  match i with
  | CChar d => Ascii.eqb c d
  | CRange lo hi => between lo hi c
  | CSpace => is_space c
  | CWord => is_word c
  | CXidStart => is_alpha c
  | CXidContinue => is_word c
  end.

Definition in_set (negated : bool) (items : list class_item) (c : ascii) : bool :=
  xorb negated (existsb (in_item c) items).

(** [.] matches every character except a line feed. *)
Definition is_any (c : ascii) : bool := negb (Ascii.eqb c "010").

Fixpoint nullable (r : regex) : bool :=
  match r with
  | RNone => false
  | REps => true
  | RChar _ => false
  | RAny => false
  | RSet _ _ => false
  | RCat r1 r2 => nullable r1 && nullable r2
  | RAlt r1 r2 => nullable r1 || nullable r2
  | RStar _ => true
  end.

Definition cat (r1 r2 : regex) : regex :=
  match r1, r2 with
  | RNone, _ => RNone
  | _, RNone => RNone
  | REps, _ => r2
  | _, _ => RCat r1 r2
  end.

Definition alt (r1 r2 : regex) : regex :=
  match r1, r2 with
  | RNone, _ => r2
  | _, RNone => r1
  | _, _ => RAlt r1 r2
  end.

Fixpoint deriv (c : ascii) (r : regex) : regex :=
  match r with
  | RNone => RNone
  | REps => RNone
  | RChar d => if Ascii.eqb c d then REps else RNone
  | RAny => if is_any c then REps else RNone
  | RSet n items => if in_set n items c then REps else RNone
  | RCat r1 r2 =>
      if nullable r1
      then alt (cat (deriv c r1) r2) (deriv c r2)
      else cat (deriv c r1) r2
  | RAlt r1 r2 => alt (deriv c r1) (deriv c r2)
  | RStar r1 => cat (deriv c r1) (RStar r1)
  end.

Fixpoint re_match (r : regex) (s : string) : bool :=
  match s with
  | EmptyString => nullable r
  | String c s' => re_match (deriv c r) s'
  end.

Definition is_none (r : regex) : bool :=
  match r with RNone => true | _ => false end.

(** Length of the longest prefix of [s] matched by [r], if any: [pos] is the
    number of characters consumed so far and [best] the last position at
    which the consumed prefix was a match. *)
Fixpoint longest_from (r : regex) (s : string) (pos : nat) (best : option nat)
  : option nat :=
  let best' := if nullable r then Some pos else best in
  match s with
  | EmptyString => best'
  | String c s' =>
      if is_none r then best' else longest_from (deriv c r) s' (S pos) best'
  end.

Definition longest_prefix (r : regex) (s : string) : option nat :=
  longest_from r s 0 None.

(** The language of a regular expression, as a relation. *)
Inductive lang : regex -> string -> Prop :=
| L_eps : lang REps ""
| L_char c : lang (RChar c) (String c "")
| L_any c : is_any c = true -> lang RAny (String c "")
| L_set n items c : in_set n items c = true -> lang (RSet n items) (String c "")
| L_cat r1 r2 s1 s2 : lang r1 s1 -> lang r2 s2 -> lang (RCat r1 r2) (s1 ++ s2)
| L_alt_l r1 r2 s : lang r1 s -> lang (RAlt r1 r2) s
| L_alt_r r1 r2 s : lang r2 s -> lang (RAlt r1 r2) s
| L_star_nil r : lang (RStar r) ""
| L_star_cons r c s1 s2 :
    lang r (String c s1) -> lang (RStar r) s2 -> lang (RStar r) (String c s1 ++ s2).

End Regex.

(** ** The grammar DSL *)

Module DSL.
Import Regex.

(** Associativity carried by a precedence annotation: [prec] gives none,
    [prec.left] and [prec.right] give a side. *)
Inductive assoc : Type := ANone | ALeft | ARight.

Inductive rule : Type :=
| Blank
| Str (s : string)
| Pat (r : regex)
| Sym (n : string)
| Seq (rs : list rule)
| Choice (rs : list rule)
| Repeat (r : rule)
| Repeat1 (r : rule)
| Prec (a : assoc) (n : Z) (r : rule)
| Field (n : string) (r : rule)
| Alias (r : rule) (named : bool) (n : string)
| Token (r : rule)
| ImmediateToken (r : rule).

(** A string literal used where a rule is expected is the rule matching
    exactly that string. *)
Coercion Str : string >-> rule.

Declare Scope rules_scope.
Delimit Scope rules_scope with rules.
Notation "[ x ; y ; .. ; z ]" :=
  (@cons rule (x : rule) (@cons rule (y : rule) .. (@cons rule (z : rule) nil) ..))
  : rules_scope.
Notation "[ x ]" := (@cons rule (x : rule) nil) : rules_scope.

(** [$"x"] is the reference [$.x] to the rule named [x]. *)
Notation "'$' x" := (Sym x) (at level 1, x at level 0, format "'$' x").

Definition seq (rs : list rule) : rule := Seq rs.
Definition choice (rs : list rule) : rule := Choice rs.
Definition repeat (r : rule) : rule := Repeat r.
Definition repeat1 (r : rule) : rule := Repeat1 r.
Definition optional (r : rule) : rule := Choice [r; Blank]%rules.
Definition prec (n : Z) (r : rule) : rule := Prec ANone n r.
Definition prec_left (n : Z) (r : rule) : rule := Prec ALeft n r.
Definition prec_right (n : Z) (r : rule) : rule := Prec ARight n r.
(** [prec.left(rule)] and [prec.right(rule)], without a number, use 0. *)
Definition prec_left0 (r : rule) : rule := prec_left 0 r.
Definition prec_right0 (r : rule) : rule := prec_right 0 r.
Definition field (n : string) (r : rule) : rule := Field n r.
(** [alias(rule, $.name)] renames to a named node, [alias(rule, 'text')]
    to an anonymous one. *)
Definition alias (r : rule) (n : string) : rule := Alias r true n.
Definition alias_anon (r : rule) (n : string) : rule := Alias r false n.
Definition token (r : rule) : rule := Token r.
Definition token_immediate (r : rule) : rule := ImmediateToken r.

Arguments seq rs%_rules.
Arguments choice rs%_rules.

(** Creates a rule to match one or more of the rules separated by the
    separator. *)
Definition sepBy1 (sep rule0 : rule) : rule :=
  seq [rule0; repeat (seq [sep; rule0])].

(** Creates a rule to optionally match one or more of the rules separated by
    the separator. *)
Definition sepBy (sep rule0 : rule) : rule :=
  optional (sepBy1 sep rule0).

(** The double-quote character, as a string. *)
Definition dquote : string := String (ascii_of_nat 34) EmptyString.

End DSL.

(** ** grammar.js *)

Module PREC.
Open Scope Z_scope.
Definition call : Z := 15.
Definition field : Z := 14.
Definition try : Z := 13.
Definition unary : Z := 12.
Definition cast : Z := 11.
Definition multiplicative : Z := 10.
Definition additive : Z := 9.
Definition shift : Z := 8.
Definition bitand : Z := 7.
Definition bitxor : Z := 6.
Definition bitor : Z := 5.
Definition comparative : Z := 4.
Definition and : Z := 3.
Definition or : Z := 2.
Definition range : Z := 1.
Definition assign : Z := 0.
Definition closure : Z := -1.
End PREC.

Module Grammar.
Import Regex DSL.
Open Scope Z_scope.

Definition TOKEN_TREE_NON_SPECIAL_PUNCTUATION : list string := [
  "+"; "-"; "*"; "/"; "%"; "^"; "!"; "&"; "|"; "&&"; "||"; "<<";
  ">>"; "+="; "-="; "*="; "/="; "%="; "^="; "&="; "|="; "<<=";
  ">>="; "="; "=="; "!="; ">"; "<"; ">="; "<="; "@"; "_"; ".";
  ".."; "..."; "..="; ","; ";"; ":"; "::"; "->"; "=>"; "#"; "?"
].

Definition name_ : string := "rust".

(** Character classes and regular expressions of the grammar's patterns. *)
Definition hex_digit : list class_item :=
  [CRange "0" "9"; CRange "a" "f"; CRange "A" "F"].

(** [/\s/] *)
Definition re_space : regex := RSet false [CSpace].
(** [/[^+*?]+/] *)
Definition re_separator : regex :=
  rplus (RSet true [CChar "+"; CChar "*"; CChar "?"]).
(** [/[ui](8|16|32|64|128|size)/] *)
Definition re_primitive_repr : regex :=
  RCat (RSet false [CChar "u"; CChar "i"])
    (RAlt (rstr "8") (RAlt (rstr "16") (RAlt (rstr "32") (RAlt (rstr "64")
      (RAlt (rstr "128") (rstr "size")))))).
(** [/[0-9_]+/] *)
Definition re_digits : regex := rplus (RSet false [CRange "0" "9"; CChar "_"]).
(** [/[0-9][0-9_]*/] *)
Definition re_decimal : regex :=
  RCat (RSet false [CRange "0" "9"]) (RStar (RSet false [CRange "0" "9"; CChar "_"])).
(** [/[0-9a-fA-F_]+/] *)
Definition re_hex : regex := rplus (RSet false (hex_digit ++ [CChar "_"])).
(** [/[01_]+/] *)
Definition re_binary : regex := rplus (RSet false [CChar "0"; CChar "1"; CChar "_"]).
(** [/[0-7_]+/] *)
Definition re_octal : regex := rplus (RSet false [CRange "0" "7"; CChar "_"]).
(** The pattern [b] or [c], optional, then a double quote. *)
Definition re_string_start : regex :=
  RCat (ropt (RSet false [CChar "b"; CChar "c"])) (rstr dquote).
(** [/[^\\']/] *)
Definition re_literal_char : regex := RSet true [CChar "\"; CChar "'"].
(** [/[^xu]/] *)
Definition re_escape_simple : regex := RSet true [CChar "x"; CChar "u"].
(** [/u[0-9a-fA-F]{4}/] *)
Definition re_escape_u4 : regex := RCat (RChar "u") (rtimes 4 (RSet false hex_digit)).
(** [/u\{[0-9a-fA-F]+\}/] *)
Definition re_escape_ubrace : regex :=
  RCat (rstr "u{") (RCat (rplus (RSet false hex_digit)) (RChar "}")).
(** [/x[0-9a-fA-F]{2}/] *)
Definition re_escape_x2 : regex := RCat (RChar "x") (rtimes 2 (RSet false hex_digit)).
(** [/\/\//] *)
Definition re_two_slashes : regex := rstr "//".
(** [/.*/] *)
Definition re_rest_of_line : regex := RStar RAny.
(** [/[_\p{XID_Start}][_\p{XID_Continue}]*/] *)
Definition re_identifier : regex :=
  RCat (RSet false [CChar "_"; CXidStart]) (RStar (RSet false [CChar "_"; CXidContinue])).
(** [/#![\s]*[^\[].+/] *)
Definition re_shebang : regex :=
  RCat (rstr "#!")
    (RCat (RStar (RSet false [CSpace]))
      (RCat (RSet true [CChar "["]) (rplus RAny))).
(** [/\$[a-zA-Z_]\w*/] *)
Definition re_metavariable : regex :=
  RCat (RChar "$")
    (RCat (RSet false [CRange "a" "z"; CRange "A" "Z"; CChar "_"])
      (RStar (RSet false [CWord]))).

Definition extras : list rule := [
  Pat re_space;
  $"line_comment";
  $"block_comment"
]%rules.

Definition externals : list rule := [
  $"string_content";
  $"_raw_string_literal_start";
  $"raw_string_literal_content";
  $"_raw_string_literal_end";
  $"char_prefix";
  $"char_quote";
  $"lifetime_quote";
  $"literal_suffix";
  $"hexadecimal_prefix";
  $"binary_prefix";
  $"octal_prefix";
  $"decimal_point";
  $"exponent_e";
  $"_outer_block_doc_comment_marker";
  $"_inner_block_doc_comment_marker";
  $"_block_comment_content";
  $"_line_doc_content";
  $"_error_sentinel"
]%rules.

Definition supertypes : list rule := [
  $"_expression";
  $"_type";
  $"_literal";
  $"_literal_pattern";
  $"_declaration_statement";
  $"_pattern"
]%rules.

Definition inline : list rule := [
  $"_path";
  $"_type_name";
  $"_tokens";
  $"_field_name";
  $"_non_special_token";
  $"_declaration_statement";
  $"_reserved_keyword";
  $"_expression_ending_with_block"
]%rules.

Definition conflicts : list (list rule) := [
  (* Local ambiguity due to anonymous types:
     See https://internals.rust-lang.org/t/pre-rfc-deprecating-anonymous-parameters/3710 *)
  [$"_type"; $"_pattern"]%rules;
  [$"unit_type"; $"tuple_pattern"]%rules;
  [$"scoped_name"; $"scoped_type_name"]%rules;
  [$"parameters"; $"_pattern"]%rules;
  [$"parameters"; $"tuple_struct_pattern"]%rules;
  [$"type_parameters"; $"for_lifetimes"]%rules;
  [$"array_expression"]%rules;
  [$"visibility_modifier"]%rules
].

Definition word : rule := $"identifier".

Definition source_file : rule := seq [
  optional $"shebang";
  repeat $"_statement"
].

Definition _statement : rule := choice [
  $"expression_statement";
  $"_declaration_statement"
].

Definition empty_statement : rule := ";".

Definition expression_statement : rule := choice [
  seq [$"_expression"; ";"];
  prec 1 $"_expression_ending_with_block"
].

Definition _declaration_statement : rule := choice [
  $"const_item";
  $"macro_invocation";
  $"macro_definition";
  $"empty_statement";
  $"attribute_item";
  $"inner_attribute_item";
  $"mod_item";
  $"foreign_mod_item";
  $"struct_item";
  $"union_item";
  $"enum_item";
  $"type_item";
  $"function_item";
  $"function_signature_item";
  $"impl_item";
  $"trait_item";
  $"associated_type";
  $"let_declaration";
  $"use_declaration";
  $"extern_crate_declaration";
  $"static_item"
].

(* Section - Macro definitions *)

Definition macro_definition : rule :=
  let rules := seq [
    repeat (seq [$"macro_rule"; ";"]);
    optional $"macro_rule"
  ] in
  seq [
    "macro_rules!";
    field "name" (choice [
      $"name";
      $"_reserved_keyword"
    ]);
    choice [
      seq ["("; rules; ")"; ";"];
      seq ["["; rules; "]"; ";"];
      seq ["{"; rules; "}"]
    ]
  ].

Definition macro_rule : rule := seq [
  field "left" $"token_tree_pattern";
  "=>";
  field "right" $"token_tree"
].

Definition _token_pattern : rule := choice [
  $"token_tree_pattern";
  $"token_repetition_pattern";
  $"token_binding_pattern";
  $"metavariable";
  $"_non_special_token"
].

Definition token_tree_pattern : rule := choice [
  seq ["("; repeat $"_token_pattern"; ")"];
  seq ["["; repeat $"_token_pattern"; "]"];
  seq ["{"; repeat $"_token_pattern"; "}"]
].

Definition token_binding_pattern : rule := prec 1 (seq [
  field "name" $"metavariable";
  ":";
  field "type" $"fragment_specifier"
]).

Definition token_repetition_pattern : rule := seq [
  "$"; "("; repeat $"_token_pattern"; ")"; optional (Pat re_separator); choice ["+"; "*"; "?"]
].

Definition fragment_specifier : rule := choice [
  "block"; "expr"; "ident"; "item"; "lifetime"; "literal"; "meta"; "pat";
  "path"; "stmt"; "tt"; "ty"; "vis"
].

Definition _tokens : rule := choice [
  $"token_tree";
  $"token_repetition";
  $"metavariable";
  $"_non_special_token"
].

Definition token_tree : rule := choice [
  seq ["("; repeat $"_tokens"; ")"];
  seq ["["; repeat $"_tokens"; "]"];
  seq ["{"; repeat $"_tokens"; "}"]
].

Definition token_repetition : rule := seq [
  "$"; "("; repeat $"_tokens"; ")"; optional (Pat re_separator); choice ["+"; "*"; "?"]
].

(* Matches non-delimiter tokens common to both macro invocations and
   definitions. This is everything except $ and metavariables (which begin
   with $). *)
Definition _non_special_token : rule := choice [
  $"_literal"; $"name"; "mut"; "self"; "super"; "crate";
  prec_right0 (repeat1 (Choice (map Str TOKEN_TREE_NON_SPECIAL_PUNCTUATION)));
  "'";
  "as"; "async"; "await"; "break"; "const"; "continue"; "default"; "enum"; "fn"; "for"; "gen";
  "if"; "impl"; "let"; "loop"; "match"; "mod"; "pub"; "return"; "static"; "struct"; "trait";
  "type"; "union"; "unsafe"; "use"; "where"; "while"
].

(* Section - Declarations *)

Definition attribute_item : rule := seq [
  "#";
  "[";
  $"_attribute";
  "]"
].

Definition inner_attribute_item : rule := seq [
  "#";
  "!";
  "[";
  $"_attribute";
  "]"
].

Definition _attribute : rule := choice [
  $"unsafe_attribute";
  $"builtin_attribute";
  $"attribute_macro"
].

Definition unsafe_attribute : rule :=
  seq ["unsafe"; "("; choice [$"builtin_attribute"; $"attribute_macro"]; ")"].

Definition builtin_attribute : rule := choice [
  seq ["cfg"; "("; $"_cfg_predicate"; ")"];
  seq ["cfg_attr"; "("; $"_cfg_predicate"; ","; sepBy1 "," $"_attribute"; optional ","; ")"];
  seq ["ignore"; optional (seq ["="; $"_any_string_literal"])];
  seq ["should_panic"; optional (choice [
    seq ["("; $"meta_name_value"; ")"];
    seq ["="; $"_any_string_literal"]
  ])];
  "automatically_derived";
  seq ["macro_use"; optional (seq ["("; sepBy "," $"name"; optional ","; ")"])];
  seq ["macro_export"; optional (seq ["("; "local_inner_macros"; ")"])];
  "proc_macro";
  seq ["proc_macro_derive"; "("; field "trait" $"name"; optional (seq [","; $"proc_macro_derive_helper_attributes"]); ")"];
  "proc_macro_attribute";
  $"lint_level_attribute";
  seq ["must_use"; optional (seq ["="; $"_any_string_literal"])];
  seq ["deprecated"; optional (choice [
    seq ["("; sepBy "," $"meta_name_value"; optional ","; ")"];
    seq ["="; $"_any_string_literal"]
  ])];
  seq ["crate_name"; "="; $"_any_string_literal"];
  seq ["crate_type"; "="; $"_any_string_literal"];
  seq ["link"; "("; sepBy "," $"meta_name_value"; optional ","; ")"];
  seq ["link_name"; "="; $"_any_string_literal"];
  "no_link";
  "repr";
  seq ["export_name"; "="; $"_any_string_literal"];
  seq ["link_section"; "="; $"_any_string_literal"];
  "no_mangle";
  seq ["used"; optional (seq ["("; choice ["compiler"; "linker"]; ")"])];
  seq ["link_ordinal"; "("; $"integer_literal"; ")"];
  "naked";
  seq ["recursion_limit"; "="; $"_any_string_literal"];
  seq ["type_length_limit"; "="; $"_any_string_literal"];
  "no_main";
  seq ["path"; "="; $"_any_string_literal"];
  "no_std";
  "no_implicit_prelude";
  "non_exhaustive";
  seq ["windows_subsystem"; "="; $"_any_string_literal"];
  "panic_handler";
  seq ["inline"; optional (seq ["("; choice ["always"; "never"]; ")"])];
  "cold";
  "no_builtins";
  seq ["target_feature"; "("; sepBy "," $"meta_name_value"; optional ","; ")"];
  "track_caller";
  seq ["instruction_set"; "("; sepBy "," $"simple_path"; optional ","; ")"];
  seq ["doc"; choice [
    seq ["("; choice ["hidden"; "inline"]; ")"];
    seq ["="; $"_any_string_literal"]
  ]];
  seq ["debugger_visualizer"; "("; sepBy "," $"meta_name_value"; optional ","; ")"];
  seq ["collapse_debuginfo"; "("; choice ["no"; "external"; "yes"]; ")"];
  seq ["feature"; "("; sepBy "," $"name"; optional ","; ")"];
  seq ["stable"; "("; sepBy "," $"meta_name_value"; optional ","; ")"];
  seq ["unstable"; "("; sepBy "," $"meta_name_value"; optional ","; ")"];
  "unstable_feature_bound";
  seq ["rustc_const_unstable"; "("; sepBy "," $"meta_name_value"; optional ","; ")"];
  seq ["rustc_const_stable"; "("; sepBy "," $"meta_name_value"; optional ","; ")"];
  seq ["rustc_default_body_unstable"; "("; sepBy "," $"meta_name_value"; optional ","; ")"];
  seq ["allow_internal_unstable"; optional (seq ["("; sepBy "," $"name"; optional ","; ")"])];
  "allow_interal_unsafe";
  "rustc_eii_foreign_item"
].

Definition lint_level_attribute : rule := seq [
  choice [
    "warn";
    "allow";
    "expect";
    "forbid";
    "deny"
  ];
  "(";
  sepBy "," $"simple_path";
  optional (seq [","; "reason"; "="; $"_any_string_literal"]);
  optional ",";
  ")"
].

Definition repr_modifier : rule := choice [
  "C";
  "Rust";
  "transparent";
  seq ["align"; "("; $"integer_literal"; ")"];
  seq ["packed"; optional (seq ["("; $"integer_literal"; ")"])];
  $"primitive_repr"
].

Definition primitive_repr : rule := Pat re_primitive_repr.

Definition meta_name_value : rule := seq [$"name"; "="; $"_any_string_literal"].

Definition _any_string_literal : rule := choice [$"string_literal"; $"raw_string_literal"].

Definition _cfg_predicate : rule := choice [
  $"cfg_option";
  $"cfg_all";
  $"cfg_any";
  $"cfg_not";
  $"cfg_boolean"
].

Definition cfg_option : rule := seq [
  $"name";
  optional (seq ["="; choice [$"string_literal"; $"raw_string_literal"]])
].

Definition cfg_all : rule := seq ["all"; "("; sepBy "," $"_cfg_predicate"; optional ","; ")"].
Definition cfg_any : rule := seq ["any"; "("; sepBy "," $"_cfg_predicate"; optional ","; ")"].
Definition cfg_not : rule := seq ["not"; "("; $"_cfg_predicate"; ")"].

Definition cfg_boolean : rule := choice ["true"; "false"].

Definition proc_macro_derive_helper_attributes : rule :=
  seq ["attributes"; "("; sepBy "," $"name"; optional ","; ")"].

Definition attribute_macro : rule := seq [
  $"_path";
  optional (choice [
    seq ["="; field "value" $"_expression"];
    field "arguments" (alias $"delim_token_tree" "token_tree")
  ])
].

Definition mod_item : rule := seq [
  optional $"visibility_modifier";
  "mod";
  field "name" $"name";
  choice [
    ";";
    field "body" $"declaration_list"
  ]
].

Definition foreign_mod_item : rule := seq [
  optional $"visibility_modifier";
  $"extern_modifier";
  choice [
    ";";
    field "body" $"declaration_list"
  ]
].

Definition declaration_list : rule := seq [
  "{";
  repeat $"_declaration_statement";
  "}"
].

Definition struct_item : rule := seq [
  optional $"visibility_modifier";
  "struct";
  field "name" $"_type_name";
  field "type_parameters" (optional $"type_parameters");
  choice [
    seq [
      optional $"where_clause";
      field "body" $"field_declaration_list"
    ];
    seq [
      field "body" $"ordered_field_declaration_list";
      optional $"where_clause";
      ";"
    ];
    ";"
  ]
].

Definition union_item : rule := seq [
  optional $"visibility_modifier";
  "union";
  field "name" $"_type_name";
  field "type_parameters" (optional $"type_parameters");
  optional $"where_clause";
  field "body" $"field_declaration_list"
].

Definition enum_item : rule := seq [
  optional $"visibility_modifier";
  "enum";
  field "name" $"_type_name";
  field "type_parameters" (optional $"type_parameters");
  optional $"where_clause";
  field "body" $"enum_variant_list"
].

Definition enum_variant_list : rule := seq [
  "{";
  sepBy "," (seq [repeat $"attribute_item"; $"enum_variant"]);
  optional ",";
  "}"
].

Definition enum_variant : rule := seq [
  optional $"visibility_modifier";
  field "name" $"name";
  field "body" (optional (choice [
    $"field_declaration_list";
    $"ordered_field_declaration_list"
  ]));
  optional (seq [
    "=";
    field "value" $"_expression"
  ])
].

Definition field_declaration_list : rule := seq [
  "{";
  sepBy "," (seq [repeat $"attribute_item"; $"field_declaration"]);
  optional ",";
  "}"
].

Definition field_declaration : rule := seq [
  optional $"visibility_modifier";
  field "name" $"_field_name";
  ":";
  field "type" $"_type"
].

Definition ordered_field_declaration_list : rule := seq [
  "(";
  sepBy "," (seq [
    repeat $"attribute_item";
    optional $"visibility_modifier";
    field "type" $"_type"
  ]);
  optional ",";
  ")"
].

Definition extern_crate_declaration : rule := seq [
  optional $"visibility_modifier";
  "extern";
  "crate";
  field "name" $"name";
  optional (seq [
    "as";
    field "alias" $"name"
  ]);
  ";"
].

Definition const_item : rule := seq [
  optional $"visibility_modifier";
  "const";
  field "name" $"name";
  ":";
  field "type" $"_type";
  optional (
    seq [
      "=";
      field "value" $"_expression"
    ]
  );
  ";"
].

Definition static_item : rule := seq [
  optional $"visibility_modifier";
  "static";

  (* Not actual rust syntax, but made popular by the lazy_static crate. *)
  optional "ref";

  optional "mut";
  field "name" $"name";
  ":";
  field "type" $"_type";
  optional (seq [
    "=";
    field "value" $"_expression"
  ]);
  ";"
].

Definition type_item : rule := seq [
  optional $"visibility_modifier";
  "type";
  field "name" $"_type_name";
  field "type_parameters" (optional $"type_parameters");
  "=";
  field "type" $"_type";
  optional $"where_clause";
  ";"
].

Definition function_item : rule := seq [
  optional $"visibility_modifier";
  optional $"function_modifiers";
  "fn";
  field "name" (choice [$"name"; $"metavariable"]);
  field "type_parameters" (optional $"type_parameters");
  field "parameters" $"parameters";
  optional (seq ["->"; field "return_type" $"_type"]);
  optional $"where_clause";
  field "body" $"block"
].

Definition function_signature_item : rule := seq [
  optional $"visibility_modifier";
  optional $"function_modifiers";
  "fn";
  field "name" (choice [$"name"; $"metavariable"]);
  field "type_parameters" (optional $"type_parameters");
  field "parameters" $"parameters";
  optional (seq ["->"; field "return_type" $"_type"]);
  optional $"where_clause";
  ";"
].

Definition function_modifiers : rule := repeat1 (choice [
  "async";
  "default";
  "const";
  "unsafe";
  $"extern_modifier"
]).

Definition where_clause : rule := prec_right0 (seq [
  "where";
  sepBy1 "," $"where_predicate";
  optional ","
]).

Definition where_predicate : rule := seq [
  field "left" (choice [
    $"lifetime";
    $"_type_name";
    $"scoped_type_name";
    $"generic_type";
    $"reference_type";
    $"pointer_type";
    $"tuple_type";
    $"array_type";
    $"higher_ranked_trait_bound"
  ]);
  field "bounds" $"trait_bounds"
].

Definition impl_item : rule := seq [
  optional "unsafe";
  "impl";
  field "type_parameters" (optional $"type_parameters");
  optional (seq [
    optional "!";
    field "trait" (choice [
      $"_type_name";
      $"scoped_type_name";
      $"generic_type"
    ]);
    "for"
  ]);
  field "type" $"_type";
  optional $"where_clause";
  choice [field "body" $"declaration_list"; ";"]
].

Definition trait_item : rule := seq [
  optional $"visibility_modifier";
  optional "unsafe";
  "trait";
  field "name" $"_type_name";
  field "type_parameters" (optional $"type_parameters");
  field "bounds" (optional $"trait_bounds");
  optional $"where_clause";
  field "body" $"declaration_list"
].

Definition associated_type : rule := seq [
  "type";
  field "name" $"_type_name";
  field "type_parameters" (optional $"type_parameters");
  field "bounds" (optional $"trait_bounds");
  optional $"where_clause";
  ";"
].

Definition trait_bounds : rule := seq [
  ":";
  sepBy1 "+" (choice [
    $"_type";
    $"lifetime";
    $"higher_ranked_trait_bound"
  ])
].

Definition higher_ranked_trait_bound : rule := seq [
  "for";
  field "type_parameters" $"type_parameters";
  field "type" $"_type"
].

Definition removed_trait_bound : rule := seq [
  "?";
  $"_type"
].

Definition type_parameters : rule := prec 1 (seq [
  "<";
  sepBy1 "," (seq [
    repeat $"attribute_item";
    choice [
      $"lifetime";
      $"metavariable";
      $"_type_name";
      $"constrained_type_parameter";
      $"optional_type_parameter";
      $"const_parameter"
    ]
  ]);
  optional ",";
  ">"
]).

Definition const_parameter : rule := seq [
  "const";
  field "name" $"name";
  ":";
  field "type" $"_type"
].

Definition constrained_type_parameter : rule := seq [
  field "left" (choice [$"lifetime"; $"_type_name"]);
  field "bounds" $"trait_bounds"
].

Definition optional_type_parameter : rule := seq [
  field "name" (choice [
    $"_type_name";
    $"constrained_type_parameter"
  ]);
  "=";
  field "default_type" $"_type"
].

Definition let_declaration : rule := seq [
  "let";
  optional "mut";
  field "pattern" $"_pattern";
  optional (seq [
    ":";
    field "type" $"_type"
  ]);
  optional (seq [
    "=";
    field "value" $"_expression"
  ]);
  optional (seq [
    "else";
    field "alternative" $"block"
  ]);
  ";"
].

Definition use_declaration : rule := seq [
  optional $"visibility_modifier";
  "use";
  field "argument" $"_use_clause";
  ";"
].

Definition _use_clause : rule := choice [
  $"_path";
  $"use_as_clause";
  $"use_list";
  $"scoped_use_list";
  $"use_wildcard"
].

Definition scoped_use_list : rule := seq [
  field "path" (optional $"_path");
  "::";
  field "list" $"use_list"
].

Definition use_list : rule := seq [
  "{";
  sepBy "," (choice [
    $"_use_clause"
  ]);
  optional ",";
  "}"
].

Definition use_as_clause : rule := seq [
  field "path" $"_path";
  "as";
  field "alias" $"name"
].

Definition use_wildcard : rule := seq [
  optional (seq [$"_path"; "::"]);
  "*"
].

Definition parameters : rule := seq [
  "(";
  sepBy "," (seq [
    optional $"attribute_item";
    choice [
      $"parameter";
      $"self_parameter";
      $"variadic_parameter";
      "_";
      $"_type"
    ]]);
  optional ",";
  ")"
].

Definition self_parameter : rule := seq [
  optional "&";
  optional $"lifetime";
  optional "mut";
  "self"
].

Definition variadic_parameter : rule := seq [
  optional "mut";
  optional (seq [
    field "pattern" $"_pattern";
    ":"
  ]);
  "..."
].

Definition parameter : rule := seq [
  optional "mut";
  field "pattern" (choice [
    $"_pattern";
    $"self"
  ]);
  ":";
  field "type" $"_type"
].

Definition extern_modifier : rule := seq [
  "extern";
  optional $"string_literal"
].

Definition visibility_modifier : rule := choice [
  seq [
    "pub";
    optional (seq [
      "(";
      choice [
        $"keyword_scope";
        seq ["in"; $"_path"]
      ];
      ")"
    ])
  ]
].

(* Section - Types *)

Definition _type : rule := choice [
  $"abstract_type";
  $"reference_type";
  $"metavariable";
  $"pointer_type";
  $"generic_type";
  $"scoped_type_name";
  $"tuple_type";
  $"unit_type";
  $"array_type";
  $"function_type";
  $"self_type";
  $"_type_name";
  $"macro_invocation";
  $"never_type";
  $"dynamic_type";
  $"bounded_type";
  $"removed_trait_bound"
].

Definition bracketed_type : rule := seq [
  "<";
  choice [
    $"_type";
    $"qualified_type"
  ];
  ">"
].

Definition qualified_type : rule := seq [
  field "type" $"_type";
  "as";
  field "alias" $"_type"
].

Definition lifetime : rule := prec 1 (seq [alias_anon $"lifetime_quote" "'"; $"name"]).

Definition array_type : rule := seq [
  "[";
  field "element" $"_type";
  optional (seq [
    ";";
    field "length" $"_expression"
  ]);
  "]"
].

Definition for_lifetimes : rule := seq [
  "for";
  "<";
  sepBy1 "," $"lifetime";
  optional ",";
  ">"
].

Definition function_type : rule := seq [
  optional $"for_lifetimes";
  prec PREC.call (seq [
    choice [
      field "trait" (choice [
        $"_type_name";
        $"scoped_type_name"
      ]);
      seq [
        optional $"function_modifiers";
        "fn"
      ]
    ];
    field "parameters" $"parameters"
  ]);
  optional (seq ["->"; field "return_type" $"_type"])
].

Definition tuple_type : rule := seq [
  "(";
  sepBy1 "," $"_type";
  optional ",";
  ")"
].

Definition unit_type : rule := seq ["("; ")"].

Definition generic_function : rule := prec 1 (seq [
  field "function" (choice [
    $"name";
    $"scoped_name";
    $"field_expression"
  ]);
  "::";
  field "type_arguments" $"type_arguments"
]).

Definition generic_type : rule := prec 1 (seq [
  field "type" (choice [
    $"_type_name";
    $"_reserved_keyword";
    $"scoped_type_name"
  ]);
  field "type_arguments" $"type_arguments"
]).

Definition generic_type_with_turbofish : rule := seq [
  field "type" (choice [
    $"_type_name";
    $"scoped_name"
  ]);
  "::";
  field "type_arguments" $"type_arguments"
].

Definition bounded_type : rule := prec_left (-1) (choice [
  seq [$"lifetime"; "+"; $"_type"];
  seq [$"_type"; "+"; $"_type"];
  seq [$"_type"; "+"; $"lifetime"]
]).

Definition type_arguments : rule := seq [
  token (prec 1 "<");
  sepBy1 "," (seq [
    choice [
      $"_type";
      $"type_binding";
      $"lifetime";
      $"_literal";
      $"block"
    ];
    optional $"trait_bounds"
  ]);
  optional ",";
  ">"
].

Definition type_binding : rule := seq [
  field "name" $"_type_name";
  field "type_arguments" (optional $"type_arguments");
  "=";
  field "type" $"_type"
].

Definition reference_type : rule := seq [
  "&";
  optional $"lifetime";
  optional "mut";
  field "type" $"_type"
].

Definition pointer_type : rule := seq [
  "*";
  choice ["const"; "mut"];
  field "type" $"_type"
].

Definition self_type : rule := "Self".

Definition never_type : rule := "!".

Definition abstract_type : rule := seq [
  "impl";
  optional (seq ["for"; $"type_parameters"]);
  field "trait" (choice [
    $"_type_name";
    $"scoped_type_name";
    $"removed_trait_bound";
    $"generic_type";
    $"function_type";
    $"tuple_type"
  ])
].

Definition dynamic_type : rule := seq [
  "dyn";
  field "trait" (choice [
    $"higher_ranked_trait_bound";
    $"_type_name";
    $"scoped_type_name";
    $"generic_type";
    $"function_type"
  ])
].

(* Section - Expressions *)

Definition _expression_except_range : rule := choice [
  $"unary_expression";
  $"reference_expression";
  $"try_expression";
  $"binary_expression";
  $"assignment_expression";
  $"compound_assignment_expr";
  $"type_cast_expression";
  $"call_expression";
  $"return_expression";
  $"yield_expression";
  $"_literal";
  prec_left0 $"name";
  prec_left0 $"_reserved_keyword";
  $"self";
  $"scoped_name";
  $"generic_function";
  $"await_expression";
  $"field_expression";
  $"array_expression";
  $"tuple_expression";
  prec 1 $"macro_invocation";
  $"unit_expression";
  $"break_expression";
  $"continue_expression";
  $"index_expression";
  $"metavariable";
  $"closure_expression";
  $"parenthesized_expression";
  $"struct_expression";
  $"_expression_ending_with_block"
].

Definition _expression : rule := choice [
  $"_expression_except_range";
  $"range_expression"
].

Definition _expression_ending_with_block : rule := choice [
  $"unsafe_block";
  $"async_block";
  $"gen_block";
  $"try_block";
  $"block";
  $"if_expression";
  $"match_expression";
  $"while_expression";
  $"loop_expression";
  $"for_expression";
  $"const_block"
].

Definition macro_invocation : rule := seq [
  field "macro" (choice [
    $"scoped_name";
    $"name";
    $"_reserved_keyword"
  ]);
  "!";
  alias $"delim_token_tree" "token_tree"
].

Definition delim_token_tree : rule := choice [
  seq ["("; repeat $"_delim_tokens"; ")"];
  seq ["["; repeat $"_delim_tokens"; "]"];
  seq ["{"; repeat $"_delim_tokens"; "}"]
].

Definition _delim_tokens : rule := choice [
  $"_non_delim_token";
  alias $"delim_token_tree" "token_tree"
].

Definition _non_delim_token : rule := choice [
  $"_non_special_token";
  "$"
].

Definition self : rule := "self".

Definition scoped_name : rule := seq [
  field "path" (optional (choice [
    $"_path";
    $"bracketed_type";
    alias $"generic_type_with_turbofish" "generic_type"
  ]));
  "::";
  field "name" (choice [$"name"; "super"])
].

Definition scoped_type_name_in_expression_position : rule := prec (-2) (seq [
  field "path" (optional (choice [
    $"_path";
    alias $"generic_type_with_turbofish" "generic_type"
  ]));
  "::";
  field "name" $"_type_name"
]).

Definition scoped_type_name : rule := seq [
  field "path" (optional (choice [
    $"_path";
    alias $"generic_type_with_turbofish" "generic_type";
    $"bracketed_type";
    $"generic_type"
  ]));
  "::";
  field "name" $"_type_name"
].

Definition range_expression : rule := prec_left PREC.range (choice [
  seq [$"_expression"; choice [".."; "..."; "..="]; $"_expression"];
  seq [$"_expression"; ".."];
  seq [".."; $"_expression"];
  ".."
]).

Definition unary_expression : rule := prec PREC.unary (seq [
  choice ["-"; "*"; "!"];
  $"_expression"
]).

Definition try_expression : rule := prec PREC.try (seq [
  $"_expression";
  "?"
]).

Definition reference_expression : rule := prec PREC.unary (seq [
  "&";
  choice [
    seq ["raw"; choice ["const"; "mut"]];
    optional "mut"
  ];
  field "value" $"_expression"
]).

Definition binary_expression : rule :=
  let table : list (Z * rule) := [
    (PREC.and, Str "&&");
    (PREC.or, Str "||");
    (PREC.bitand, Str "&");
    (PREC.bitor, Str "|");
    (PREC.bitxor, Str "^");
    (PREC.comparative, choice ["=="; "!="; "<"; "<="; ">"; ">="]);
    (PREC.shift, choice ["<<"; ">>"]);
    (PREC.additive, choice ["+"; "-"]);
    (PREC.multiplicative, choice ["*"; "/"; "%"])
  ] in
  Choice (map (fun '(precedence, operator) => prec_left precedence (seq [
    field "left" $"_expression";
    field "operator" operator;
    field "right" $"_expression"
  ])) table).

Definition assignment_expression : rule := prec_left PREC.assign (seq [
  field "left" $"_expression";
  "=";
  field "right" $"_expression"
]).

Definition compound_assignment_expr : rule := prec_left PREC.assign (seq [
  field "left" $"_expression";
  field "operator" (choice ["+="; "-="; "*="; "/="; "%="; "&="; "|="; "^="; "<<="; ">>="]);
  field "right" $"_expression"
]).

Definition type_cast_expression : rule := prec_left PREC.cast (seq [
  field "value" $"_expression";
  "as";
  field "type" $"_type"
]).

Definition return_expression : rule := choice [
  prec_left0 (seq ["return"; $"_expression"]);
  prec (-1) "return"
].

Definition yield_expression : rule := choice [
  prec_left0 (seq ["yield"; $"_expression"]);
  prec (-1) "yield"
].

Definition call_expression : rule := prec PREC.call (seq [
  field "function" $"_expression_except_range";
  field "arguments" $"arguments"
]).

Definition arguments : rule := seq [
  "(";
  sepBy "," (seq [repeat $"attribute_item"; $"_expression"]);
  optional ",";
  ")"
].

Definition array_expression : rule := seq [
  "[";
  repeat $"attribute_item";
  choice [
    seq [
      $"_expression";
      ";";
      field "length" $"_expression"
    ];
    seq [
      sepBy "," (seq [repeat $"attribute_item"; $"_expression"]);
      optional ","
    ]
  ];
  "]"
].

Definition parenthesized_expression : rule := seq [
  "(";
  $"_expression";
  ")"
].

Definition tuple_expression : rule := seq [
  "(";
  repeat $"attribute_item";
  seq [$"_expression"; ","];
  repeat (seq [$"_expression"; ","]);
  optional $"_expression";
  ")"
].

Definition unit_expression : rule := seq ["("; ")"].

Definition struct_expression : rule := seq [
  field "name" (choice [
    $"_type_name";
    alias $"scoped_type_name_in_expression_position" "scoped_type_name";
    $"generic_type_with_turbofish"
  ]);
  field "body" $"field_initializer_list"
].

Definition field_initializer_list : rule := seq [
  "{";
  sepBy "," (choice [
    $"shorthand_field_initializer";
    $"field_initializer";
    $"base_field_initializer"
  ]);
  optional ",";
  "}"
].

Definition shorthand_field_initializer : rule := seq [
  repeat $"attribute_item";
  $"name"
].

Definition field_initializer : rule := seq [
  repeat $"attribute_item";
  field "field" (choice [$"_field_name"; $"integer_literal"]);
  ":";
  field "value" $"_expression"
].

Definition base_field_initializer : rule := seq [
  "..";
  $"_expression"
].

Definition if_expression : rule := prec_right0 (seq [
  "if";
  field "condition" $"_condition";
  field "consequence" $"block";
  optional (field "alternative" $"else_clause")
]).

Definition let_condition : rule := seq [
  "let";
  field "pattern" $"_pattern";
  "=";
  field "value" (prec_left PREC.and $"_expression")
].

Definition _let_chain : rule := prec_left PREC.and (choice [
  seq [$"_let_chain"; "&&"; $"let_condition"];
  seq [$"_let_chain"; "&&"; $"_expression"];
  seq [$"let_condition"; "&&"; $"_expression"];
  seq [$"let_condition"; "&&"; $"let_condition"];
  seq [$"_expression"; "&&"; $"let_condition"]
]).

Definition _condition : rule := choice [
  $"_expression";
  $"let_condition";
  alias $"_let_chain" "let_chain"
].

Definition else_clause : rule := seq [
  "else";
  choice [
    $"block";
    $"if_expression"
  ]
].

Definition match_expression : rule := seq [
  "match";
  field "value" $"_expression";
  field "body" $"match_block"
].

Definition match_block : rule := seq [
  "{";
  optional (seq [
    repeat $"match_arm";
    alias $"last_match_arm" "match_arm"
  ]);
  "}"
].

Definition match_arm : rule := prec_right0 (seq [
  repeat (choice [$"attribute_item"; $"inner_attribute_item"]);
  field "pattern" $"match_pattern";
  "=>";
  choice [
    seq [field "value" $"_expression"; ","];
    field "value" (prec 1 $"_expression_ending_with_block")
  ]
]).

Definition last_match_arm : rule := seq [
  repeat (choice [$"attribute_item"; $"inner_attribute_item"]);
  field "pattern" $"match_pattern";
  "=>";
  field "value" $"_expression";
  optional ","
].

Definition match_pattern : rule := seq [
  $"_pattern";
  optional (seq ["if"; field "condition" $"_condition"])
].

Definition while_expression : rule := seq [
  optional (seq [$"label"; ":"]);
  "while";
  field "condition" $"_condition";
  field "body" $"block"
].

Definition loop_expression : rule := seq [
  optional (seq [$"label"; ":"]);
  "loop";
  field "body" $"block"
].

Definition for_expression : rule := seq [
  optional (seq [$"label"; ":"]);
  "for";
  field "pattern" $"_pattern";
  "in";
  field "value" $"_expression";
  field "body" $"block"
].

Definition const_block : rule := seq [
  "const";
  field "body" $"block"
].

Definition closure_expression : rule := prec PREC.closure (seq [
  optional "static";
  optional "move";
  field "parameters" $"closure_parameters";
  choice [
    seq [
      optional (seq ["->"; field "return_type" $"_type"]);
      field "body" $"block"
    ];
    field "body" (choice [$"_expression"; "_"])
  ]
]).

Definition closure_parameters : rule := seq [
  "|";
  sepBy "," (choice [
    $"_pattern";
    $"parameter"
  ]);
  "|"
].

Definition label : rule := seq [alias_anon $"lifetime_quote" "'"; $"name"].

Definition break_expression : rule :=
  prec_left0 (seq ["break"; optional $"label"; optional $"_expression"]).

Definition continue_expression : rule :=
  prec_left0 (seq ["continue"; optional $"label"]).

Definition index_expression : rule :=
  prec PREC.call (seq [$"_expression"; "["; $"_expression"; "]"]).

Definition await_expression : rule := prec PREC.field (seq [
  $"_expression";
  ".";
  "await"
]).

Definition field_expression : rule := prec PREC.field (seq [
  field "value" $"_expression";
  ".";
  field "field" (choice [
    $"_field_name";
    $"integer_literal"
  ])
]).

Definition unsafe_block : rule := seq [
  "unsafe";
  $"block"
].

Definition async_block : rule := seq [
  "async";
  optional "move";
  $"block"
].

Definition gen_block : rule := seq [
  "gen";
  optional "move";
  $"block"
].

Definition try_block : rule := seq [
  "try";
  $"block"
].

Definition block : rule := seq [
  optional (seq [$"label"; ":"]);
  "{";
  repeat $"_statement";
  optional $"_expression";
  "}"
].

(* Section - Patterns *)

Definition _pattern : rule := choice [
  $"_literal_pattern";
  $"name";
  $"scoped_name";
  $"tuple_pattern";
  $"tuple_struct_pattern";
  $"struct_pattern";
  $"_reserved_keyword";
  $"ref_pattern";
  $"slice_pattern";
  $"captured_pattern";
  $"reference_pattern";
  $"remaining_field_pattern";
  $"mut_pattern";
  $"range_pattern";
  $"or_pattern";
  $"const_block";
  $"macro_invocation";
  "_"
].

Definition tuple_pattern : rule := seq [
  "(";
  sepBy "," (choice [$"_pattern"; $"closure_expression"]);
  optional ",";
  ")"
].

Definition slice_pattern : rule := seq [
  "[";
  sepBy "," $"_pattern";
  optional ",";
  "]"
].

Definition tuple_struct_pattern : rule := seq [
  field "type" (choice [
    $"name";
    $"scoped_name";
    alias $"generic_type_with_turbofish" "generic_type"
  ]);
  "(";
  sepBy "," $"_pattern";
  optional ",";
  ")"
].

Definition struct_pattern : rule := seq [
  field "type" (choice [
    $"_type_name";
    $"scoped_type_name"
  ]);
  "{";
  sepBy "," (choice [$"field_pattern"; $"remaining_field_pattern"]);
  optional ",";
  "}"
].

Definition field_pattern : rule := seq [
  optional "ref";
  optional "mut";
  choice [
    field "name" (alias $"name" "shorthand_field_name");
    seq [
      field "name" $"_field_name";
      ":";
      field "pattern" $"_pattern"
    ]
  ]
].

Definition remaining_field_pattern : rule := "..".

Definition mut_pattern : rule := prec (-1) (seq [
  "mut";
  $"_pattern"
]).

Definition range_pattern : rule := choice [
  seq [
    choice ["..."; "..="; ".."];
    choice [
      $"_literal_pattern";
      $"_path"
    ]
  ];
  seq [
    choice [
      $"_literal_pattern";
      $"_path"
    ];
    choice [
      seq [
        choice ["..."; "..="; ".."];
        choice [
          $"_literal_pattern";
          $"_path"
        ]
      ];
      ".."
    ]
  ]
].

Definition ref_pattern : rule := seq [
  "ref";
  $"_pattern"
].

Definition captured_pattern : rule := seq [
  $"name";
  "@";
  $"_pattern"
].

Definition reference_pattern : rule := seq [
  "&";
  optional "mut";
  $"_pattern"
].

Definition or_pattern : rule := prec_left (-2) (choice [
  seq [$"_pattern"; "|"; $"_pattern"];
  seq ["|"; $"_pattern"]
]).

(* Section - Literals *)

Definition _literal : rule := choice [
  $"string_literal";
  $"raw_string_literal";
  $"char_literal";
  $"boolean_literal";
  $"integer_literal";
  $"float_literal"
].

Definition _literal_pattern : rule := choice [
  $"string_literal";
  $"raw_string_literal";
  $"char_literal";
  $"boolean_literal";
  $"integer_literal";
  $"float_literal";
  $"negative_literal"
].

Definition negative_literal : rule :=
  seq ["-"; choice [$"integer_literal"; $"float_literal"]].

Definition digits : rule := Pat re_digits.

Definition integer_literal : rule := seq [
  choice [
    alias (Pat re_decimal) "digits";
    seq [alias_anon $"hexadecimal_prefix" "0x"; alias (Pat re_hex) "digits"];
    seq [alias_anon $"binary_prefix" "0b"; alias (Pat re_binary) "digits"];
    seq [alias_anon $"octal_prefix" "0o"; alias (Pat re_octal) "digits"]
  ];
  optional $"literal_suffix"
].

Definition float_literal : rule := seq [
  alias (Pat re_decimal) "digits";
  choice [
    seq [
      alias_anon $"decimal_point" ".";
      optional $"digits"
    ];
    seq [
      alias_anon $"exponent_e" "e";
      optional (choice ["+"; "-"]);
      $"digits"
    ];
    seq [
      alias_anon $"decimal_point" ".";
      $"digits";
      alias_anon $"exponent_e" "e";
      optional (choice ["+"; "-"]);
      $"digits"
    ]
  ];
  optional $"literal_suffix"
].

Definition string_literal : rule := seq [
  alias_anon (Pat re_string_start) dquote;
  repeat (choice [
    $"escape_sequence";
    $"string_content"
  ]);
  token_immediate dquote;
  optional $"literal_suffix"
].

Definition raw_string_literal : rule := seq [
  alias_anon $"_raw_string_literal_start" dquote;
  alias $"raw_string_literal_content" "string_content";
  alias_anon $"_raw_string_literal_end" dquote;
  optional $"literal_suffix"
].

Definition char_literal : rule := seq [
  optional $"char_prefix";
  alias_anon $"char_quote" "'";
  optional (choice [
    $"escape_sequence";
    $"literal_char"
  ]);
  "'";
  optional $"literal_suffix"
].

Definition literal_char : rule := Pat re_literal_char.

Definition escape_sequence : rule := token_immediate (
  seq ["\";
    choice [
      Pat re_escape_simple;
      Pat re_escape_u4;
      Pat re_escape_ubrace;
      Pat re_escape_x2
    ]
  ]).

Definition boolean_literal : rule := choice ["true"; "false"].

Definition comment : rule := choice [
  $"line_comment";
  $"block_comment"
].

Definition line_comment : rule := seq [
  (* All line comments start with two // *)
  "//";
  (* Then are followed by:
     - 2 or more slashes making it a regular comment
     - 1 slash or 1 or more bang operators making it a doc comment
     - or just content for the comment *)
  choice [
    (* A tricky edge case where what looks like a doc comment is not *)
    seq [token_immediate (prec 2 (Pat re_two_slashes)); Pat re_rest_of_line];
    (* A regular doc comment *)
    seq [$"_line_doc_comment_marker"; field "doc" (alias $"_line_doc_content" "doc_comment")];
    token_immediate (prec 1 (Pat re_rest_of_line))
  ]
].

Definition _line_doc_comment_marker : rule := choice [
  (* An outer line doc comment applies to the element that it is outside of *)
  field "outer" (alias $"_outer_line_doc_comment_marker" "outer_doc_comment_marker");
  (* An inner line doc comment applies to the element it is inside of *)
  field "inner" (alias $"_inner_line_doc_comment_marker" "inner_doc_comment_marker")
].

Definition _inner_line_doc_comment_marker : rule := token_immediate (prec 2 "!").
Definition _outer_line_doc_comment_marker : rule := token_immediate (prec 2 "/").

Definition block_comment : rule := seq [
  "/*";
  optional (
    choice [
      (* Documentation block comments *)
      seq [
        $"_block_doc_comment_marker";
        optional (field "doc" (alias $"_block_comment_content" "doc_comment"))
      ];
      (* Non-doc block comments *)
      $"_block_comment_content"
    ]
  );
  "*/"
].

Definition _block_doc_comment_marker : rule := choice [
  field "outer" (alias $"_outer_block_doc_comment_marker" "outer_doc_comment_marker");
  field "inner" (alias $"_inner_block_doc_comment_marker" "inner_doc_comment_marker")
].

Definition _path : rule := choice [
  $"keyword_scope";
  $"metavariable";
  $"name";
  $"scoped_name";
  $"_reserved_keyword"
].

Definition simple_path : rule :=
  seq [optional "::"; $"_simple_path_segment"; repeat (seq ["::"; $"_simple_path_segment"])].
Definition _simple_path_segment : rule := choice [$"name"; $"keyword_scope"].

Definition keyword_scope : rule := choice [
  "self";
  "super";
  "crate"
].

Definition name : rule := seq [optional "r#"; $"identifier"].

Definition identifier : rule := Pat re_identifier.


Definition shebang : rule := Pat re_shebang.

Definition _reserved_keyword : rule := alias (choice [
  "default";
  "union";
  "gen"
]) "name".

Definition _type_name : rule := alias $"name" "type_name".
Definition _field_name : rule := alias $"name" "field_name".

Definition metavariable : rule := Pat re_metavariable.

(** The [rules] object of the grammar: every rule under its name, in source
    order. *)
Definition rules : list (string * rule) := [
  ("source_file", source_file);
  ("_statement", _statement);
  ("empty_statement", empty_statement);
  ("expression_statement", expression_statement);
  ("_declaration_statement", _declaration_statement);
  ("macro_definition", macro_definition);
  ("macro_rule", macro_rule);
  ("_token_pattern", _token_pattern);
  ("token_tree_pattern", token_tree_pattern);
  ("token_binding_pattern", token_binding_pattern);
  ("token_repetition_pattern", token_repetition_pattern);
  ("fragment_specifier", fragment_specifier);
  ("_tokens", _tokens);
  ("token_tree", token_tree);
  ("token_repetition", token_repetition);
  ("_non_special_token", _non_special_token);
  ("attribute_item", attribute_item);
  ("inner_attribute_item", inner_attribute_item);
  ("_attribute", _attribute);
  ("unsafe_attribute", unsafe_attribute);
  ("builtin_attribute", builtin_attribute);
  ("lint_level_attribute", lint_level_attribute);
  ("repr_modifier", repr_modifier);
  ("primitive_repr", primitive_repr);
  ("meta_name_value", meta_name_value);
  ("_any_string_literal", _any_string_literal);
  ("_cfg_predicate", _cfg_predicate);
  ("cfg_option", cfg_option);
  ("cfg_all", cfg_all);
  ("cfg_any", cfg_any);
  ("cfg_not", cfg_not);
  ("cfg_boolean", cfg_boolean);
  ("proc_macro_derive_helper_attributes", proc_macro_derive_helper_attributes);
  ("attribute_macro", attribute_macro);
  ("mod_item", mod_item);
  ("foreign_mod_item", foreign_mod_item);
  ("declaration_list", declaration_list);
  ("struct_item", struct_item);
  ("union_item", union_item);
  ("enum_item", enum_item);
  ("enum_variant_list", enum_variant_list);
  ("enum_variant", enum_variant);
  ("field_declaration_list", field_declaration_list);
  ("field_declaration", field_declaration);
  ("ordered_field_declaration_list", ordered_field_declaration_list);
  ("extern_crate_declaration", extern_crate_declaration);
  ("const_item", const_item);
  ("static_item", static_item);
  ("type_item", type_item);
  ("function_item", function_item);
  ("function_signature_item", function_signature_item);
  ("function_modifiers", function_modifiers);
  ("where_clause", where_clause);
  ("where_predicate", where_predicate);
  ("impl_item", impl_item);
  ("trait_item", trait_item);
  ("associated_type", associated_type);
  ("trait_bounds", trait_bounds);
  ("higher_ranked_trait_bound", higher_ranked_trait_bound);
  ("removed_trait_bound", removed_trait_bound);
  ("type_parameters", type_parameters);
  ("const_parameter", const_parameter);
  ("constrained_type_parameter", constrained_type_parameter);
  ("optional_type_parameter", optional_type_parameter);
  ("let_declaration", let_declaration);
  ("use_declaration", use_declaration);
  ("_use_clause", _use_clause);
  ("scoped_use_list", scoped_use_list);
  ("use_list", use_list);
  ("use_as_clause", use_as_clause);
  ("use_wildcard", use_wildcard);
  ("parameters", parameters);
  ("self_parameter", self_parameter);
  ("variadic_parameter", variadic_parameter);
  ("parameter", parameter);
  ("extern_modifier", extern_modifier);
  ("visibility_modifier", visibility_modifier);
  ("_type", _type);
  ("bracketed_type", bracketed_type);
  ("qualified_type", qualified_type);
  ("lifetime", lifetime);
  ("array_type", array_type);
  ("for_lifetimes", for_lifetimes);
  ("function_type", function_type);
  ("tuple_type", tuple_type);
  ("unit_type", unit_type);
  ("generic_function", generic_function);
  ("generic_type", generic_type);
  ("generic_type_with_turbofish", generic_type_with_turbofish);
  ("bounded_type", bounded_type);
  ("type_arguments", type_arguments);
  ("type_binding", type_binding);
  ("reference_type", reference_type);
  ("pointer_type", pointer_type);
  ("self_type", self_type);
  ("never_type", never_type);
  ("abstract_type", abstract_type);
  ("dynamic_type", dynamic_type);
  ("_expression_except_range", _expression_except_range);
  ("_expression", _expression);
  ("_expression_ending_with_block", _expression_ending_with_block);
  ("macro_invocation", macro_invocation);
  ("delim_token_tree", delim_token_tree);
  ("_delim_tokens", _delim_tokens);
  ("_non_delim_token", _non_delim_token);
  ("self", self);
  ("scoped_name", scoped_name);
  ("scoped_type_name_in_expression_position", scoped_type_name_in_expression_position);
  ("scoped_type_name", scoped_type_name);
  ("range_expression", range_expression);
  ("unary_expression", unary_expression);
  ("try_expression", try_expression);
  ("reference_expression", reference_expression);
  ("binary_expression", binary_expression);
  ("assignment_expression", assignment_expression);
  ("compound_assignment_expr", compound_assignment_expr);
  ("type_cast_expression", type_cast_expression);
  ("return_expression", return_expression);
  ("yield_expression", yield_expression);
  ("call_expression", call_expression);
  ("arguments", arguments);
  ("array_expression", array_expression);
  ("parenthesized_expression", parenthesized_expression);
  ("tuple_expression", tuple_expression);
  ("unit_expression", unit_expression);
  ("struct_expression", struct_expression);
  ("field_initializer_list", field_initializer_list);
  ("shorthand_field_initializer", shorthand_field_initializer);
  ("field_initializer", field_initializer);
  ("base_field_initializer", base_field_initializer);
  ("if_expression", if_expression);
  ("let_condition", let_condition);
  ("_let_chain", _let_chain);
  ("_condition", _condition);
  ("else_clause", else_clause);
  ("match_expression", match_expression);
  ("match_block", match_block);
  ("match_arm", match_arm);
  ("last_match_arm", last_match_arm);
  ("match_pattern", match_pattern);
  ("while_expression", while_expression);
  ("loop_expression", loop_expression);
  ("for_expression", for_expression);
  ("const_block", const_block);
  ("closure_expression", closure_expression);
  ("closure_parameters", closure_parameters);
  ("label", label);
  ("break_expression", break_expression);
  ("continue_expression", continue_expression);
  ("index_expression", index_expression);
  ("await_expression", await_expression);
  ("field_expression", field_expression);
  ("unsafe_block", unsafe_block);
  ("async_block", async_block);
  ("gen_block", gen_block);
  ("try_block", try_block);
  ("block", block);
  ("_pattern", _pattern);
  ("tuple_pattern", tuple_pattern);
  ("slice_pattern", slice_pattern);
  ("tuple_struct_pattern", tuple_struct_pattern);
  ("struct_pattern", struct_pattern);
  ("field_pattern", field_pattern);
  ("remaining_field_pattern", remaining_field_pattern);
  ("mut_pattern", mut_pattern);
  ("range_pattern", range_pattern);
  ("ref_pattern", ref_pattern);
  ("captured_pattern", captured_pattern);
  ("reference_pattern", reference_pattern);
  ("or_pattern", or_pattern);
  ("_literal", _literal);
  ("_literal_pattern", _literal_pattern);
  ("negative_literal", negative_literal);
  ("digits", digits);
  ("integer_literal", integer_literal);
  ("float_literal", float_literal);
  ("string_literal", string_literal);
  ("raw_string_literal", raw_string_literal);
  ("char_literal", char_literal);
  ("literal_char", literal_char);
  ("escape_sequence", escape_sequence);
  ("boolean_literal", boolean_literal);
  ("comment", comment);
  ("line_comment", line_comment);
  ("_line_doc_comment_marker", _line_doc_comment_marker);
  ("_inner_line_doc_comment_marker", _inner_line_doc_comment_marker);
  ("_outer_line_doc_comment_marker", _outer_line_doc_comment_marker);
  ("block_comment", block_comment);
  ("_block_doc_comment_marker", _block_doc_comment_marker);
  ("_path", _path);
  ("simple_path", simple_path);
  ("_simple_path_segment", _simple_path_segment);
  ("keyword_scope", keyword_scope);
  ("name", name);
  ("identifier", identifier);
  ("shebang", shebang);
  ("_reserved_keyword", _reserved_keyword);
  ("_type_name", _type_name);
  ("_field_name", _field_name);
  ("metavariable", metavariable)
].

End Grammar.

(** ** Concrete syntax trees and the trees a rule admits *)

Module Syntax.
Import Regex DSL.

(** A concrete syntax tree.  [Tok text] is an anonymous node: a keyword or a
    punctuation mark, written as a string in the grammar.  [Node kind
    children] is a named node; each child carries the field name it sits
    under, if any.  [Aux text] is text that was read without a node of its
    own: the text of a pattern or of a composite token.  Written in place
    inside a rule, such a token is an auxiliary token of the generator, which
    the tree does not show; as the whole body of a named rule (an
    [identifier], say) it is the text of that node, which has no child
    nodes.  The text of an external token is of this sort, too.  Extras
    (white space and comments) may sit between any two tokens and are left
    out of the trees. *)
Inductive tree : Type :=
| Tok (text : string)
| Aux (text : string)
| Node (kind : string) (children : list (option string * tree)).

Definition child : Type := (option string * tree)%type.

(** The leaves of a tree, left to right: the token sequence it was parsed
    from. *)
Fixpoint leaves (t : tree) : list string :=
  match t with
  | Tok s => [s]
  | Aux s => [s]
  | Node _ cs =>
      (fix go (l : list child) : list string :=
         match l with
         | [] => []
         | c :: l' => (leaves (snd c) ++ go l')%list
         end) cs
  end.

Definition leaves_of (cs : list child) : list string :=
  flat_map (fun c => leaves (snd c)) cs.

Definition text_of (cs : list child) : string :=
  String.concat "" (leaves_of cs).

Definition kind_of (t : tree) : option string :=
  match t with
  | Tok _ | Aux _ => None
  | Node k _ => Some k
  end.


Definition lookup (n : string) : option rule :=
  option_map snd (find (fun p => String.eqb (fst p) n) Grammar.rules).

(** Rules whose name starts with an underscore are hidden: they leave no node
    of their own in the tree, their children are spliced into the parent. *)
Definition is_hidden (n : string) : bool := String.prefix "_" n.

Definition sym_name (r : rule) : option string :=
  match r with
  | Sym n => Some n
  | _ => None
  end.

Definition is_external (n : string) : bool :=
  existsb (fun r => match sym_name r with
                    | Some m => String.eqb m n
                    | None => false
                    end) Grammar.externals.

(** The string of a token that is a string, with or without a precedence:
    such a token is shown as an anonymous node, any other token is not
    shown. *)
Fixpoint token_string (r : rule) : option string :=
  match r with
  | Str s => Some s
  | Prec _ _ r' => token_string r'
  | _ => None
  end.

Definition token_leaf (r : rule) (text : string) : tree :=
  match token_string r with
  | Some _ => Tok text
  | None => Aux text
  end.

(** [matches lbl r cs]: the children [cs] are one way of matching rule [r]
    under the field name [lbl] (the innermost enclosing [field], if any).
    An external token has no rule: the scanner decides its text. *)
Inductive matches : option string -> rule -> list child -> Prop :=
| M_blank lbl : matches lbl Blank []
| M_str lbl s : matches lbl (Str s) [(lbl, Tok s)]
| M_pat lbl re s : re_match re s = true -> matches lbl (Pat re) [(lbl, Aux s)]
| M_hidden lbl n r cs :
    lookup n = Some r -> is_hidden n = true ->
    matches lbl r cs -> matches lbl (Sym n) cs
| M_visible lbl n r cs :
    lookup n = Some r -> is_hidden n = false ->
    matches None r cs -> matches lbl (Sym n) [(lbl, Node n cs)]
| M_external_hidden lbl n s :
    lookup n = None -> is_external n = true -> is_hidden n = true ->
    matches lbl (Sym n) [(lbl, Aux s)]
| M_external_visible lbl n s :
    lookup n = None -> is_external n = true -> is_hidden n = false ->
    matches lbl (Sym n) [(lbl, Node n [(None, Aux s)])]
| M_seq_nil lbl : matches lbl (Seq []) []
| M_seq_cons lbl r rs c1 c2 :
    matches lbl r c1 -> matches lbl (Seq rs) c2 ->
    matches lbl (Seq (r :: rs)) (c1 ++ c2)%list
| M_choice lbl r rs cs :
    In r rs -> matches lbl r cs -> matches lbl (Choice rs) cs
| M_repeat_nil lbl r : matches lbl (Repeat r) []
| M_repeat_cons lbl r c1 c2 :
    matches lbl r c1 -> matches lbl (Repeat r) c2 ->
    matches lbl (Repeat r) (c1 ++ c2)%list
| M_repeat1 lbl r c1 c2 :
    matches lbl r c1 -> matches lbl (Repeat r) c2 ->
    matches lbl (Repeat1 r) (c1 ++ c2)%list
| M_prec lbl a n r cs : matches lbl r cs -> matches lbl (Prec a n r) cs
| M_field lbl n r cs : matches (Some n) r cs -> matches lbl (Field n r) cs
| M_alias_named lbl r n cs :
    aliased r cs -> matches lbl (Alias r true n) [(lbl, Node n cs)]
| M_alias_anon lbl r n cs :
    aliased r cs -> matches lbl (Alias r false n) [(lbl, Tok (text_of cs))]
| M_token lbl r cs :
    matches None r cs -> matches lbl (Token r) [(lbl, token_leaf r (text_of cs))]
| M_immediate lbl r cs :
    matches None r cs ->
    matches lbl (ImmediateToken r) [(lbl, token_leaf r (text_of cs))]

(** [aliased r cs]: the content [cs] of a node that stands for rule [r] under
    another name: the body of [r] when [r] names a rule, the text of an
    external token, or what [r] itself matches. *)
with aliased : rule -> list child -> Prop :=
| A_rule n r cs : lookup n = Some r -> matches None r cs -> aliased (Sym n) cs
| A_external n s : lookup n = None -> is_external n = true -> aliased (Sym n) [(None, Aux s)]
| A_inline r cs : sym_name r = None -> matches None r cs -> aliased r cs.

(** A tree is a syntax tree of the grammar when it is a [source_file] node
    admitted by the start rule; [derives n t] is the same for any named
    rule. *)
Definition derives (n : string) (t : tree) : Prop :=
  matches None (Sym n) [(None, t)].

Definition valid (t : tree) : Prop := derives "source_file" t.

(** *** A checker for [matches]

    [run fuel lbl r cs] lists what can remain of [cs] after a prefix of it has
    matched [r]; every recursive call spends fuel, so that left-recursive
    rules are cut off.  The checker is sound for [matches]; it gives up on
    tokens that are built from several pieces. *)

Definition label_eqb (a b : option string) : bool :=
  match a, b with
  | None, None => true
  | Some x, Some y => String.eqb x y
  | _, _ => false
  end.

Definition is_nil {A : Type} (l : list A) : bool :=
  match l with
  | [] => true
  | _ :: _ => false
  end.

(** The text a token rule made of a single piece may take. *)
Fixpoint token_text (r : rule) (t : string) : bool :=
  match r with
  | Str s => String.eqb t s
  | Pat re => re_match re t
  | Prec _ _ r' => token_text r' t
  | _ => false
  end.

Fixpoint run (fuel : nat) (lbl : option string) (r : rule) (cs : list child)
  {struct fuel} : list (list child) :=
  match fuel with
  | O => []
  | S f =>
      match r with
      | Blank => [cs]
      | Str s =>
          match cs with
          | (l, Tok t) :: rest =>
              if label_eqb l lbl then if String.eqb t s then [rest] else [] else []
          | _ => []
          end
      | Pat re =>
          match cs with
          | (l, Aux t) :: rest =>
              if label_eqb l lbl then if re_match re t then [rest] else [] else []
          | _ => []
          end
      | Sym n =>
          match lookup n with
          | Some b =>
              if is_hidden n then run f lbl b cs
              else
                match cs with
                | (l, Node k kids) :: rest =>
                    if label_eqb l lbl then
                      if String.eqb k n then
                        if existsb is_nil (run f None b kids) then [rest] else []
                      else []
                    else []
                | _ => []
                end
          | None =>
              if is_external n then
                if is_hidden n then
                  match cs with
                  | (l, Aux _) :: rest => if label_eqb l lbl then [rest] else []
                  | _ => []
                  end
                else
                  match cs with
                  | (l, Node k [(None, Aux _)]) :: rest =>
                      if label_eqb l lbl then if String.eqb k n then [rest] else [] else []
                  | _ => []
                  end
              else []
          end
      | Seq [] => [cs]
      | Seq (r1 :: rs) => flat_map (run f lbl (Seq rs)) (run f lbl r1 cs)
      | Choice rs => flat_map (fun r1 => run f lbl r1 cs) rs
      | Repeat r1 => cs :: flat_map (run f lbl (Repeat r1)) (run f lbl r1 cs)
      | Repeat1 r1 => flat_map (run f lbl (Repeat r1)) (run f lbl r1 cs)
      | Prec _ _ r1 => run f lbl r1 cs
      | Field n r1 => run f (Some n) r1 cs
      | Alias r1 true n =>
          match cs with
          | (l, Node k kids) :: rest =>
              if label_eqb l lbl then
                if String.eqb k n then
                  match r1 with
                  | Sym m =>
                      match lookup m with
                      | Some b => if existsb is_nil (run f None b kids) then [rest] else []
                      | None =>
                          if is_external m then
                            match kids with
                            | [(None, Aux _)] => [rest]
                            | _ => []
                            end
                          else []
                      end
                  | _ => if existsb is_nil (run f None r1 kids) then [rest] else []
                  end
                else []
              else []
          | _ => []
          end
      | Alias r1 false n =>
          match cs with
          | (l, Tok t) :: rest =>
              if label_eqb l lbl then
                match r1 with
                | Sym m =>
                    match lookup m with
                    | Some b => if token_text b t then [rest] else []
                    | None => if is_external m then [rest] else []
                    end
                | _ => if token_text r1 t then [rest] else []
                end
              else []
          | _ => []
          end
      | Token r1 | ImmediateToken r1 =>
          match cs with
          | (l, Tok t) :: rest =>
              if label_eqb l lbl then
                match token_string r1 with
                | Some _ => if token_text r1 t then [rest] else []
                | None => []
                end
              else []
          | (l, Aux t) :: rest =>
              if label_eqb l lbl then
                match token_string r1 with
                | Some _ => []
                | None => if token_text r1 t then [rest] else []
                end
              else []
          | _ => []
          end
      end
  end.

(** [check fuel n t]: the tree [t] is admitted by the rule named [n]. *)
Definition check (fuel : nat) (n : string) (t : tree) : bool :=
  existsb is_nil (run fuel None (Sym n) [(None, t)]).

End Syntax.

(** ** Precedence and associativity of operator expressions

    A rule of the shape [prec*(n, seq(E, op, E))], [prec*(n, seq(op, E))] or
    [prec*(n, seq(E, op))] with [E = $._expression] is an infix, prefix or
    postfix operator production.  When such a production is complete on the
    stack and the next token could extend its last operand, the parser
    generator compares the precedence of the complete production with the
    precedence of the production the token belongs to: the higher one wins,
    and on a tie the associativity of the complete production decides (left:
    reduce, right: shift, none: an unresolved conflict). *)

Module Operators.
Import Regex DSL Syntax.
Open Scope Z_scope.

Record production : Type := {
  p_kind : string;
  p_prec : Z;
  p_assoc : assoc;
  p_opfield : option string;
  p_tokens : list string
}.

Definition alternatives (r : rule) : list rule :=
  match r with
  | Choice rs => rs
  | _ => [r]
  end.

Definition literal (r : rule) : list string :=
  match r with
  | Str s => [s]
  | _ => []
  end.

Definition literals (r : rule) : list string :=
  flat_map literal (alternatives r).

Definition operator_of (r : rule) : option string * list string :=
  match r with
  | Field n r' => (Some n, literals r')
  | _ => (None, literals r)
  end.

Definition is_expression (r : rule) : bool :=
  match r with
  | Sym n => String.eqb n "_expression"
  | _ => false
  end.

Definition is_operand (side : string) (r : rule) : bool :=
  match r with
  | Field n r' => String.eqb n side && is_expression r'
  | _ => false
  end.

Definition infix_of (kind : string) (r : rule) : list production :=
  match r with
  | Prec a n (Seq [l; o; r']) =>
      if is_operand "left" l && is_operand "right" r' then
        let (f, toks) := operator_of o in
        [{| p_kind := kind; p_prec := n; p_assoc := a; p_opfield := f; p_tokens := toks |}]
      else []
  | _ => []
  end.

Definition prefix_of (kind : string) (r : rule) : list production :=
  match r with
  | Prec a n (Seq [o; e]) =>
      if is_expression e then
        let (f, toks) := operator_of o in
        [{| p_kind := kind; p_prec := n; p_assoc := a; p_opfield := f; p_tokens := toks |}]
      else []
  | _ => []
  end.

Definition postfix_of (kind : string) (r : rule) : list production :=
  match r with
  | Prec a n (Seq [e; o]) =>
      if is_expression e then
        let (f, toks) := operator_of o in
        [{| p_kind := kind; p_prec := n; p_assoc := a; p_opfield := f; p_tokens := toks |}]
      else []
  | _ => []
  end.

Definition productions (shape : string -> rule -> list production) : list production :=
  flat_map (fun nr => flat_map (shape (fst nr)) (alternatives (snd nr))) Grammar.rules.

Definition infix_productions : list production := productions infix_of.
Definition prefix_productions : list production := productions prefix_of.
Definition postfix_productions : list production := productions postfix_of.

Definition find_op (ps : list production) (t : string) : option production :=
  find (fun p => existsb (String.eqb t) (p_tokens p)) ps.


Inductive action : Type := Shift | Reduce | Conflict.

(** The choice between reducing the complete production [complete] and
    shifting a token whose production has precedence [next]. *)
Definition resolve (complete : production) (next : Z) : action :=
  if next <? p_prec complete then Reduce
  else if p_prec complete <? next then Shift
  else match p_assoc complete with
       | ALeft => Reduce
       | ARight => Shift
       | ANone => Conflict
       end.

(** What is on the stack below the operand being read: a left operand with
    its infix operator, or a prefix operator. *)
Inductive frame : Type :=
| FInfix (lhs : tree) (op : string) (p : production)
| FPrefix (op : string) (p : production).

Definition frame_production (f : frame) : production :=
  match f with
  | FInfix _ _ p => p
  | FPrefix _ p => p
  end.

Definition build (f : frame) (e : tree) : tree :=
  match f with
  | FInfix l op p =>
      Node (p_kind p) [(Some "left", l); (p_opfield p, Tok op); (Some "right", e)]
  | FPrefix op p =>
      Node (p_kind p) [(p_opfield p, Tok op); (None, e)]
  end.

Definition build_postfix (p : production) (e : tree) (op : string) : tree :=
  Node (p_kind p) [(None, e); (p_opfield p, Tok op)].

Definition operand (s : string) : tree :=
  Node "name" [(None, Node "identifier" [(None, Aux s)])].

(** The strings a rule is written with. *)
Fixpoint strings_of (r : rule) : list string :=
  match r with
  | Str s => [s]
  | Blank | Pat _ | Sym _ => []
  | Seq rs | Choice rs =>
      (fix all (l : list rule) : list string :=
         match l with
         | [] => []
         | r1 :: l' => (strings_of r1 ++ all l')%list
         end) rs
  | Repeat r1 | Repeat1 r1 | Prec _ _ r1 | Field _ r1 | Alias r1 _ _
  | Token r1 | ImmediateToken r1 => strings_of r1
  end.

(** The grammar declares [identifier] as its [word]: every string of the
    grammar that the word pattern matches is a keyword, read as that keyword
    where a rule asks for it.  A word that is no keyword is an identifier
    wherever it stands. *)
Definition keywords : list string :=
  filter (re_match Grammar.re_identifier)
    (flat_map (fun nr => strings_of (snd nr)) Grammar.rules).

Definition is_word (t : string) : bool :=
  re_match Grammar.re_identifier t && negb (existsb (String.eqb t) keywords).

(** Reduce the frames that win against a next token of precedence [next]. *)
Fixpoint unwind (st : list frame) (e : tree) (next : Z) : option (list frame * tree) :=
  match st with
  | [] => Some ([], e)
  | f :: st' =>
      match resolve (frame_production f) next with
      | Reduce => unwind st' (build f e) next
      | Shift => Some (st, e)
      | Conflict => None
      end
  end.

(** At the end of the input everything left on the stack is reduced. *)
Fixpoint finish (st : list frame) (e : tree) : tree :=
  match st with
  | [] => e
  | f :: st' => finish st' (build f e)
  end.

(** [drive st cur ts]: [cur] is the operand just completed, if any.  The
    operands are names: a word that is no keyword.  Keywords, literals and
    the other operands of the grammar are not read, and neither are words
    outside ASCII; on these the result is [None]. *)
Fixpoint drive (st : list frame) (cur : option tree) (ts : list string) : option tree :=
  match ts with
  | [] =>
      match cur with
      | Some e => Some (finish st e)
      | None => None
      end
  | t :: ts' =>
      match cur with
      | None =>
          match find_op prefix_productions t with
          | Some p => drive (FPrefix t p :: st) None ts'
          | None =>
              if is_word t
              then drive st (Some (operand t)) ts'
              else None
          end
      | Some e =>
          match find_op postfix_productions t with
          | Some p =>
              match unwind st e (p_prec p) with
              | Some (st', e') => drive st' (Some (build_postfix p e' t)) ts'
              | None => None
              end
          | None =>
              match find_op infix_productions t with
              | Some p =>
                  match unwind st e (p_prec p) with
                  | Some (st', e') => drive (FInfix e' t p :: st') None ts'
                  | None => None
                  end
              | None => None
              end
          end
      end
  end.

(** The tree of an operator expression over names, from its tokens. *)
Definition parse_expression (ts : list string) : option tree := drive [] None ts.

(** The precedence and associativity a rule is annotated with. *)
Definition rule_prec (r : rule) : option Z :=
  match r with
  | Prec _ n _ => Some n
  | _ => None
  end.

Definition rule_assoc (r : rule) : option assoc :=
  match r with
  | Prec a _ _ => Some a
  | _ => None
  end.

Definition field_child (f : string) (t : tree) : option tree :=
  match t with
  | Tok _ | Aux _ => None
  | Node _ cs =>
      option_map snd
        (find (fun c => match fst c with
                        | Some g => String.eqb g f
                        | None => false
                        end) cs)
  end.

End Operators.

(** ** Lexical precedence

    After the opening [//] of a line comment the lexer has to pick one of the
    tokens the three alternatives of [line_comment] start with.  Among the
    tokens that match at the current position the one with the highest
    lexical precedence ([prec] inside [token]) is preferred, then the longest
    match, then the earliest in the grammar. *)

Module Lexing.
Import Regex DSL Syntax.
Open Scope Z_scope.

Record lex_token : Type := {
  t_prec : Z;
  t_pattern : regex;
  t_fields : list string
}.

(** The pattern and lexical precedence of the content of a [token]. *)
Fixpoint token_spec (r : rule) : option (Z * regex) :=
  match r with
  | Str s => Some (0, rstr s)
  | Pat re => Some (0, re)
  | Prec _ n r' =>
      match token_spec r' with
      | Some (_, re) => Some (n, re)
      | None => None
      end
  | _ => None
  end.

(** The internal tokens a rule can start with, each with the field names
    passed on the way to it.  The first member of every [seq] met here is
    not nullable; external tokens are left to the scanner. *)
Fixpoint first_tokens (fuel : nat) (fields : list string) (r : rule) : list lex_token :=
  match fuel with
  | O => []
  | S f =>
      match r with
      | Blank => []
      | Str _ | Pat _ =>
          match token_spec r with
          | Some (n, re) => [{| t_prec := n; t_pattern := re; t_fields := fields |}]
          | None => []
          end
      | Token r' | ImmediateToken r' =>
          match token_spec r' with
          | Some (n, re) => [{| t_prec := n; t_pattern := re; t_fields := fields |}]
          | None => []
          end
      | Sym n =>
          match lookup n with
          | Some b => first_tokens f fields b
          | None => []
          end
      | Seq [] => []
      | Seq (r1 :: _) => first_tokens f fields r1
      | Choice rs => flat_map (first_tokens f fields) rs
      | Repeat r' | Repeat1 r' | Prec _ _ r' | Alias r' _ _ => first_tokens f fields r'
      | Field n r' => first_tokens f (n :: fields) r'
      end
  end.

(** The alternatives that follow the opening [//] of [line_comment]. *)
Definition after_slashes : rule :=
  match Grammar.line_comment with
  | Seq [_; alts] => alts
  | _ => Blank
  end.

Definition line_comment_tokens : list lex_token := first_tokens 10 [] after_slashes.

(** [better a b]: candidate [a] (token, match length) is preferred to [b]. *)
Definition better (a b : lex_token * nat) : bool :=
  (t_prec (fst b) <? t_prec (fst a))
  || ((t_prec (fst b) =? t_prec (fst a)) && (snd b <? snd a)%nat).

Definition candidates (toks : list lex_token) (s : string) : list (lex_token * nat) :=
  flat_map (fun t => match longest_prefix (t_pattern t) s with
                     | Some n => [(t, n)]
                     | None => []
                     end) toks.

Fixpoint pick (best : option (lex_token * nat)) (cs : list (lex_token * nat))
  : option (lex_token * nat) :=
  match cs with
  | [] => best
  | c :: cs' =>
      match best with
      | None => pick (Some c) cs'
      | Some b => pick (if better c b then Some c else Some b) cs'
      end
  end.

Definition lex (toks : list lex_token) (s : string) : option (lex_token * nat) :=
  pick None (candidates toks s).

Inductive comment_class : Type := Plain | OuterDoc | InnerDoc.

Definition starts_with (c : ascii) (s : string) : bool :=
  match s with
  | EmptyString => false
  | String d _ => Ascii.eqb d c
  end.

Definition class_of (t : lex_token) : comment_class :=
  if existsb (String.eqb "outer") (t_fields t) then OuterDoc
  else if existsb (String.eqb "inner") (t_fields t) then InnerDoc
  else Plain.

(** The class of the line comment whose text after the opening [//] is
    [rest] (up to the end of the input). *)
Definition line_comment_class (rest : string) : option comment_class :=
  option_map (fun c => class_of (fst c)) (lex line_comment_tokens rest).

End Lexing.

(** ** Static analyses of the rule table *)

Module Analysis.
Import Regex DSL Syntax.
Open Scope Z_scope.

(** [mentions n r]: rule [r] refers to the symbol [n]. *)
Fixpoint mentions (n : string) (r : rule) : bool :=
  match r with
  | Blank | Str _ | Pat _ => false
  | Sym m => String.eqb m n
  | Seq rs | Choice rs =>
      (fix any (l : list rule) : bool :=
         match l with
         | [] => false
         | r1 :: l' => mentions n r1 || any l'
         end) rs
  | Repeat r1 | Repeat1 r1 | Prec _ _ r1 | Field _ r1 | Alias r1 _ _
  | Token r1 | ImmediateToken r1 => mentions n r1
  end.

(** The rules that refer to [n]. *)
Definition users (n : string) : list string :=
  map fst (filter (fun nr => mentions n (snd nr)) Grammar.rules).

(** [heads fuel r = Some ks]: whatever [r] matches is exactly one named node,
    of a kind in [ks].  Hidden rules are looked through. *)
Fixpoint heads (fuel : nat) (r : rule) : option (list string) :=
  match fuel with
  | O => None
  | S f =>
      match r with
      | Sym n =>
          match lookup n with
          | Some b => if is_hidden n then heads f b else Some [n]
          | None => if is_external n && negb (is_hidden n) then Some [n] else None
          end
      | Choice rs =>
          fold_right (fun r1 acc =>
                        match heads f r1, acc with
                        | Some ks, Some ks' => Some (ks ++ ks')%list
                        | _, _ => None
                        end) (Some []) rs
      | Prec _ _ r1 => heads f r1
      | Alias _ true n => Some [n]
      | _ => None
      end
  end.

(** The kinds of node a statement can be. *)
Definition statement_kinds : list string :=
  match heads 5 (Sym "_statement") with
  | Some ks => ks
  | None => []
  end.

(** A child that is a statement node, and one that is a shebang line. *)
Definition is_statement (c : child) : Prop :=
  exists k kids, c = (None, Node k kids) /\ In k statement_kinds.

Definition is_shebang (c : child) : Prop :=
  exists s, c = (None, Node "shebang" [(None, Aux s)])
            /\ re_match Grammar.re_shebang s = true.

(** The reading of "no [let] declaration is a direct child of the root". *)
Definition no_top_level_let : Prop :=
  forall cs, Syntax.valid (Node "source_file" cs) ->
  forall c, In c cs -> kind_of (snd c) <> Some "let_declaration".

Definition symbol_names (rs : list rule) : list string :=
  flat_map (fun r => match sym_name r with
                     | Some n => [n]
                     | None => []
                     end) rs.

(** The declared conflict groups, by symbol name. *)
Definition conflict_groups : list (list string) := map symbol_names Grammar.conflicts.

Definition same_set (a b : list string) : bool :=
  forallb (fun x => existsb (String.eqb x) b) a
  && forallb (fun x => existsb (String.eqb x) a) b.

Definition same_groups (a b : list (list string)) : bool :=
  forallb (fun g => existsb (same_set g) b) a
  && forallb (fun g => existsb (same_set g) a) b.

(** The local ambiguities the specification enumerates. *)
Inductive ambiguity : Type :=
| TypeVsPattern
| UnitTypeVsTuplePattern
| ScopedValueVsScopedType
| ParametersVsTuplePattern
| TypeParametersVsForLifetimes
| ArrayExpressionSelf
| VisibilityModifier.

(** The symbol groups of each ambiguity, following the specification's list:
    the parameter-list ambiguity has a plain group, declared against the
    pattern supertype that [tuple_pattern] belongs to, and a tuple-struct
    group. *)
Definition spec_groups (a : ambiguity) : list (list string) :=
  match a with
  | TypeVsPattern => [["_type"; "_pattern"]]
  | UnitTypeVsTuplePattern => [["unit_type"; "tuple_pattern"]]
  | ScopedValueVsScopedType => [["scoped_name"; "scoped_type_name"]]
  | ParametersVsTuplePattern =>
      [["parameters"; "_pattern"]; ["parameters"; "tuple_struct_pattern"]]
  | TypeParametersVsForLifetimes => [["type_parameters"; "for_lifetimes"]]
  | ArrayExpressionSelf => [["array_expression"]]
  | VisibilityModifier => [["visibility_modifier"]]
  end.

Definition ambiguities : list ambiguity :=
  [TypeVsPattern; UnitTypeVsTuplePattern; ScopedValueVsScopedType;
   ParametersVsTuplePattern; TypeParametersVsForLifetimes;
   ArrayExpressionSelf; VisibilityModifier].

Definition spec_conflicts : list (list string) := flat_map spec_groups ambiguities.



(** The precedence levels in the order the specification gives them, from
    highest to lowest. *)
Definition spec_precedence_levels : list (string * Z) :=
  [("call", PREC.call); ("field", PREC.field); ("try", PREC.try);
   ("unary", PREC.unary); ("cast", PREC.cast);
   ("multiplicative", PREC.multiplicative); ("additive", PREC.additive);
   ("shift", PREC.shift); ("bitand", PREC.bitand); ("bitxor", PREC.bitxor);
   ("bitor", PREC.bitor); ("comparative", PREC.comparative);
   ("and", PREC.and); ("or", PREC.or); ("range", PREC.range);
   ("assign", PREC.assign); ("closure", PREC.closure)].

Fixpoint strictly_decreasing (l : list Z) : bool :=
  match l with
  | [] => true
  | x :: l' =>
      match l' with
      | [] => true
      | y :: _ => (y <? x) && strictly_decreasing l'
      end
  end.

(** The precedence the grammar gives to the rule named [n]. *)
Definition prec_of_rule (n : string) : option Z :=
  match lookup n with
  | Some r => Operators.rule_prec r
  | None => None
  end.

(** The kinds of node an expression can be. *)
Definition expression_kinds : list string :=
  match heads 10 (Sym "_expression") with
  | Some ks => ks
  | None => []
  end.

(** The rules and infix operators of each precedence level. *)
Definition level_rules : list (Z * list string) :=
  [(PREC.call, ["call_expression"; "index_expression"]);
   (PREC.field, ["field_expression"; "await_expression"]);
   (PREC.try, ["try_expression"]);
   (PREC.unary, ["unary_expression"; "reference_expression"]);
   (PREC.cast, ["type_cast_expression"]);
   (PREC.range, ["range_expression"]);
   (PREC.assign, ["assignment_expression"; "compound_assignment_expr"]);
   (PREC.closure, ["closure_expression"])].

Definition level_operators : list (Z * list string) :=
  [(PREC.multiplicative, ["*"; "/"; "%"]);
   (PREC.additive, ["+"; "-"]);
   (PREC.shift, ["<<"; ">>"]);
   (PREC.bitand, ["&"]);
   (PREC.bitxor, ["^"]);
   (PREC.bitor, ["|"]);
   (PREC.comparative, ["=="; "!="; "<"; "<="; ">"; ">="]);
   (PREC.and, ["&&"]);
   (PREC.or, ["||"]);
   (PREC.assign,
    ["="; "+="; "-="; "*="; "/="; "%="; "&="; "|="; "^="; "<<="; ">>="])].

(** The precedence of the infix operator [op]. *)
Definition prec_of_infix (op : string) : option Z :=
  option_map Operators.p_prec (Operators.find_op Operators.infix_productions op).

Definition infix_tokens : list string :=
  flat_map Operators.p_tokens Operators.infix_productions.

Definition level_ok {A : Type} (get : A -> option Z) (l : Z * list A) : bool :=
  forallb (fun x => match get x with
                    | Some n => n =? fst l
                    | None => false
                    end) (snd l).

(** [nests_right t] and [nests_left t]: the operand of the root of [t] that
    is itself an operator node with named operands. *)
Definition is_operator_node (t : tree) : bool :=
  match Operators.field_child "left" t, Operators.field_child "right" t with
  | Some _, Some _ => true
  | _, _ => false
  end.

Definition nests_right (t : tree) : bool :=
  match Operators.field_child "left" t, Operators.field_child "right" t with
  | Some l, Some r => negb (is_operator_node l) && is_operator_node r
  | _, _ => false
  end.

Definition nests_left (t : tree) : bool :=
  match Operators.field_child "left" t, Operators.field_child "right" t with
  | Some l, Some r => is_operator_node l && negb (is_operator_node r)
  | _, _ => false
  end.

(** How [a o1 b o2 c] groups: to the right exactly when [o2] has the higher
    precedence. *)
Definition groups_by_precedence (o1 o2 : string) : bool :=
  match prec_of_infix o1, prec_of_infix o2,
        Operators.parse_expression ["a"; o1; "b"; o2; "c"] with
  | Some p1, Some p2, Some t =>
      if p1 <? p2 then nests_right t else nests_left t
  | _, _, _ => false
  end.

End Analysis.

(** ** Trees used in the statements below *)

Module Examples.
Import Syntax.

Definition anon (t : tree) : child := (None, t).
Definition tok (s : string) : child := (None, Tok s).
Definition aux (s : string) : child := (None, Aux s).
Definition name (s : string) : tree := Operators.operand s.
Definition integer (s : string) : tree :=
  Node "integer_literal" [(None, Node "digits" [aux s])].

(** [let x = 1;] *)
Definition let_x : tree :=
  Node "let_declaration"
    [tok "let"; (Some "pattern", name "x"); tok "=";
     (Some "value", integer "1"); tok ";"].

Definition file_with_let : tree := Node "source_file" [anon let_x].

(** [#!/usr/bin/env run-cargo-script] and [#![no_std]]. *)
Definition shebang_line : tree :=
  Node "shebang" [aux "#!/usr/bin/env run-cargo-script"].

Definition no_std : tree :=
  Node "inner_attribute_item"
    [tok "#"; tok "!"; tok "[";
     anon (Node "builtin_attribute" [tok "no_std"]); tok "]"].

Definition script : tree :=
  Node "source_file" [anon shebang_line; anon no_std; anon let_x].

(** [$($x:expr),*] *)
Definition binding_x_expr : tree :=
  Node "token_binding_pattern"
    [(Some "name", Node "metavariable" [aux "$x"]); tok ":";
     (Some "type", Node "fragment_specifier" [tok "expr"])].


(** [/// text], [//! text], [//// text] and [// text]. *)
Definition outer_doc : tree :=
  Node "line_comment"
    [tok "//"; (Some "outer", Node "outer_doc_comment_marker" [tok "/"]);
     (Some "doc", Node "doc_comment" [aux " text"])].

Definition inner_doc : tree :=
  Node "line_comment"
    [tok "//"; (Some "inner", Node "inner_doc_comment_marker" [tok "!"]);
     (Some "doc", Node "doc_comment" [aux " text"])].

Definition four_slashes : tree :=
  Node "line_comment" [tok "//"; aux "//"; aux " text"].

Definition plain_comment : tree :=
  Node "line_comment" [tok "//"; aux " text"].

(** [(e)], [(e,)] and [()]. *)
Definition paren_e : tree :=
  Node "parenthesized_expression" [tok "("; anon (name "e"); tok ")"].

Definition tuple_e : tree :=
  Node "tuple_expression" [tok "("; anon (name "e"); tok ","; tok ")"].

Definition unit : tree := Node "unit_expression" [tok "("; tok ")"].

(** [a = b = c] and [a += b += c] grouped to the left, [a + b * c] with the
    product on the right, [-a?] with the try inside. *)
Definition assign (l r : tree) : tree :=
  Node "assignment_expression" [(Some "left", l); tok "="; (Some "right", r)].

Definition compound (op : string) (l r : tree) : tree :=
  Node "compound_assignment_expr"
    [(Some "left", l); (Some "operator", Tok op); (Some "right", r)].

Definition binary (op : string) (l r : tree) : tree :=
  Node "binary_expression"
    [(Some "left", l); (Some "operator", Tok op); (Some "right", r)].

Definition unary (op : string) (e : tree) : tree :=
  Node "unary_expression" [tok op; anon e].

Definition try (e : tree) : tree :=
  Node "try_expression" [anon e; tok "?"].

End Examples.

(** ** Further definitions: shapes of lists, operator chains, vocabularies *)

Module Shapes.
Import Regex DSL Syntax Operators.

(** What follows the first item of a separated list: each piece is what a
    separator matched and what the item after it matched. *)
Definition separated (pieces : list (list child * list child)) : list child :=
  flat_map (fun p => (fst p ++ snd p)%list) pieces.

Definition piece_ok (lbl : option string) (sep item : rule)
  (p : list child * list child) : Prop :=
  matches lbl sep (fst p) /\ matches lbl item (snd p).

(** Every character of [s] satisfies [p]. *)
Fixpoint all_chars (p : ascii -> bool) (s : string) : bool :=
  match s with
  | EmptyString => true
  | String c s' => p c && all_chars p s'
  end.

(** Text in which every byte is a character. *)
Definition is_ascii (c : ascii) : bool := (code c <? 128)%N.

Definition ascii_only (s : string) : bool := all_chars is_ascii s.

(** A regular expression that matches single characters, those that
    satisfy [p]. *)
Definition one_char (r : regex) (p : ascii -> bool) : Prop :=
  forall s, lang r s <-> exists c, s = String c "" /\ p c = true.

(** The three pairs of delimiters. *)
Definition delimiters : list (string * string) :=
  [("(", ")"); ("[", "]"); ("{", "}")].

(** [bracketed inner cs]: an opening delimiter, any number of [inner], and
    the closing delimiter of the same pair. *)
Definition bracketed (inner : rule) (cs : list child) : Prop :=
  exists o c body,
    In (o, c) delimiters
    /\ matches None (Repeat inner) body
    /\ cs = ((None, Tok o) :: body ++ [(None, Tok c)])%list.

(** How a macro definition ends after each opening delimiter. *)
Definition macro_closings : list (string * list string) :=
  [("(", [")"; ";"]); ("[", ["]"; ";"]); ("{", ["}"])].

(** The rules of a macro definition: rules that end in [;], then an optional
    last rule. *)
Definition macro_rules_body : rule :=
  Seq [Repeat (Seq [Sym "macro_rule"; Str ";"]);
       Choice [Sym "macro_rule"; Blank]].

(** A vocabulary: the kinds of named node and the texts of anonymous token
    that may occur. *)
Definition vocab : Type := (list string * list string)%type.

Definition vocab_union (a b : vocab) : vocab :=
  ((fst a ++ fst b)%list, (snd a ++ snd b)%list).

Definition in_vocab (v : vocab) (t : tree) : Prop :=
  match t with
  | Tok s => In s (snd v)
  | Aux _ => False
  | Node k _ => In k (fst v)
  end.

Definition vocab_all (f : rule -> option vocab) (rs : list rule) : option vocab :=
  fold_right (fun r1 acc =>
                match f r1, acc with
                | Some a, Some b => Some (vocab_union a b)
                | _, _ => None
                end) (Some ([], [])) rs.

(** [vocabulary fuel r = Some v]: every child that [r] produces directly is
    a node of a kind in [v] or a token with a text in [v].  Patterns and
    external tokens, whose text is open, give no vocabulary. *)
Fixpoint vocabulary (fuel : nat) (r : rule) : option vocab :=
  match fuel with
  | O => None
  | S f =>
      match r with
      | Blank => Some ([], [])
      | Str s => Some ([], [s])
      | Pat _ => None
      | Sym n =>
          match lookup n with
          | Some b => if is_hidden n then vocabulary f b else Some ([n], [])
          | None =>
              if is_external n && negb (is_hidden n) then Some ([n], []) else None
          end
      | Seq rs | Choice rs => vocab_all (vocabulary f) rs
      | Repeat r1 | Repeat1 r1 | Prec _ _ r1 | Field _ r1 => vocabulary f r1
      | Alias _ true n => Some ([n], [])
      | Alias _ false _ | Token _ | ImmediateToken _ => None
      end
  end.

(** *** Operator expressions *)

(** A token that is read as a name when an operand is expected: a word of
    ASCII letters, digits and underscores that is no keyword of the
    grammar. *)
Definition is_name (s : string) : bool :=
  match find_op prefix_productions s with
  | Some _ => false
  | None => is_word s
  end.

(** [a0 op a1 op ... an] and its tree when it groups to the left. *)
Definition chain_tokens (a0 op : string) (rest : list string) : list string :=
  a0 :: flat_map (fun a => [op; a]) rest.

Definition left_chain (p : production) (op a0 : string) (rest : list string)
  : tree :=
  fold_left (fun acc a => build (FInfix acc op p) (operand a)) rest (operand a0).

(** A tree that is admitted as an expression under every field name. *)
Definition expr (t : tree) : Prop :=
  forall lbl, matches lbl (Sym "_expression") [(lbl, t)].


(** A frame whose production and operator come from the rule table and
    whose left operand is an expression. *)
Definition frame_ok (f : frame) : Prop :=
  match f with
  | FInfix l op p => In p infix_productions /\ In op (p_tokens p) /\ expr l
  | FPrefix op p => In p prefix_productions /\ In op (p_tokens p)
  end.

Fixpoint distinct (l : list string) : bool :=
  match l with
  | [] => true
  | x :: l' => negb (existsb (String.eqb x) l') && distinct l'
  end.

(** The alternatives of the expression rule that are plain symbols. *)
Definition expression_alternatives : list rule :=
  alternatives Grammar._expression_except_range.

Definition is_expression_kind (k : string) : bool :=
  negb (is_hidden k)
  && existsb (fun r => match sym_name r with
                       | Some m => String.eqb m k
                       | None => false
                       end) expression_alternatives.

(** *** Node kinds *)

(** The symbols a rule refers to. *)
Fixpoint symbols_of (r : rule) : list string :=
  match r with
  | Blank | Str _ | Pat _ => []
  | Sym n => [n]
  | Seq rs | Choice rs =>
      (fix all (l : list rule) : list string :=
         match l with
         | [] => []
         | r1 :: l' => (symbols_of r1 ++ all l')%list
         end) rs
  | Repeat r1 | Repeat1 r1 | Prec _ _ r1 | Field _ r1 | Alias r1 _ _
  | Token r1 | ImmediateToken r1 => symbols_of r1
  end.

(** A symbol is defined when it has a rule or is an external token. *)
Definition defined (n : string) : bool :=
  match lookup n with
  | Some _ => true
  | None => is_external n
  end.

(** The kinds of node a rule makes itself: the visible symbols it refers to
    and the names it gives with [alias].  What stands under an alias, a
    token or a hidden symbol is made by other rules or is text. *)
Fixpoint kinds_of (r : rule) : list string :=
  match r with
  | Blank | Str _ | Pat _ => []
  | Sym n => if is_hidden n then [] else [n]
  | Seq rs | Choice rs =>
      (fix all (l : list rule) : list string :=
         match l with
         | [] => []
         | r1 :: l' => (kinds_of r1 ++ all l')%list
         end) rs
  | Repeat r1 | Repeat1 r1 | Prec _ _ r1 | Field _ r1 => kinds_of r1
  | Alias r1 true n =>
      n :: match r1 with
           | Sym _ => []
           | _ => kinds_of r1
           end
  | Alias _ false _ | Token _ | ImmediateToken _ => []
  end.

Definition content_kinds (r : rule) : list string :=
  match r with
  | Sym _ => []
  | _ => kinds_of r
  end.

(** The kinds of node of the grammar: the root and what the rules make. *)
Definition all_kinds : list string :=
  nodup string_dec
    ("source_file" :: flat_map (fun nr => kinds_of (snd nr)) Grammar.rules).

(** The kinds of the nodes of a tree. *)
Fixpoint kinds_in (t : tree) : list string :=
  match t with
  | Tok _ | Aux _ => []
  | Node k cs =>
      k :: (fix all (l : list child) : list string :=
              match l with
              | [] => []
              | c :: l' => (kinds_in (snd c) ++ all l')%list
              end) cs
  end.

Definition known (t : tree) : Prop :=
  forall k, In k (kinds_in t) -> In k all_kinds.

(** The rules that never give their name to a node. *)
Definition nameless_rules : list string :=
  filter (fun n => negb (existsb (String.eqb n) all_kinds))
    (map fst Grammar.rules).

Scheme matches_rect2 := Minimality for Syntax.matches Sort Prop
  with aliased_rect2 := Minimality for Syntax.aliased Sort Prop.

End Shapes.

(** * Properties *)

(** ** The matcher agrees with the language of a regular expression *)

Section RegexFacts.
Import Regex.

Lemma lang_none_inv (s : string) : ~ lang RNone s.
Proof. intros H; inversion H. Qed.

Lemma lang_eps_inv (s : string) : lang REps s -> s = "".
Proof. intros H; inversion H; reflexivity. Qed.

Lemma lang_cat_inv (r1 r2 : regex) (s : string) :
  lang (RCat r1 r2) s ->
  exists s1 s2, s = s1 ++ s2 /\ lang r1 s1 /\ lang r2 s2.
Proof. intros H; inversion H; subst; eauto. Qed.

Lemma lang_alt_inv (r1 r2 : regex) (s : string) :
  lang (RAlt r1 r2) s -> lang r1 s \/ lang r2 s.
Proof. intros H; inversion H; subst; auto. Qed.

Lemma lang_star_inv (r : regex) (c : ascii) (s : string) :
  lang (RStar r) (String c s) ->
  exists s1 s2, s = s1 ++ s2 /\ lang r (String c s1) /\ lang (RStar r) s2.
Proof.
  intros H; inversion H; subst; eauto.
Qed.

Lemma append_empty (s1 s2 : string) : s1 ++ s2 = "" -> s1 = "" /\ s2 = "".
Proof. destruct s1; simpl; [auto | discriminate]. Qed.

Lemma nullable_lang (r : regex) : nullable r = true <-> lang r "".
Proof.
  induction r as [ | | c | | n items | r1 IH1 r2 IH2 | r1 IH1 r2 IH2 | r IH ]; simpl.
  - split; [discriminate | intros H; inversion H].
  - split; [intros _; constructor | reflexivity].
  - split; [discriminate | intros H; inversion H].
  - split; [discriminate | intros H; inversion H].
  - split; [discriminate | intros H; inversion H].
  - rewrite andb_true_iff, IH1, IH2. split.
    + intros [H1 H2]. change "" with ("" ++ "")%string. now constructor.
    + intros H. apply lang_cat_inv in H as (s1 & s2 & E & H1 & H2).
      symmetry in E. apply append_empty in E as [-> ->]. auto.
  - rewrite orb_true_iff, IH1, IH2. split.
    + intros [H | H]; [now apply L_alt_l | now apply L_alt_r].
    + apply lang_alt_inv.
  - split; [intros _; constructor | reflexivity].
Qed.

Lemma lang_cat_smart (a b : regex) (s : string) :
  lang (cat a b) s <-> lang (RCat a b) s.
Proof.
  split.
  - destruct a, b; simpl; intros H;
      try assumption; try (now inversion H);
      change s with ("" ++ s)%string; (constructor; [constructor | assumption]).
  - intros H. apply lang_cat_inv in H as (s1 & s2 & -> & H1 & H2).
    destruct a, b; simpl;
      try (now inversion H1); try (now inversion H2);
      try (apply lang_eps_inv in H1 as ->; simpl; assumption);
      now constructor.
Qed.

Lemma lang_alt_smart (a b : regex) (s : string) :
  lang (alt a b) s <-> lang (RAlt a b) s.
Proof.
  split.
  - destruct a, b; simpl; intros H;
      try assumption; try (now inversion H);
      solve [ now apply L_alt_l | now apply L_alt_r ].
  - intros H. apply lang_alt_inv in H as [H | H];
      destruct a, b; simpl;
      try (now inversion H); try assumption;
      solve [ now apply L_alt_l | now apply L_alt_r ].
Qed.

Lemma deriv_lang (c : ascii) (r : regex) :
  forall s, lang (deriv c r) s <-> lang r (String c s).
Proof.
  induction r as [ | | d | | n items | r1 IH1 r2 IH2 | r1 IH1 r2 IH2 | r IH ];
    intros s; simpl.
  - split; intros H; inversion H.
  - split; intros H; inversion H.
  - destruct (Ascii.eqb_spec c d) as [-> | Hne].
    + split; intros H.
      * apply lang_eps_inv in H as ->. constructor.
      * inversion H; constructor.
    + split; intros H; inversion H; subst; congruence.
  - destruct (is_any c) eqn:E.
    + split; intros H.
      * apply lang_eps_inv in H as ->. now constructor.
      * inversion H; constructor.
    + split; intros H; inversion H; subst; congruence.
  - destruct (in_set n items c) eqn:E.
    + split; intros H.
      * apply lang_eps_inv in H as ->. now constructor.
      * inversion H; constructor.
    + split; intros H; inversion H; subst; congruence.
  - assert (Hcat : lang (cat (deriv c r1) r2) s <->
                   exists s1 s2, s = (s1 ++ s2)%string
                                 /\ lang r1 (String c s1) /\ lang r2 s2).
    { rewrite lang_cat_smart. split.
      - intros H. apply lang_cat_inv in H as (s1 & s2 & -> & H1 & H2).
        apply IH1 in H1. eauto.
      - intros (s1 & s2 & -> & H1 & H2). constructor; [now apply IH1 | assumption]. }
    assert (Hsplit : lang (RCat r1 r2) (String c s) <->
                     (exists s1 s2, s = (s1 ++ s2)%string
                                    /\ lang r1 (String c s1) /\ lang r2 s2)
                     \/ (lang r1 "" /\ lang r2 (String c s))).
    { split.
      - intros H. apply lang_cat_inv in H as (s1 & s2 & E & H1 & H2).
        destruct s1 as [ | a s1]; simpl in E.
        + right. subst s2. auto.
        + injection E as <- ->. left. eauto.
      - intros [(s1 & s2 & -> & H1 & H2) | [H1 H2]].
        + change (String c (s1 ++ s2)) with (String c s1 ++ s2)%string.
          now constructor.
        + change (String c s) with ("" ++ String c s)%string. now constructor. }
    rewrite Hsplit. destruct (nullable r1) eqn:N.
    + rewrite lang_alt_smart. split.
      * intros H. apply lang_alt_inv in H as [H | H].
        -- left. now apply Hcat.
        -- right. split; [now apply nullable_lang | now apply IH2].
      * intros [H | [_ H]].
        -- apply L_alt_l. now apply Hcat.
        -- apply L_alt_r. now apply IH2.
    + rewrite Hcat. split; [auto | ].
      intros [H | [H _]]; [assumption | ].
      apply nullable_lang in H. congruence.
  - rewrite lang_alt_smart. split.
    + intros H. apply lang_alt_inv in H as [H | H];
        [apply L_alt_l; now apply IH1 | apply L_alt_r; now apply IH2].
    + intros H. apply lang_alt_inv in H as [H | H];
        [apply L_alt_l; now apply IH1 | apply L_alt_r; now apply IH2].
  - rewrite lang_cat_smart. split.
    + intros H. apply lang_cat_inv in H as (s1 & s2 & -> & H1 & H2).
      apply IH in H1.
      change (String c (s1 ++ s2)) with (String c s1 ++ s2)%string.
      now constructor.
    + intros H. apply lang_star_inv in H as (s1 & s2 & -> & H1 & H2).
      constructor; [now apply IH | assumption].
Qed.

(** The derivative matcher decides membership in the language. *)
Lemma re_match_lang (s : string) :
  forall r, re_match r s = true <-> lang r s.
Proof.
  induction s as [ | c s IH]; intros r; simpl.
  - apply nullable_lang.
  - rewrite IH. apply deriv_lang.
Qed.

Lemma re_match_none (s : string) : re_match RNone s = false.
Proof. induction s; simpl; auto. Qed.

End RegexFacts.

(** ** The checker is sound *)

Section CheckerFacts.
Import Regex DSL Syntax.

Lemma label_eqb_eq (a b : option string) : label_eqb a b = true -> a = b.
Proof.
  destruct a as [x | ], b as [y | ]; simpl; try discriminate; auto.
  intros H. apply String.eqb_eq in H. now subst.
Qed.

Lemma in_is_nil {A : Type} (l : list (list A)) :
  existsb is_nil l = true -> In [] l.
Proof.
  intros H. apply existsb_exists in H as (x & Hin & Hx).
  destruct x; [assumption | discriminate].
Qed.

Lemma text_of_single (lbl : option string) (s : string) :
  text_of [(lbl, Tok s)] = s.
Proof. reflexivity. Qed.

Lemma token_text_sound (r : rule) (t : string) :
  token_text r t = true ->
  exists cs, matches None r cs /\ text_of cs = t.
Proof.
  induction r; simpl; try discriminate; intros H.
  - apply String.eqb_eq in H as ->.
    exists [(None, Tok s)]. split; [constructor | reflexivity].
  - exists [(None, Aux t)]. split; [now constructor | reflexivity].
  - destruct (IHr H) as (cs & Hm & Ht).
    exists cs. split; [now constructor | assumption].
Qed.

Lemma aliased_content_sound (f : nat) (r : rule) (kids : list child)
  (IH : forall lbl r cs rest,
      In rest (run f lbl r cs) -> exists pre, cs = (pre ++ rest)%list /\ matches lbl r pre) :
  match r with
  | Sym m =>
      match lookup m with
      | Some b => existsb is_nil (run f None b kids) = true
      | None => is_external m = true /\ exists s, kids = [(None, Aux s)]
      end
  | _ => existsb is_nil (run f None r kids) = true
  end ->
  aliased r kids.
Proof.
  assert (Hrun : forall b, existsb is_nil (run f None b kids) = true ->
                           matches None b kids).
  { intros b H. apply in_is_nil, IH in H as (pre & E & Hm).
    rewrite app_nil_r in E. now subst. }
  destruct r; intros H;
    try (apply A_inline; [reflexivity | now apply Hrun]).
  destruct (lookup n) as [b | ] eqn:L.
  - eapply A_rule; [eassumption | now apply Hrun].
  - destruct H as [He (s & ->)]. now apply A_external.
Qed.

Lemma run_sound (fuel : nat) :
  forall lbl r cs rest,
    In rest (run fuel lbl r cs) ->
    exists pre, cs = (pre ++ rest)%list /\ matches lbl r pre.
Proof.
  induction fuel as [ | f IH]; intros lbl r cs rest H; [contradiction | ].
  destruct r; simpl in H.
  - (* Blank *)
    destruct H as [<- | []]. exists []. split; [reflexivity | constructor].
  - (* Str *)
    destruct cs as [ | [l [t | t | k kids]] cs']; try contradiction.
    destruct (label_eqb l lbl) eqn:El; [ | contradiction].
    destruct (String.eqb t s) eqn:Es; [ | contradiction].
    destruct H as [<- | []].
    apply label_eqb_eq in El as ->. apply String.eqb_eq in Es as ->.
    exists [(lbl, Tok s)]. split; [reflexivity | constructor].
  - (* Pat *)
    destruct cs as [ | [l [t | t | k kids]] cs']; try contradiction.
    destruct (label_eqb l lbl) eqn:El; [ | contradiction].
    destruct (re_match r t) eqn:Es; [ | contradiction].
    destruct H as [<- | []].
    apply label_eqb_eq in El as ->.
    exists [(lbl, Aux t)]. split; [reflexivity | now constructor].
  - (* Sym *)
    destruct (lookup n) as [b | ] eqn:L.
    + destruct (is_hidden n) eqn:Hh.
      * apply IH in H as (pre & -> & Hm).
        exists pre. split; [reflexivity | now apply M_hidden with b].
      * destruct cs as [ | [l [t | t | k kids]] cs']; try contradiction.
        destruct (label_eqb l lbl) eqn:El; [ | contradiction].
        destruct (String.eqb k n) eqn:Ek; [ | contradiction].
        destruct (existsb is_nil (run f None b kids)) eqn:Eb; [ | contradiction].
        destruct H as [<- | []].
        apply label_eqb_eq in El as ->. apply String.eqb_eq in Ek as ->.
        apply in_is_nil, IH in Eb as (pre & E & Hm).
        rewrite app_nil_r in E. subst pre.
        exists [(lbl, Node n kids)]. split; [reflexivity | now apply M_visible with b].
    + destruct (is_external n) eqn:Ex; [ | contradiction].
      destruct (is_hidden n) eqn:Hh.
      * destruct cs as [ | [l [t | t | k kids]] cs']; try contradiction.
        destruct (label_eqb l lbl) eqn:El; [ | contradiction].
        destruct H as [<- | []]. apply label_eqb_eq in El as ->.
        exists [(lbl, Aux t)]. split; [reflexivity | now constructor].
      * destruct cs as [ | [l [t | t | k kids]] cs']; try contradiction.
        destruct kids as [ | [[g | ] [t | t | k' kids']] [ | c kids'']]; try contradiction.
        destruct (label_eqb l lbl) eqn:El; [ | contradiction].
        destruct (String.eqb k n) eqn:Ek; [ | contradiction].
        destruct H as [<- | []].
        apply label_eqb_eq in El as ->. apply String.eqb_eq in Ek as ->.
        exists [(lbl, Node n [(None, Aux t)])].
        split; [reflexivity | now constructor].
  - (* Seq *)
    destruct rs as [ | r1 rs].
    + destruct H as [<- | []]. exists []. split; [reflexivity | constructor].
    + apply in_flat_map in H as (mid & H1 & H2).
      apply IH in H1 as (p1 & -> & M1). apply IH in H2 as (p2 & -> & M2).
      exists (p1 ++ p2)%list. split; [now rewrite app_assoc | now constructor].
  - (* Choice *)
    apply in_flat_map in H as (r1 & Hin & H1).
    apply IH in H1 as (pre & -> & M1).
    exists pre. split; [reflexivity | now apply M_choice with r1].
  - (* Repeat *)
    destruct H as [<- | H].
    + exists []. split; [reflexivity | constructor].
    + apply in_flat_map in H as (mid & H1 & H2).
      apply IH in H1 as (p1 & -> & M1). apply IH in H2 as (p2 & -> & M2).
      exists (p1 ++ p2)%list. split; [now rewrite app_assoc | now constructor].
  - (* Repeat1 *)
    apply in_flat_map in H as (mid & H1 & H2).
    apply IH in H1 as (p1 & -> & M1). apply IH in H2 as (p2 & -> & M2).
    exists (p1 ++ p2)%list. split; [now rewrite app_assoc | now constructor].
  - (* Prec *)
    apply IH in H as (pre & -> & Hm).
    exists pre. split; [reflexivity | now constructor].
  - (* Field *)
    apply IH in H as (pre & -> & Hm).
    exists pre. split; [reflexivity | now constructor].
  - (* Alias *)
    destruct named.
    + destruct cs as [ | [l [t | t | k kids]] cs']; try contradiction.
      destruct (label_eqb l lbl) eqn:El; [ | contradiction].
      destruct (String.eqb k n) eqn:Ek; [ | contradiction].
      apply label_eqb_eq in El as ->. apply String.eqb_eq in Ek as ->.
      assert (Ha : aliased r kids /\ rest = cs').
      { destruct r;
          try (destruct (existsb is_nil (run f None _ kids)) eqn:Eb;
               [ | contradiction]; destruct H as [<- | []];
               split; [ | reflexivity];
               apply (aliased_content_sound f); [exact IH | exact Eb]).
        destruct (lookup n0) as [b | ] eqn:L.
        - destruct (existsb is_nil (run f None b kids)) eqn:Eb; [ | contradiction].
          destruct H as [<- | []]. split; [ | reflexivity].
          apply (aliased_content_sound f); [exact IH | ]. now rewrite L.
        - destruct (is_external n0) eqn:Ex; [ | contradiction].
          destruct kids as [ | [[g | ] [t | t | k' kids']] [ | c kids'']]; try contradiction.
          destruct H as [<- | []]. split; [ | reflexivity].
          now apply A_external. }
      destruct Ha as [Ha ->].
      exists [(lbl, Node n kids)]. split; [reflexivity | now constructor].
    + destruct cs as [ | [l [t | t | k kids]] cs']; try contradiction.
      destruct (label_eqb l lbl) eqn:El; [ | contradiction].
      apply label_eqb_eq in El as ->.
      assert (Ha : (exists kids, aliased r kids /\ text_of kids = t) /\ rest = cs').
      { destruct r;
          try (destruct (token_text _ t) eqn:Et; [ | contradiction];
               destruct H as [<- | []]; split; [ | reflexivity];
               apply token_text_sound in Et as (kids & Hm & Ht);
               exists kids; split; [now apply A_inline | assumption]).
        destruct (lookup n0) as [b | ] eqn:L.
        - destruct (token_text b t) eqn:Et; [ | contradiction].
          destruct H as [<- | []]. split; [ | reflexivity].
          apply token_text_sound in Et as (kids & Hm & Ht).
          exists kids. split; [now apply A_rule with b | assumption].
        - destruct (is_external n0) eqn:Ex; [ | contradiction].
          destruct H as [<- | []]. split; [ | reflexivity].
          exists [(None, Aux t)]. split; [now apply A_external | reflexivity]. }
      destruct Ha as [(kids & Ha & <-) ->].
      exists [(lbl, Tok (text_of kids))]. split; [reflexivity | now constructor].
  - (* Token *)
    destruct cs as [ | [l [t | t | k kids]] cs']; try contradiction.
    + destruct (label_eqb l lbl) eqn:El; [ | contradiction].
      destruct (token_string r) as [w | ] eqn:Ew; [ | contradiction].
      destruct (token_text r t) eqn:Et; [ | contradiction].
      destruct H as [<- | []]. apply label_eqb_eq in El as ->.
      apply token_text_sound in Et as (kids & Hm & <-).
      exists [(lbl, token_leaf r (text_of kids))].
      split; [unfold token_leaf; now rewrite Ew | now constructor].
    + destruct (label_eqb l lbl) eqn:El; [ | contradiction].
      destruct (token_string r) as [w | ] eqn:Ew; [contradiction | ].
      destruct (token_text r t) eqn:Et; [ | contradiction].
      destruct H as [<- | []]. apply label_eqb_eq in El as ->.
      apply token_text_sound in Et as (kids & Hm & <-).
      exists [(lbl, token_leaf r (text_of kids))].
      split; [unfold token_leaf; now rewrite Ew | now constructor].
  - (* ImmediateToken *)
    destruct cs as [ | [l [t | t | k kids]] cs']; try contradiction.
    + destruct (label_eqb l lbl) eqn:El; [ | contradiction].
      destruct (token_string r) as [w | ] eqn:Ew; [ | contradiction].
      destruct (token_text r t) eqn:Et; [ | contradiction].
      destruct H as [<- | []]. apply label_eqb_eq in El as ->.
      apply token_text_sound in Et as (kids & Hm & <-).
      exists [(lbl, token_leaf r (text_of kids))].
      split; [unfold token_leaf; now rewrite Ew | now constructor].
    + destruct (label_eqb l lbl) eqn:El; [ | contradiction].
      destruct (token_string r) as [w | ] eqn:Ew; [contradiction | ].
      destruct (token_text r t) eqn:Et; [ | contradiction].
      destruct H as [<- | []]. apply label_eqb_eq in El as ->.
      apply token_text_sound in Et as (kids & Hm & <-).
      exists [(lbl, token_leaf r (text_of kids))].
      split; [unfold token_leaf; now rewrite Ew | now constructor].
Qed.

(** A tree the checker accepts is admitted by the grammar. *)
Lemma check_sound (fuel : nat) (n : string) (t : tree) :
  check fuel n t = true -> derives n t.
Proof.
  unfold check, derives. intros H.
  apply in_is_nil, run_sound in H as (pre & E & Hm).
  rewrite app_nil_r in E. now subst.
Qed.

End CheckerFacts.

(** ** Precedence and associativity *)

Section PrecedenceFacts.
Import Regex DSL Syntax Operators Analysis Examples.
Open Scope Z_scope.

(** On a tie, a complete production is reduced exactly when it is
    left-associative. *)
Lemma resolve_tie (p : production) :
  resolve p (p_prec p) = Reduce <-> p_assoc p = ALeft.
Proof.
  unfold resolve. rewrite Z.ltb_irrefl.
  destruct (p_assoc p); split; intros H; congruence.
Qed.

(** C1. The assignment and compound-assignment productions are annotated
    [prec.left]: [a = b = c] and [a += b += c] group to the left, the outer
    node's left operand is the inner assignment and its right operand is the
    name [c].  Both trees are admitted by the grammar. *)
Theorem assignment_groups_left :
  rule_assoc Grammar.assignment_expression = Some ALeft
  /\ rule_assoc Grammar.compound_assignment_expr = Some ALeft
  /\ parse_expression ["a"; "="; "b"; "="; "c"]
     = Some (assign (assign (name "a") (name "b")) (name "c"))
  /\ parse_expression ["a"; "+="; "b"; "+="; "c"]
     = Some (compound "+=" (compound "+=" (name "a") (name "b")) (name "c"))
  /\ field_child "right" (assign (assign (name "a") (name "b")) (name "c"))
     = Some (name "c")
  /\ derives "_expression" (assign (assign (name "a") (name "b")) (name "c"))
  /\ derives "_expression"
       (compound "+=" (compound "+=" (name "a") (name "b")) (name "c")).
Proof.
  repeat split; try reflexivity;
    apply check_sound with (fuel := 60%nat); vm_compute; reflexivity.
Qed.

(** C2. The precedence table is strictly decreasing in the order call,
    field, try, unary, cast, multiplicative, additive, shift, bitand, bitxor,
    bitor, comparative, and, or, range, assign, closure; every operator rule
    carries the level the order names; two infix operators group to the right
    exactly when the second has the higher precedence; [a + b * c] has the
    product as the right operand of the sum, and [-a?] applies [?] before
    the prefix [-]. *)
Theorem expression_precedence_levels :
  strictly_decreasing (map snd spec_precedence_levels) = true
  /\ forallb (level_ok prec_of_rule) level_rules = true
  /\ forallb (level_ok prec_of_infix) level_operators = true
  /\ forallb (fun o1 => forallb (groups_by_precedence o1) infix_tokens) infix_tokens
     = true
  /\ parse_expression ["a"; "+"; "b"; "*"; "c"]
     = Some (binary "+" (name "a") (binary "*" (name "b") (name "c")))
  /\ field_child "right" (binary "+" (name "a") (binary "*" (name "b") (name "c")))
     = Some (binary "*" (name "b") (name "c"))
  /\ parse_expression ["-"; "a"; "?"] = Some (unary "-" (try (name "a")))
  /\ (PREC.unary < PREC.try /\ PREC.try < PREC.field /\ PREC.field < PREC.call)
  /\ derives "_expression" (binary "+" (name "a") (binary "*" (name "b") (name "c")))
  /\ derives "_expression" (unary "-" (try (name "a"))).
Proof.
  repeat split; try (vm_compute; reflexivity);
    apply check_sound with (fuel := 60%nat); vm_compute; reflexivity.
Qed.

End PrecedenceFacts.

(** ** The conflict list *)

Section ConflictFacts.
Import Regex DSL Syntax Analysis.

(** C6. The declared conflict groups are, in order, the groups of the seven
    ambiguities the specification enumerates, and nothing else: eight groups,
    every member of which is a symbol with a rule of the grammar.  The plain
    parameter-list group is declared against the pattern supertype, which
    [tuple_pattern] is an alternative of. *)
Theorem conflicts_are_the_enumerated_groups :
  conflict_groups = spec_conflicts
  /\ same_groups conflict_groups spec_conflicts = true
  /\ map (@length rule) Grammar.conflicts = map (@length string) conflict_groups
  /\ length Grammar.conflicts = 8%nat
  /\ forallb (fun n => match lookup n with Some _ => true | None => false end)
       (concat conflict_groups) = true
  /\ (forall g, In g conflict_groups <-> exists a, In g (spec_groups a))
  /\ In ($"tuple_pattern") (Operators.alternatives Grammar._pattern).
Proof.
  repeat split; try (vm_compute; reflexivity).
  - intros H. vm_compute in H.
    repeat (destruct H as [<- | H];
            [ first [ now exists TypeVsPattern; vm_compute; auto
                    | now exists UnitTypeVsTuplePattern; vm_compute; auto
                    | now exists ScopedValueVsScopedType; vm_compute; auto
                    | now exists ParametersVsTuplePattern; vm_compute; auto
                    | now exists TypeParametersVsForLifetimes; vm_compute; auto
                    | now exists ArrayExpressionSelf; vm_compute; auto
                    | now exists VisibilityModifier; vm_compute; auto ] | ]).
    contradiction.
  - intros [a H]. destruct a; vm_compute in H |- *; intuition.
  - vm_compute. intuition.
Qed.

End ConflictFacts.

(** ** Line comments *)

Section LexingFacts.
Import Regex DSL Syntax Lexing.
Open Scope Z_scope.

Lemma longest_from_none (s : string) (pos : nat) (best : option nat) :
  longest_from RNone s pos best = best.
Proof. destruct s; reflexivity. Qed.

Lemma longest_from_eps (s : string) (pos : nat) (best : option nat) :
  longest_from REps s pos best = Some pos.
Proof. destruct s; simpl; [reflexivity | apply longest_from_none]. Qed.

Lemma longest_from_some (s : string) :
  forall r pos b, exists n, longest_from r s pos (Some b) = Some n.
Proof.
  induction s as [ | c s IH]; intros r pos b; simpl.
  - destruct (nullable r); eauto.
  - destruct (is_none r).
    + destruct (nullable r); eauto.
    + destruct (nullable r); apply IH.
Qed.

(** The rest-of-line pattern always matches, possibly the empty text. *)
Lemma rest_of_line_matches (s : string) :
  exists n, longest_prefix Grammar.re_rest_of_line s = Some n.
Proof.
  unfold longest_prefix, Grammar.re_rest_of_line.
  destruct s as [ | c s]; simpl; [eauto | apply longest_from_some].
Qed.

Lemma line_comment_tokens_eq :
  line_comment_tokens =
  [ {| t_prec := 2; t_pattern := rstr "//"; t_fields := [] |};
    {| t_prec := 2; t_pattern := rstr "/"; t_fields := ["outer"] |};
    {| t_prec := 2; t_pattern := rstr "!"; t_fields := ["inner"] |};
    {| t_prec := 1; t_pattern := Grammar.re_rest_of_line; t_fields := [] |} ].
Proof. reflexivity. Qed.

Lemma two_slashes_prefix (rest : string) :
  longest_prefix (rstr "//") (String "/" rest)
  = if starts_with "/" rest then Some 2%nat else None.
Proof.
  unfold longest_prefix. destruct rest as [ | c rest]; simpl; [reflexivity | ].
  destruct (Ascii.eqb c "/"); simpl.
  - apply longest_from_eps.
  - apply longest_from_none.
Qed.

Lemma one_char_prefix (c d : ascii) (rest : string) :
  longest_prefix (rstr (String c "")) (String d rest)
  = if Ascii.eqb d c then Some 1%nat else None.
Proof.
  unfold longest_prefix. simpl.
  destruct (Ascii.eqb d c); simpl.
  - apply longest_from_eps.
  - apply longest_from_none.
Qed.

Lemma first_char_mismatch (c d : ascii) (r : regex) (rest : string) :
  Ascii.eqb d c = false ->
  longest_prefix (RCat (RChar c) r) (String d rest) = None.
Proof.
  intros H. unfold longest_prefix. simpl. rewrite H. simpl.
  apply longest_from_none.
Qed.

(** C8. After the opening [//]: a further [/] that is not followed by
    another [/] makes an outer doc comment, two further slashes (four or more
    in all) make a plain comment, and a [!] makes an inner doc comment.  The
    trees of [/// text], [//! text], [//// text] and [// text] are admitted
    with the outer marker, the inner marker, and no marker for the last
    two. *)
Theorem line_comment_classes :
  (forall rest, line_comment_class (String "/" rest)
                = Some (if starts_with "/" rest then Plain else OuterDoc))
  /\ (forall rest, line_comment_class (String "/" (String "/" rest)) = Some Plain)
  /\ (forall rest, line_comment_class (String "!" rest) = Some InnerDoc)
  /\ map line_comment_class ["/ text"; "! text"; "// text"; " text"]
     = [Some OuterDoc; Some InnerDoc; Some Plain; Some Plain]
  /\ derives "line_comment" Examples.outer_doc
  /\ derives "line_comment" Examples.inner_doc
  /\ derives "line_comment" Examples.four_slashes
  /\ derives "line_comment" Examples.plain_comment.
Proof.
  assert (Hslash : forall rest,
             line_comment_class (String "/" rest)
             = Some (if starts_with "/" rest then Plain else OuterDoc)).
  { intros rest. unfold line_comment_class, lex, candidates.
    rewrite line_comment_tokens_eq. cbn [flat_map t_pattern].
    rewrite two_slashes_prefix.
    change (rstr "/") with (rstr (String "/" "")).
    change (rstr "!") with (rstr (String "!" "")).
    rewrite !one_char_prefix.
    destruct (rest_of_line_matches (String "/" rest)) as [n ->].
    destruct (starts_with "/" rest); reflexivity. }
  split; [exact Hslash | split; [ | split; [ | split; [reflexivity | ]]]].
  3: { repeat split;
         apply check_sound with (fuel := 30%nat); vm_compute; reflexivity. }
  - intros rest. rewrite Hslash. reflexivity.
  - intros rest. unfold line_comment_class, lex, candidates.
    rewrite line_comment_tokens_eq. cbn [flat_map t_pattern].
    change (rstr "/") with (rstr (String "/" "")).
    change (rstr "!") with (rstr (String "!" "")).
    rewrite !one_char_prefix.
    change (rstr "//") with (RCat (RChar "/") (rstr "/")).
    rewrite first_char_mismatch by reflexivity.
    destruct (rest_of_line_matches (String "!" rest)) as [n ->].
    reflexivity.
Qed.

End LexingFacts.

(** ** What the children of a node look like *)

Section TreeFacts.
Import Regex DSL Syntax Analysis.

Lemma matches_blank (lbl : option string) (cs : list child) :
  matches lbl Blank cs -> cs = [].
Proof. intros H; inversion H; reflexivity. Qed.

Lemma matches_str (lbl : option string) (s : string) (cs : list child) :
  matches lbl (Str s) cs -> cs = [(lbl, Tok s)].
Proof. intros H; inversion H; reflexivity. Qed.

Lemma matches_pat (lbl : option string) (re : regex) (cs : list child) :
  matches lbl (Pat re) cs -> exists s, cs = [(lbl, Aux s)] /\ re_match re s = true.
Proof. intros H; inversion H; subst; eauto. Qed.

Lemma matches_seq_nil (lbl : option string) (cs : list child) :
  matches lbl (Seq []) cs -> cs = [].
Proof. intros H; inversion H; reflexivity. Qed.

Lemma matches_seq_cons (lbl : option string) (r : rule) (rs : list rule)
  (cs : list child) :
  matches lbl (Seq (r :: rs)) cs ->
  exists c1 c2, cs = (c1 ++ c2)%list /\ matches lbl r c1 /\ matches lbl (Seq rs) c2.
Proof. intros H; inversion H; subst; eauto. Qed.

Lemma matches_choice (lbl : option string) (rs : list rule) (cs : list child) :
  matches lbl (Choice rs) cs -> exists r, In r rs /\ matches lbl r cs.
Proof. intros H; inversion H; subst; eauto. Qed.

Lemma matches_optional (lbl : option string) (r : rule) (cs : list child) :
  matches lbl (optional r) cs -> cs = [] \/ matches lbl r cs.
Proof.
  intros H. unfold optional in H.
  apply matches_choice in H as (r' & [<- | [<- | []]] & H).
  - now right.
  - left. now apply matches_blank in H.
Qed.

Lemma matches_prec (lbl : option string) (a : assoc) (n : Z) (r : rule)
  (cs : list child) :
  matches lbl (Prec a n r) cs -> matches lbl r cs.
Proof. intros H; inversion H; assumption. Qed.

Lemma matches_field (lbl : option string) (n : string) (r : rule) (cs : list child) :
  matches lbl (Field n r) cs -> matches (Some n) r cs.
Proof. intros H; inversion H; assumption. Qed.

Lemma matches_hidden (lbl : option string) (n : string) (r : rule) (cs : list child) :
  lookup n = Some r -> is_hidden n = true ->
  matches lbl (Sym n) cs -> matches lbl r cs.
Proof. intros L Hh H; inversion H; subst; congruence. Qed.

Lemma matches_visible (lbl : option string) (n : string) (r : rule) (cs : list child) :
  lookup n = Some r -> is_hidden n = false ->
  matches lbl (Sym n) cs ->
  exists kids, cs = [(lbl, Node n kids)] /\ matches None r kids.
Proof.
  intros L Hh H; inversion H; subst; try congruence.
  assert (r0 = r) by congruence. subst. eauto.
Qed.

(** The children of a node admitted by a visible rule match the rule's body. *)
Lemma derives_node (n : string) (r : rule) (k : string) (kids : list child) :
  lookup n = Some r -> is_hidden n = false ->
  derives n (Node k kids) -> k = n /\ matches None r kids.
Proof.
  intros L Hh H. apply (matches_visible _ _ r) in H as (kids' & E & Hm); auto.
  injection E as -> ->. auto.
Qed.

(** Every piece a repetition is made of satisfies what each round does. *)
Lemma matches_repeat_forall (P : child -> Prop) (lbl : option string) (r : rule) :
  (forall c, matches lbl r c -> Forall P c) ->
  forall cs, matches lbl (Repeat r) cs -> Forall P cs.
Proof.
  intros Hr cs H. remember (Repeat r) as rr eqn:E.
  induction H; try discriminate; injection E as ->.
  - constructor.
  - apply Forall_app. split; auto.
Qed.

Lemma heads_choice (f : nat) (rs : list rule) :
  forall ks,
    fold_right (fun r1 acc =>
                  match heads f r1, acc with
                  | Some ks1, Some ks' => Some (ks1 ++ ks')%list
                  | _, _ => None
                  end) (Some []) rs = Some ks ->
    forall r, In r rs -> exists ks1, heads f r = Some ks1 /\ incl ks1 ks.
Proof.
  induction rs as [ | r1 rs IH]; intros ks H r Hin; [contradiction | ].
  simpl in H. destruct (heads f r1) as [ks1 | ] eqn:E1; [ | discriminate].
  destruct (fold_right _ _ rs) as [ks' | ] eqn:E2; [ | discriminate].
  injection H as <-. destruct Hin as [<- | Hin].
  - exists ks1. split; [assumption | apply incl_appl, incl_refl].
  - destruct (IH ks' eq_refl r Hin) as (ks2 & H2 & Hi).
    exists ks2. split; [assumption | now apply incl_appr].
Qed.

(** [heads] is sound: the rule yields one named node of a listed kind. *)
Lemma heads_sound (fuel : nat) :
  forall r ks lbl cs,
    heads fuel r = Some ks -> matches lbl r cs ->
    exists k kids, cs = [(lbl, Node k kids)] /\ In k ks.
Proof.
  induction fuel as [ | f IH]; intros r ks lbl cs Hh Hm; [discriminate | ].
  destruct r; simpl in Hh; try discriminate.
  - destruct (lookup n) as [b | ] eqn:L.
    + destruct (is_hidden n) eqn:Hid.
      * apply (matches_hidden _ _ b) in Hm; eauto.
      * injection Hh as <-.
        apply (matches_visible _ _ b) in Hm as (kids & -> & _); auto.
        exists n, kids. split; [reflexivity | now left].
    + destruct (is_external n) eqn:Ex; [ | discriminate].
      destruct (is_hidden n) eqn:Hid; [discriminate | ].
      injection Hh as <-. inversion Hm; subst; try congruence.
      exists n, [(None, Aux s)]. split; [reflexivity | now left].
  - apply matches_choice in Hm as (r & Hin & Hm).
    destruct (heads_choice f rs ks Hh r Hin) as (ks1 & H1 & Hi).
    destruct (IH r ks1 lbl cs H1 Hm) as (k & kids & -> & Hk).
    exists k, kids. split; [reflexivity | now apply Hi].
  - apply matches_prec in Hm. eauto.
  - destruct named; [ | discriminate]. injection Hh as <-.
    inversion Hm; subst. exists n, cs0. split; [reflexivity | now left].
Qed.

(** A statement is one node, of one of the statement kinds. *)
Lemma statement_node (lbl : option string) (cs : list child) :
  matches lbl (Sym "_statement") cs ->
  exists k kids, cs = [(lbl, Node k kids)] /\ In k statement_kinds.
Proof. apply (heads_sound 5). reflexivity. Qed.

(** An expression is one node, of one of the expression kinds. *)
Lemma expression_node (lbl : option string) (cs : list child) :
  matches lbl (Sym "_expression") cs ->
  exists k kids, cs = [(lbl, Node k kids)] /\ In k expression_kinds.
Proof. apply (heads_sound 10). reflexivity. Qed.

(** The children of the root: an optional shebang, then statements. *)
Lemma source_file_shape (cs : list child) :
  Syntax.valid (Node "source_file" cs) ->
  exists sheb stmts,
    cs = (sheb ++ stmts)%list
    /\ (sheb = [] \/ exists c, sheb = [c] /\ is_shebang c)
    /\ Forall is_statement stmts.
Proof.
  intros H. apply (derives_node _ Grammar.source_file) in H as [_ H];
    [ | reflexivity | reflexivity].
  apply matches_seq_cons in H as (sheb & rest & -> & H1 & H2).
  apply matches_seq_cons in H2 as (stmts & nil & -> & H2 & H3).
  apply matches_seq_nil in H3 as ->. rewrite app_nil_r.
  exists sheb, stmts. split; [reflexivity | split].
  - apply matches_optional in H1 as [-> | H1]; [now left | right].
    apply (matches_visible _ _ Grammar.shebang) in H1 as (kids & -> & Hk);
      [ | reflexivity | reflexivity].
    apply matches_pat in Hk as (s & -> & Hs).
    eexists. split; [reflexivity | ]. now exists s.
  - revert H2. apply matches_repeat_forall. intros c Hc.
    apply statement_node in Hc as (k & kids & -> & Hk).
    constructor; [ | constructor]. now exists k, kids.
Qed.

End TreeFacts.

(** ** The root node *)

Section RootFacts.
Import Regex DSL Syntax Analysis Examples.

Lemma lang_rstr (t : string) : forall s, lang (rstr t) s -> s = t.
Proof.
  induction t as [ | c t IH]; intros s H; simpl in H.
  - now apply lang_eps_inv.
  - apply lang_cat_inv in H as (s1 & s2 & -> & H1 & H2).
    inversion H1; subst. simpl. f_equal. now apply IH.
Qed.

Lemma lang_set_inv (n : bool) (items : list class_item) (s : string) :
  lang (RSet n items) s -> exists c, s = String c "" /\ in_set n items c = true.
Proof. intros H; inversion H; subst; eauto. Qed.

(** The text of a shebang token starts with [#!], and the character after
    that is not an opening bracket. *)
Lemma shebang_text (s : string) :
  re_match Grammar.re_shebang s = true ->
  exists a rest, s = String "#" (String "!" (String a rest)) /\ a <> "["%char.
Proof.
  intros H. apply re_match_lang in H. unfold Grammar.re_shebang in H.
  apply lang_cat_inv in H as (s1 & s2 & -> & H1 & H2).
  apply lang_rstr in H1 as ->.
  apply lang_cat_inv in H2 as (w & s3 & -> & Hw & H3).
  apply lang_cat_inv in H3 as (x & y & -> & Hx & _).
  apply lang_set_inv in Hx as (a & -> & Ha).
  assert (Hnb : a <> "["%char) by (intros ->; discriminate Ha).
  destruct w as [ | b w].
  - exists a, y. split; [reflexivity | assumption].
  - apply lang_star_inv in Hw as (w1 & w2 & -> & Hb & _).
    apply lang_set_inv in Hb as (b' & E & Hb). injection E as <- _.
    exists b, ((w1 ++ w2) ++ String a y)%string. split; [reflexivity | ].
    intros ->. discriminate Hb.
Qed.

Lemma bracket_is_not_shebang (s : string) :
  re_match Grammar.re_shebang (String "#" (String "!" (String "[" s))) = false.
Proof. simpl. apply re_match_none. Qed.

(** C3, as the code has it.  The children of the root are an optional
    shebang followed by statements; a statement is an expression statement or
    any alternative of the declaration statements, and [let_declaration] is
    one of those, so a [let] declaration is admitted as a direct child of the
    root. *)
Theorem top_level_statements (cs : list child)
  (H : Syntax.valid (Node "source_file" cs)) :
  (exists sheb stmts,
      cs = (sheb ++ stmts)%list
      /\ (sheb = [] \/ exists c, sheb = [c] /\ is_shebang c)
      /\ Forall is_statement stmts)
  /\ statement_kinds
     = "expression_statement"
       :: symbol_names (Operators.alternatives Grammar._declaration_statement)
  /\ In "let_declaration" statement_kinds.
Proof.
  split; [now apply source_file_shape | split; [reflexivity | ]].
  vm_compute. tauto.
Qed.

Lemma top_level_statements_witness :
  Syntax.valid script
  /\ ((exists sheb stmts,
         [anon shebang_line; anon no_std; anon let_x] = (sheb ++ stmts)%list
         /\ (sheb = [] \/ exists c, sheb = [c] /\ is_shebang c)
         /\ Forall is_statement stmts)
      /\ statement_kinds
         = "expression_statement"
           :: symbol_names (Operators.alternatives Grammar._declaration_statement)
      /\ In "let_declaration" statement_kinds).
Proof.
  split.
  - apply check_sound with (fuel := 60%nat). vm_compute. reflexivity.
  - apply (top_level_statements [anon shebang_line; anon no_std; anon let_x]).
    apply check_sound with (fuel := 60%nat). vm_compute. reflexivity.
Defined.

(** C3, as stated, fails: the file [let x = 1;] is admitted by the grammar
    with the [let_declaration] as the only child of the root. *)
Lemma top_level_let_is_admitted :
  Syntax.valid file_with_let
  /\ file_with_let = Node "source_file" [(None, let_x)]
  /\ kind_of let_x = Some "let_declaration"
  /\ leaves file_with_let = ["let"; "x"; "="; "1"; ";"]
  /\ ~ no_top_level_let.
Proof.
  assert (Hv : Syntax.valid file_with_let)
    by (apply check_sound with (fuel := 60%nat); vm_compute; reflexivity).
  repeat split; try assumption.
  intros Hno. apply (Hno _ Hv (None, let_x)); [now left | reflexivity].
Qed.

(** C9. In a source file only the first child can be a shebang, so there is
    at most one; its text starts with [#!] and the next character is not an
    opening bracket.  No rule but [source_file] refers to [shebang], text that
    starts with [#![] never matches the shebang pattern, and [#![no_std]] is
    admitted as an inner attribute. *)
Theorem shebang_only_first (cs : list child)
  (H : Syntax.valid (Node "source_file" cs)) :
  (forall i c, nth_error cs i = Some c -> kind_of (snd c) = Some "shebang" ->
               i = 0%nat
               /\ exists a rest,
                   snd c = Node "shebang"
                             [(None, Aux (String "#" (String "!" (String a rest))))]
                   /\ a <> "["%char)
  /\ users "shebang" = ["source_file"]
  /\ (forall s, re_match Grammar.re_shebang (String "#" (String "!" (String "[" s)))
                = false)
  /\ derives "inner_attribute_item" no_std
  /\ leaves no_std = ["#"; "!"; "["; "no_std"; "]"].
Proof.
  split; [ | repeat split; try reflexivity].
  - intros i c Hn Hk.
    apply source_file_shape in H as (sheb & stmts & -> & Hs & Hst).
    assert (Hstmt : forall c', In c' stmts -> kind_of (snd c') <> Some "shebang").
    { intros c' Hin. rewrite Forall_forall in Hst.
      destruct (Hst c' Hin) as (k & kids & -> & Hin'). simpl.
      intros E. injection E as ->. vm_compute in Hin'. intuition discriminate. }
    destruct Hs as [-> | (c0 & -> & s & -> & Hre)].
    + simpl in Hn. apply nth_error_In in Hn. now apply Hstmt in Hn.
    + destruct i as [ | i]; simpl in Hn.
      * injection Hn as <-. split; [reflexivity | ].
        apply shebang_text in Hre as (a & rest & -> & Ha).
        exists a, rest. split; [reflexivity | assumption].
      * apply nth_error_In in Hn. now apply Hstmt in Hn.
  - apply bracket_is_not_shebang.
  - apply check_sound with (fuel := 60%nat). vm_compute. reflexivity.
Qed.

Lemma shebang_only_first_witness :
  Syntax.valid script
  /\ (forall i c,
         nth_error [anon shebang_line; anon no_std; anon let_x] i = Some c ->
         kind_of (snd c) = Some "shebang" ->
         i = 0%nat
         /\ exists a rest,
             snd c = Node "shebang"
                       [(None, Aux (String "#" (String "!" (String a rest))))]
             /\ a <> "["%char).
Proof.
  split.
  - apply check_sound with (fuel := 60%nat). vm_compute. reflexivity.
  - apply (shebang_only_first [anon shebang_line; anon no_std; anon let_x]).
    apply check_sound with (fuel := 60%nat). vm_compute. reflexivity.
Defined.

End RootFacts.

(** ** Parenthesized, tuple and unit expressions *)

Section ParenFacts.
Import Regex DSL Syntax Analysis Examples.

Lemma parenthesized_shape (cs : list child) :
  derives "parenthesized_expression" (Node "parenthesized_expression" cs) ->
  exists k kids,
    cs = [tok "("; (None, Node k kids); tok ")"] /\ In k expression_kinds.
Proof.
  intros H.
  apply (derives_node _ Grammar.parenthesized_expression) in H as [_ H];
    [ | reflexivity | reflexivity].
  unfold Grammar.parenthesized_expression, seq in H.
  apply matches_seq_cons in H as (c1 & r1 & -> & H1 & H).
  apply matches_seq_cons in H as (c2 & r2 & -> & H2 & H).
  apply matches_seq_cons in H as (c3 & r3 & -> & H3 & H).
  apply matches_seq_nil in H as ->.
  apply matches_str in H1 as ->. apply matches_str in H3 as ->.
  apply expression_node in H2 as (k & kids & -> & Hk).
  exists k, kids. split; [reflexivity | assumption].
Qed.

Lemma tuple_shape (cs : list child) :
  derives "tuple_expression" (Node "tuple_expression" cs) ->
  exists attrs k kids more,
    cs = (tok "(" :: attrs ++ (None, Node k kids) :: tok "," :: more ++ [tok ")"])%list
    /\ Forall (fun c => exists a, c = (None, Node "attribute_item" a)) attrs
    /\ In k expression_kinds.
Proof.
  intros H.
  apply (derives_node _ Grammar.tuple_expression) in H as [_ H];
    [ | reflexivity | reflexivity].
  unfold Grammar.tuple_expression, seq, repeat in H.
  apply matches_seq_cons in H as (c1 & r1 & -> & H1 & H).
  apply matches_seq_cons in H as (attrs & r2 & -> & H2 & H).
  apply matches_seq_cons in H as (c3 & r3 & -> & H3 & H).
  apply matches_seq_cons in H as (c4 & r4 & -> & H4 & H).
  apply matches_seq_cons in H as (c5 & r5 & -> & H5 & H).
  apply matches_seq_cons in H as (c6 & r6 & -> & H6 & H).
  apply matches_seq_nil in H as ->.
  apply matches_str in H1 as ->. apply matches_str in H6 as ->.
  apply matches_seq_cons in H3 as (e & r7 & -> & He & H3).
  apply matches_seq_cons in H3 as (c & r8 & -> & Hc & H3).
  apply matches_seq_nil in H3 as ->. apply matches_str in Hc as ->.
  apply expression_node in He as (k & kids & -> & Hk).
  exists attrs, k, kids, (c4 ++ c5)%list. split; [ | split; [ | assumption]].
  - simpl. unfold tok. now rewrite <- app_assoc.
  - revert H2. apply matches_repeat_forall. intros c Hc.
    apply (matches_visible _ _ Grammar.attribute_item) in Hc as (a & -> & _);
      [ | reflexivity | reflexivity].
    constructor; [now exists a | constructor].
Qed.

Lemma unit_shape (cs : list child) :
  derives "unit_expression" (Node "unit_expression" cs) ->
  cs = [tok "("; tok ")"].
Proof.
  intros H.
  apply (derives_node _ Grammar.unit_expression) in H as [_ H];
    [ | reflexivity | reflexivity].
  unfold Grammar.unit_expression, seq in H.
  apply matches_seq_cons in H as (c1 & r1 & -> & H1 & H).
  apply matches_seq_cons in H as (c2 & r2 & -> & H2 & H).
  apply matches_seq_nil in H as ->.
  apply matches_str in H1 as ->. now apply matches_str in H2 as ->.
Qed.

(** C10. A parenthesized expression has exactly the children [(], one
    expression node and [)]; a tuple expression has, after [(] and
    attributes, a first expression followed by a comma, so it has at least
    four children and is never of the form [( e )]; a unit expression is
    [(] [)].  The trees of [(e)], [(e,)] and [()] are admitted as
    expressions of these three kinds. *)
Theorem parenthesized_tuple_unit (cs : list child) :
  (derives "parenthesized_expression" (Node "parenthesized_expression" cs) ->
   (exists k kids,
       cs = [tok "("; (None, Node k kids); tok ")"] /\ In k expression_kinds)
   /\ ~ In (tok ",") cs
   /\ ~ derives "tuple_expression" (Node "tuple_expression" cs))
  /\ (derives "tuple_expression" (Node "tuple_expression" cs) ->
      (exists attrs k kids more,
          cs = (tok "(" :: attrs ++ (None, Node k kids) :: tok "," :: more
                  ++ [tok ")"])%list
          /\ Forall (fun c => exists a, c = (None, Node "attribute_item" a)) attrs
          /\ In k expression_kinds)
      /\ In (tok ",") cs
      /\ (4 <= length cs)%nat)
  /\ (derives "unit_expression" (Node "unit_expression" cs) ->
      cs = [tok "("; tok ")"])
  /\ (derives "_expression" paren_e
      /\ leaves paren_e = ["("; "e"; ")"])
  /\ (derives "_expression" tuple_e
      /\ leaves tuple_e = ["("; "e"; ","; ")"])
  /\ (derives "_expression" unit
      /\ leaves unit = ["("; ")"]).
Proof.
  assert (Htuple : forall l,
             derives "tuple_expression" (Node "tuple_expression" l) ->
             In (tok ",") l /\ (4 <= length l)%nat).
  { intros l Hl. apply tuple_shape in Hl as (attrs & k & kids & more & -> & _ & _).
    split.
    - right. apply in_or_app. right. right. now left.
    - simpl. rewrite !length_app. simpl. rewrite length_app. simpl. lia. }
  split; [ | split; [ | split; [exact (unit_shape cs) | ]]].
  - intros H. pose proof (parenthesized_shape cs H) as (k & kids & -> & Hk).
    split; [now exists k, kids | split].
    + unfold tok. simpl. intros [E | [E | [E | []]]]; discriminate E.
    + intros Ht. apply Htuple in Ht as [_ Hlen]. simpl in Hlen. lia.
  - intros H. split; [now apply tuple_shape | now apply Htuple].
  - repeat split; try reflexivity;
      apply check_sound with (fuel := 60%nat); vm_compute; reflexivity.
Qed.

Lemma parenthesized_tuple_unit_witness :
  (derives "parenthesized_expression" paren_e
   /\ ~ derives "tuple_expression"
          (Node "tuple_expression" [tok "("; anon (name "e"); tok ")"]))
  /\ (derives "tuple_expression" tuple_e
      /\ In (tok ",") [tok "("; anon (name "e"); tok ","; tok ")"])
  /\ (derives "unit_expression" unit
      /\ [tok "("; tok ")"] = [tok "("; tok ")"]).
Proof.
  assert (Hp : derives "parenthesized_expression" paren_e)
    by (apply check_sound with (fuel := 60%nat); vm_compute; reflexivity).
  assert (Ht : derives "tuple_expression" tuple_e)
    by (apply check_sound with (fuel := 60%nat); vm_compute; reflexivity).
  assert (Hu : derives "unit_expression" unit)
    by (apply check_sound with (fuel := 60%nat); vm_compute; reflexivity).
  split; [ | split].
  - split; [exact Hp | ].
    apply (proj1 (parenthesized_tuple_unit [tok "("; anon (name "e"); tok ")"]) Hp).
  - split; [exact Ht | ].
    apply (proj1 (proj2 (parenthesized_tuple_unit
                           [tok "("; anon (name "e"); tok ","; tok ")"])) Ht).
  - split; [exact Hu | ].
    apply (proj1 (proj2 (proj2 (parenthesized_tuple_unit [tok "("; tok ")"]))) Hu).
Defined.

End ParenFacts.

(** ** Macro patterns *)

Section MacroFacts.
Import Regex DSL Syntax Analysis Examples.








End MacroFacts.

(** * Further properties of the grammar *)

(** ** Separated lists *)

Section SeparatedFacts.
Import Regex DSL Syntax Shapes.


Lemma repeat_pieces (lbl : option string) (sep item : rule) (cs : list child) :
  matches lbl (Repeat (Seq [sep; item])) cs <->
  exists pieces, Forall (piece_ok lbl sep item) pieces /\ cs = separated pieces.
Proof.
  split.
  - intros H. remember (Repeat (Seq [sep; item])) as rr eqn:E.
    induction H; try discriminate; injection E as ->.
    + exists []. split; [constructor | reflexivity].
    + destruct (IHmatches2 eq_refl) as (pieces & Hp & ->).
      apply matches_seq_cons in H as (s1 & r1 & -> & Hs & H).
      apply matches_seq_cons in H as (i1 & r2 & -> & Hi & H).
      apply matches_seq_nil in H as ->. rewrite app_nil_r.
      exists ((s1, i1) :: pieces). split; [ | reflexivity].
      constructor; [split; assumption | assumption].
  - intros (pieces & Hp & ->).
    induction Hp as [ | [s1 i1] pieces [Hs Hi] _ IH]; [constructor | ].
    simpl. apply M_repeat_cons; [ | exact IH].
    apply M_seq_cons; [exact Hs | ].
    rewrite <- (app_nil_r i1). apply M_seq_cons; [exact Hi | constructor].
Qed.

Lemma sepBy_shape' (lbl : option string) (sep item : rule) (cs : list child) :
  (matches lbl (sepBy1 sep item) cs <->
   exists first pieces,
     matches lbl item first
     /\ Forall (piece_ok lbl sep item) pieces
     /\ cs = (first ++ separated pieces)%list)
  /\ (matches lbl (sepBy sep item) cs <->
      cs = [] \/ matches lbl (sepBy1 sep item) cs).
Proof.
  split.
  - unfold sepBy1, seq, repeat. split.
    + intros H.
      apply matches_seq_cons in H as (first & r1 & -> & Hf & H).
      apply matches_seq_cons in H as (rest & r2 & -> & Hr & H).
      apply matches_seq_nil in H as ->. rewrite app_nil_r.
      apply repeat_pieces in Hr as (pieces & Hp & ->).
      now exists first, pieces.
    + intros (first & pieces & Hf & Hp & ->).
      apply M_seq_cons; [exact Hf | ].
      rewrite <- (app_nil_r (separated pieces)).
      apply M_seq_cons; [ | constructor].
      apply repeat_pieces. now exists pieces.
  - unfold sepBy. split.
    + apply matches_optional.
    + intros [-> | H].
      * apply M_choice with Blank; [right; now left | constructor].
      * apply M_choice with (sepBy1 sep item); [now left | exact H].
Qed.

End SeparatedFacts.

(** ** Source files compose *)

Section FileFacts.
Import Regex DSL Syntax Analysis Examples Shapes.


Lemma shebang_is_not_statement (c : child) :
  is_statement c -> kind_of (snd c) <> Some "shebang".
Proof.
  intros (k & kids & -> & Hk). simpl. intros E. injection E as ->.
  vm_compute in Hk. intuition discriminate.
Qed.



End FileFacts.

(** ** Supertypes *)

Section SupertypeFacts.
Import Regex DSL Syntax Analysis Examples Shapes.

Lemma one_node_of (fuel : nat) (r : rule) (ks : list string)
  (lbl : option string) (cs : list child) :
  heads fuel r = Some ks -> matches lbl r cs ->
  exists k kids, cs = [(lbl, Node k kids)].
Proof.
  intros Hh Hm. destruct (heads_sound fuel r ks lbl cs Hh Hm) as (k & kids & E & _).
  now exists k, kids.
Qed.

(** X3. Whatever a supertype matches is exactly one named node, with one
    exception: the pattern supertype also admits the anonymous token [_]. *)
Theorem supertypes_wrap_one_node (s : string) (lbl : option string)
  (cs : list child)
  (Hs : In s (symbol_names Grammar.supertypes))
  (Hm : matches lbl (Sym s) cs) :
  ((exists k kids, cs = [(lbl, Node k kids)])
   \/ (s = "_pattern" /\ cs = [(lbl, Tok "_")]))
  /\ matches lbl (Sym "_pattern") [(lbl, Tok "_")].
Proof.
  split.
  - vm_compute in Hs.
    destruct Hs as [<- | [<- | [<- | [<- | [<- | [<- | []]]]]]];
      try (left; refine (one_node_of 10 _ _ _ _ _ Hm); vm_compute; reflexivity).
    apply (matches_hidden _ _ Grammar._pattern) in Hm; [ | reflexivity | reflexivity].
    unfold Grammar._pattern, choice in Hm.
    apply matches_choice in Hm as (r & Hin & Hm).
    simpl in Hin.
    repeat (destruct Hin as [<- | Hin];
            [ first [ left; refine (one_node_of 10 _ _ _ _ _ Hm);
                      vm_compute; reflexivity
                    | right; apply matches_str in Hm; auto ] | ]).
    contradiction.
  - apply M_hidden with Grammar._pattern; [reflexivity | reflexivity | ].
    apply M_choice with (Str "_"); [ | constructor].
    unfold Grammar._pattern, choice. simpl. tauto.
Qed.

Lemma supertypes_wrap_one_node_witness :
  ((exists k kids, [anon (name "e")] = [anon (Node k kids)])
   \/ ("_expression" = "_pattern" /\ [anon (name "e")] = [tok "_"]))
  /\ matches None (Sym "_pattern") [tok "_"].
Proof.
  apply (supertypes_wrap_one_node "_expression" None [anon (name "e")]).
  - vm_compute. tauto.
  - apply check_sound with (fuel := 60%nat). vm_compute. reflexivity.
Defined.

End SupertypeFacts.

(** ** Token trees and macro definitions *)

Section TokenTreeFacts.
Import Regex DSL Syntax Analysis Examples Shapes.

Lemma bracketed_shape (inner : rule) (cs : list child) :
  matches None
    (Choice [Seq [Str "("; Repeat inner; Str ")"];
             Seq [Str "["; Repeat inner; Str "]"];
             Seq [Str "{"; Repeat inner; Str "}"]]) cs
  <-> bracketed inner cs.
Proof.
  split.
  - intros H. apply matches_choice in H as (r & Hin & H).
    destruct Hin as [<- | [<- | [<- | []]]];
      apply matches_seq_cons in H as (c1 & r1 & -> & H1 & H);
      apply matches_seq_cons in H as (body & r2 & -> & H2 & H);
      apply matches_seq_cons in H as (c3 & r3 & -> & H3 & H);
      apply matches_seq_nil in H as ->;
      apply matches_str in H1 as ->; apply matches_str in H3 as ->;
      [ exists "(", ")", body | exists "[", "]", body | exists "{", "}", body ];
      (split; [unfold delimiters; simpl; tauto | split; [assumption | reflexivity]]).
  - intros (o & c & body & Hin & Hb & ->).
    assert (Hseq : matches None (Seq [Str o; Repeat inner; Str c])
                     ((None, Tok o) :: body ++ [(None, Tok c)])).
    { apply (M_seq_cons None _ _ [(None, Tok o)]); [constructor | ].
      apply M_seq_cons; [exact Hb | ].
      apply (M_seq_cons None _ _ [(None, Tok c)] []); constructor. }
    destruct Hin as [E | [E | [E | []]]]; injection E as <- <-.
    + eapply M_choice; [left; reflexivity | exact Hseq].
    + eapply M_choice; [right; left; reflexivity | exact Hseq].
    + eapply M_choice; [right; right; left; reflexivity | exact Hseq].
Qed.

(** X4. A token tree, a token tree pattern and the token tree of a macro
    invocation are each exactly an opening delimiter, any number of tokens of
    their own kind, and the closing delimiter of the same pair: the
    delimiters of a token tree node always match. *)
Theorem token_trees_are_bracketed (cs : list child) :
  (matches None Grammar.token_tree cs <-> bracketed ($"_tokens") cs)
  /\ (matches None Grammar.token_tree_pattern cs
      <-> bracketed ($"_token_pattern") cs)
  /\ (matches None Grammar.delim_token_tree cs
      <-> bracketed ($"_delim_tokens") cs).
Proof. repeat split; apply bracketed_shape. Qed.

Lemma in_vocab_union_l (a b : vocab) (t : tree) :
  in_vocab a t -> in_vocab (vocab_union a b) t.
Proof. destruct t; simpl; intros H; try contradiction; apply in_or_app; now left. Qed.

Lemma in_vocab_union_r (a b : vocab) (t : tree) :
  in_vocab b t -> in_vocab (vocab_union a b) t.
Proof. destruct t; simpl; intros H; try contradiction; apply in_or_app; now right. Qed.

Lemma vocab_all_member (f : rule -> option vocab) (rs : list rule) :
  forall v, vocab_all f rs = Some v ->
  forall r, In r rs ->
  exists v1, f r = Some v1 /\ forall t, in_vocab v1 t -> in_vocab v t.
Proof.
  induction rs as [ | r1 rs IH]; intros v H r Hin; [contradiction | ].
  simpl in H. destruct (f r1) as [a | ] eqn:E1; [ | discriminate].
  destruct (vocab_all f rs) as [b | ] eqn:E2; [ | discriminate].
  injection H as <-. destruct Hin as [<- | Hin].
  - exists a. split; [assumption | intros t; apply in_vocab_union_l].
  - destruct (IH b eq_refl r Hin) as (v1 & H1 & Hi).
    exists v1. split; [assumption | ].
    intros t Ht. apply in_vocab_union_r. now apply Hi.
Qed.

Lemma matches_repeat1 (lbl : option string) (r : rule) (cs : list child) :
  matches lbl (Repeat1 r) cs ->
  exists c1 c2, cs = (c1 ++ c2)%list /\ matches lbl r c1 /\ matches lbl (Repeat r) c2.
Proof. intros H; inversion H; subst; eauto. Qed.

(** [vocabulary] is sound: every direct child is in the vocabulary. *)
Lemma vocabulary_sound (fuel : nat) :
  forall r v lbl cs,
    vocabulary fuel r = Some v -> matches lbl r cs ->
    Forall (fun c => in_vocab v (snd c)) cs.
Proof.
  induction fuel as [ | f IH]; intros r v lbl cs Hv Hm; [discriminate | ].
  destruct r; simpl in Hv; try discriminate.
  - injection Hv as <-. apply matches_blank in Hm as ->. constructor.
  - injection Hv as <-. apply matches_str in Hm as ->.
    constructor; [simpl; now left | constructor].
  - destruct (lookup n) as [b | ] eqn:L.
    + destruct (is_hidden n) eqn:Hid.
      * apply (matches_hidden _ _ b) in Hm; eauto.
      * injection Hv as <-.
        apply (matches_visible _ _ b) in Hm as (kids & -> & _); auto.
        constructor; [simpl; now left | constructor].
    + destruct (is_external n) eqn:Ex; [ | discriminate].
      destruct (is_hidden n) eqn:Hid; [discriminate | ].
      injection Hv as <-. inversion Hm; subst; try congruence.
      constructor; [simpl; now left | constructor].
  - revert v cs Hv Hm. induction rs as [ | r1 rs IHrs]; intros v cs Hv Hm.
    + apply matches_seq_nil in Hm as ->. constructor.
    + apply matches_seq_cons in Hm as (c1 & c2 & -> & H1 & H2).
      simpl in Hv. destruct (vocabulary f r1) as [a | ] eqn:E1; [ | discriminate].
      destruct (vocab_all (vocabulary f) rs) as [b | ] eqn:E2; [ | discriminate].
      injection Hv as <-. apply Forall_app. split.
      * eapply Forall_impl; [ | exact (IH r1 a lbl c1 E1 H1)].
        intros c. apply in_vocab_union_l.
      * eapply Forall_impl; [ | exact (IHrs b c2 eq_refl H2)].
        intros c. apply in_vocab_union_r.
  - apply matches_choice in Hm as (r & Hin & Hm).
    destruct (vocab_all_member _ rs v Hv r Hin) as (v1 & H1 & Hi).
    eapply Forall_impl; [ | exact (IH r v1 lbl cs H1 Hm)].
    intros c. apply Hi.
  - revert Hm. apply matches_repeat_forall. intros c Hc. eauto.
  - apply matches_repeat1 in Hm as (c1 & c2 & -> & H1 & H2).
    apply Forall_app. split; [eauto | ].
    revert H2. apply matches_repeat_forall. intros c Hc. eauto.
  - apply matches_prec in Hm. eauto.
  - apply matches_field in Hm. eauto.
  - destruct named; [ | discriminate]. injection Hv as <-.
    inversion Hm; subst. constructor; [simpl; now left | constructor].
Qed.

(** X5. In the body of a macro rule, pattern or template, a [$] never stands
    alone among the tokens: it only occurs inside a repetition or a
    metavariable.  In the token tree of a macro invocation a lone [$] is a
    token like any other. *)
Theorem dollar_never_alone_in_macro_rules (cs : list child) :
  (matches None (Repeat ($"_tokens")) cs -> ~ In (None, Tok "$") cs)
  /\ (matches None (Repeat ($"_token_pattern")) cs -> ~ In (None, Tok "$") cs)
  /\ matches None (Repeat ($"_delim_tokens")) [(None, Tok "$")]
  /\ derives "token_tree" (Node "token_tree" [tok "("; tok "+"; tok ")"]).
Proof.
  assert (Hgen : forall n v,
             vocabulary 10 (Sym n) = Some v -> ~ In "$" (snd v) ->
             matches None (Repeat (Sym n)) cs -> ~ In (None, Tok "$") cs).
  { intros n v Hv Hno Hm Hin.
    assert (Hall : Forall (fun c => in_vocab v (snd c)) cs).
    { revert Hm. apply matches_repeat_forall. intros c Hc.
      exact (vocabulary_sound 10 _ v None c Hv Hc). }
    rewrite Forall_forall in Hall. apply Hall in Hin. simpl in Hin. contradiction. }
  split; [ | split; [ | split]].
  - eapply Hgen; [vm_compute; reflexivity | ].
    vm_compute. intuition discriminate.
  - eapply Hgen; [vm_compute; reflexivity | ].
    vm_compute. intuition discriminate.
  - apply (M_repeat_cons None _ [tok "$"] []); [ | constructor].
    apply M_hidden with Grammar._delim_tokens; [reflexivity | reflexivity | ].
    apply M_choice with ($"_non_delim_token"); [now left | ].
    apply M_hidden with Grammar._non_delim_token; [reflexivity | reflexivity | ].
    apply M_choice with (Str "$"); [right; now left | constructor].
  - apply check_sound with (fuel := 60%nat). vm_compute. reflexivity.
Qed.

Lemma dollar_never_alone_in_macro_rules_witness :
  ~ In (None, Tok "$") [tok "+"; anon (Node "metavariable" [aux "$x"])]
  /\ ~ In (None, Tok "$") [anon binding_x_expr].
Proof.
  split.
  - apply (proj1 (dollar_never_alone_in_macro_rules
                    [tok "+"; anon (Node "metavariable" [aux "$x"])])).
    change [tok "+"; anon (Node "metavariable" [aux "$x"])]
      with ([tok "+"] ++ [anon (Node "metavariable" [aux "$x"])] ++ [])%list.
    apply M_repeat_cons; [ | apply M_repeat_cons; [ | constructor]].
    + assert (H : In [] (run 20 None ($"_tokens") [tok "+"]))
        by (vm_compute; tauto).
      apply run_sound in H as (pre & E & Hm). rewrite app_nil_r in E. now subst.
    + assert (H : In [] (run 20 None ($"_tokens")
                           [anon (Node "metavariable" [aux "$x"])]))
        by (vm_compute; tauto).
      apply run_sound in H as (pre & E & Hm). rewrite app_nil_r in E. now subst.
  - apply (proj1 (proj2 (dollar_never_alone_in_macro_rules [anon binding_x_expr]))).
    change [anon binding_x_expr] with ([anon binding_x_expr] ++ [])%list.
    apply M_repeat_cons; [ | constructor].
    apply check_sound with (fuel := 60%nat). vm_compute. reflexivity.
Defined.

End TokenTreeFacts.

Section MacroDefinitionFacts.
Import Regex DSL Syntax Analysis Examples Shapes.

Lemma macro_name_node (nmc : list child) :
  matches (Some "name") (Choice [$"name"; $"_reserved_keyword"]) nmc ->
  exists kids, nmc = [(Some "name", Node "name" kids)].
Proof.
  intros H.
  assert (Hh : heads 5 (Choice [$"name"; $"_reserved_keyword"])
               = Some ["name"; "name"]) by reflexivity.
  destruct (heads_sound 5 _ _ _ _ Hh H) as (k & kids & -> & Hk).
  destruct Hk as [<- | [<- | []]]; now exists kids.
Qed.

(** X6. A macro definition is [macro_rules!], a name, an opening delimiter,
    its rules, and the closing that belongs to the delimiter: [)] or [\]]
    must be followed by [;], a closing brace stands alone.  The name is
    always a [name] node, also when it is one of the reserved words. *)
Theorem macro_definition_shape (cs : list child) :
  (matches None Grammar.macro_definition cs <->
   exists nmc o closing body,
     In (o, closing) macro_closings
     /\ matches (Some "name") (Choice [$"name"; $"_reserved_keyword"]) nmc
     /\ matches None macro_rules_body body
     /\ cs = (tok "macro_rules!" :: nmc ++ tok o :: body ++ map tok closing)%list)
  /\ (forall nmc,
         matches (Some "name") (Choice [$"name"; $"_reserved_keyword"]) nmc ->
         exists kids, nmc = [(Some "name", Node "name" kids)]).
Proof.
  split; [ | exact macro_name_node].
  unfold Grammar.macro_definition, seq, choice, field, repeat, optional.
  cbv zeta. fold macro_rules_body. split.
  - intros H.
    apply matches_seq_cons in H as (c1 & r1 & -> & H1 & H).
    apply matches_seq_cons in H as (nmc & r2 & -> & H2 & H).
    apply matches_seq_cons in H as (c3 & r3 & -> & H3 & H).
    apply matches_seq_nil in H as ->.
    apply matches_str in H1 as ->. apply matches_field in H2.
    apply matches_choice in H3 as (r & Hin & H3).
    destruct Hin as [<- | [<- | [<- | []]]];
      apply matches_seq_cons in H3 as (o1 & q1 & -> & Ho & H3);
      apply matches_seq_cons in H3 as (body & q2 & -> & Hb & H3);
      apply matches_seq_cons in H3 as (e1 & q3 & -> & He & H3);
      apply matches_str in Ho as ->; apply matches_str in He as ->.
    + apply matches_seq_cons in H3 as (e2 & q4 & -> & He2 & H3).
      apply matches_seq_nil in H3 as ->. apply matches_str in He2 as ->.
      exists nmc, "(", [")"; ";"], body.
      split; [unfold macro_closings; simpl; tauto | ].
      split; [assumption | split; [assumption | ]].
      simpl. now rewrite app_nil_r.
    + apply matches_seq_cons in H3 as (e2 & q4 & -> & He2 & H3).
      apply matches_seq_nil in H3 as ->. apply matches_str in He2 as ->.
      exists nmc, "[", ["]"; ";"], body.
      split; [unfold macro_closings; simpl; tauto | ].
      split; [assumption | split; [assumption | ]].
      simpl. now rewrite app_nil_r.
    + apply matches_seq_nil in H3 as ->.
      exists nmc, "{", ["}"], body.
      split; [unfold macro_closings; simpl; tauto | ].
      split; [assumption | split; [assumption | ]].
      simpl. now rewrite app_nil_r.
  - intros (nmc & o & closing & body & Hin & Hn & Hb & ->).
    apply (M_seq_cons None _ _ [tok "macro_rules!"]); [constructor | ].
    apply M_seq_cons; [now constructor | ].
    rewrite <- (app_nil_r (tok o :: body ++ map tok closing)).
    apply M_seq_cons; [ | constructor].
    destruct Hin as [E | [E | [E | []]]]; injection E as <- <-.
    + eapply M_choice; [left; reflexivity | ].
      apply (M_seq_cons None _ _ [tok "("]); [constructor | ].
      apply M_seq_cons; [exact Hb | ].
      apply (M_seq_cons None _ _ [tok ")"]); [constructor | ].
      apply (M_seq_cons None _ _ [tok ";"] []); constructor.
    + eapply M_choice; [right; left; reflexivity | ].
      apply (M_seq_cons None _ _ [tok "["]); [constructor | ].
      apply M_seq_cons; [exact Hb | ].
      apply (M_seq_cons None _ _ [tok "]"]); [constructor | ].
      apply (M_seq_cons None _ _ [tok ";"] []); constructor.
    + eapply M_choice; [right; right; left; reflexivity | ].
      apply (M_seq_cons None _ _ [tok "{"]); [constructor | ].
      apply M_seq_cons; [exact Hb | ].
      apply (M_seq_cons None _ _ [tok "}"] []); constructor.
Qed.

End MacroDefinitionFacts.

(** ** Patterns of the lexical rules *)

Section PatternFacts.
Import Regex DSL Syntax Lexing Analysis Examples Shapes.

Lemma one_char_set (n : bool) (items : list class_item) :
  one_char (RSet n items) (in_set n items).
Proof.
  intros s. split.
  - apply lang_set_inv.
  - intros (c & -> & H). now constructor.
Qed.

Lemma one_char_any : one_char RAny is_any.
Proof.
  intros s. split.
  - intros H; inversion H; subst; eauto.
  - intros (c & -> & H). now constructor.
Qed.

Lemma lang_star_chars (r : regex) (p : ascii -> bool) (Hr : one_char r p) :
  forall s, lang (RStar r) s <-> all_chars p s = true.
Proof.
  intros s. split.
  - induction s as [ | c s IH]; intros H; [reflexivity | ].
    apply lang_star_inv in H as (s1 & s2 & -> & H1 & H2).
    apply Hr in H1 as (c' & E & Hc). injection E as <- ->.
    simpl. rewrite Hc. now apply IH.
  - induction s as [ | c s IH]; intros H; [constructor | ].
    simpl in H. apply andb_true_iff in H as [Hc Hs].
    change (String c s) with (String c "" ++ s)%string.
    constructor; [ | now apply IH].
    apply Hr. now exists c.
Qed.

Lemma lang_plus_chars (r : regex) (p : ascii -> bool) (Hr : one_char r p) :
  forall s, lang (rplus r) s <->
            exists c t, s = String c t /\ p c = true /\ all_chars p t = true.
Proof.
  intros s. unfold rplus. split.
  - intros H. apply lang_cat_inv in H as (s1 & s2 & -> & H1 & H2).
    apply Hr in H1 as (c & -> & Hc).
    apply (lang_star_chars r p Hr) in H2. now exists c, s2.
  - intros (c & t & -> & Hc & Ht).
    change (String c t) with (String c "" ++ t)%string.
    constructor; [apply Hr; now exists c | now apply (lang_star_chars r p Hr)].
Qed.

Lemma not_bracket (a : ascii) :
  in_set true [CChar "["] a = true <-> a <> "["%char.
Proof.
  unfold in_set. simpl. destruct (Ascii.eqb_spec a "["); simpl; split;
    intros H; congruence.
Qed.

Lemma lang_rstr_refl (t : string) : lang (rstr t) t.
Proof.
  induction t as [ | c t IH]; simpl; [constructor | ].
  change (String c t) with (String c "" ++ t)%string.
  constructor; [constructor | exact IH].
Qed.

Lemma length_append_ge (w x : string) :
  (String.length x <= String.length (w ++ x))%nat.
Proof. induction w as [ | c w IH]; simpl; lia. Qed.

(** X7. On ASCII text, where a byte is a character, the pattern of a
    shebang matches exactly [#!], then white space, then a character other
    than an opening bracket, then one or more characters up to the end of
    the line.  The character that must differ from the bracket may itself be
    white space, so white space between [#!] and a bracket makes the line a
    shebang again; and a shebang has at least two characters after [#!]. *)
Theorem shebang_language (s : string) (Hs : ascii_only s = true) :
  (re_match Grammar.re_shebang s = true <->
   exists w a t,
     s = ("#!" ++ w ++ String a t)%string
     /\ all_chars (in_set false [CSpace]) w = true
     /\ a <> "["%char
     /\ t <> ""
     /\ all_chars is_any t = true)
  /\ (forall t, ascii_only t = true -> t <> "" -> all_chars is_any t = true ->
                re_match Grammar.re_shebang ("#! [" ++ t) = true)
  /\ (re_match Grammar.re_shebang s = true -> (4 <= String.length s)%nat).
Proof.
  clear Hs.
  assert (Hiff : forall s0,
             re_match Grammar.re_shebang s0 = true <->
             exists w a t,
               s0 = ("#!" ++ w ++ String a t)%string
               /\ all_chars (in_set false [CSpace]) w = true
               /\ a <> "["%char
               /\ t <> ""
               /\ all_chars is_any t = true).
  { intros s0. rewrite re_match_lang. unfold Grammar.re_shebang. split.
    - intros H.
      apply lang_cat_inv in H as (s1 & s2 & -> & H1 & H2).
      apply lang_rstr in H1 as ->.
      apply lang_cat_inv in H2 as (w & s3 & -> & Hw & H3).
      apply lang_cat_inv in H3 as (x & t & -> & Hx & Ht).
      apply lang_set_inv in Hx as (a & -> & Ha).
      apply (lang_star_chars _ _ (one_char_set false [CSpace])) in Hw.
      apply (lang_plus_chars _ _ one_char_any) in Ht as (c & t' & -> & Hc & Ht).
      exists w, a, (String c t').
      split; [reflexivity | split; [assumption | split; [now apply not_bracket | ]]].
      split; [discriminate | simpl; now rewrite Hc].
    - intros (w & a & t & -> & Hw & Ha & Hne & Ht).
      constructor; [apply lang_rstr_refl | ].
      constructor; [now apply (lang_star_chars _ _ (one_char_set false [CSpace])) | ].
      change (String a t) with (String a "" ++ t)%string.
      constructor; [constructor; now apply not_bracket | ].
      apply (lang_plus_chars _ _ one_char_any).
      destruct t as [ | c t']; [congruence | ].
      simpl in Ht. apply andb_true_iff in Ht as [Hc Ht']. now exists c, t'. }
  split; [apply Hiff | split].
  - intros t _ Hne Ht. apply Hiff.
    exists "", " "%char, (String "[" t).
    split; [reflexivity | split; [reflexivity | split; [discriminate | ]]].
    split; [discriminate | exact Ht].
  - intros H. apply Hiff in H as (w & a & t & -> & _ & _ & Hne & _).
    destruct t as [ | c t]; [congruence | ].
    pose proof (length_append_ge w (String a (String c t))) as Hl.
    simpl in Hl |- *. lia.
Qed.

(** X8. A decimal number starts with a digit and goes on with digits and
    underscores, so it never starts with an underscore; the digits after a
    [0x], [0b] or [0o] prefix are any non-empty run of the digits of the
    base and underscores, a run of underscores alone included. *)
Theorem digit_patterns (s : string) :
  (re_match Grammar.re_decimal s = true <->
   exists d t,
     s = String d t
     /\ in_set false [CRange "0" "9"] d = true
     /\ all_chars (in_set false [CRange "0" "9"; CChar "_"]) t = true)
  /\ (re_match Grammar.re_hex s = true <->
      s <> "" /\ all_chars (in_set false (Grammar.hex_digit ++ [CChar "_"])) s = true)
  /\ (re_match Grammar.re_binary s = true <->
      s <> "" /\ all_chars (in_set false [CChar "0"; CChar "1"; CChar "_"]) s = true)
  /\ (re_match Grammar.re_octal s = true <->
      s <> "" /\ all_chars (in_set false [CRange "0" "7"; CChar "_"]) s = true)
  /\ re_match Grammar.re_decimal (String "_" s) = false
  /\ (all_chars (Ascii.eqb "_") s = true -> s <> "" ->
      re_match Grammar.re_hex s = true
      /\ re_match Grammar.re_binary s = true
      /\ re_match Grammar.re_octal s = true).
Proof.
  assert (Hplus : forall items s0,
             re_match (rplus (RSet false items)) s0 = true <->
             s0 <> "" /\ all_chars (in_set false items) s0 = true).
  { intros items s0. rewrite re_match_lang.
    rewrite (lang_plus_chars _ _ (one_char_set false items)). split.
    - intros (c & t & -> & Hc & Ht). split; [discriminate | ].
      cbn [all_chars]. now rewrite Hc.
    - intros [Hne H]. destruct s0 as [ | c t]; [congruence | ].
      cbn [all_chars] in H. apply andb_true_iff in H as [Hc Ht]. now exists c, t. }
  assert (Hunder : forall items,
             existsb (in_item "_") items = true ->
             all_chars (Ascii.eqb "_") s = true ->
             all_chars (in_set false items) s = true).
  { intros items Hi. induction s as [ | c t IH]; [reflexivity | ].
    cbn [all_chars]. intros H. apply andb_true_iff in H as [Hc Ht].
    apply Ascii.eqb_eq in Hc as <-. rewrite IH by assumption.
    unfold in_set. now rewrite Hi. }
  split; [ | split; [apply Hplus | split; [apply Hplus | split; [apply Hplus | ]]]].
  - rewrite re_match_lang. unfold Grammar.re_decimal. split.
    + intros H. apply lang_cat_inv in H as (s1 & s2 & -> & H1 & H2).
      apply lang_set_inv in H1 as (d & -> & Hd).
      apply (lang_star_chars _ _ (one_char_set false _)) in H2.
      now exists d, s2.
    + intros (d & t & -> & Hd & Ht).
      change (String d t) with (String d "" ++ t)%string.
      constructor; [now constructor | ].
      now apply (lang_star_chars _ _ (one_char_set false _)).
  - split.
    + simpl. apply re_match_none.
    + intros Hs Hne. repeat split; apply Hplus; (split; [assumption | ]);
        apply Hunder; auto.
Qed.

Lemma digit_patterns_witness :
  re_match Grammar.re_hex "__" = true
  /\ re_match Grammar.re_binary "__" = true
  /\ re_match Grammar.re_octal "__" = true.
Proof.
  apply (proj2 (proj2 (proj2 (proj2 (proj2 (digit_patterns "__")))))).
  - reflexivity.
  - discriminate.
Defined.

Lemma shebang_language_witness :
  re_match Grammar.re_shebang "#! [no_std]" = true
  /\ (4 <= String.length "#!/bin/sh")%nat.
Proof.
  split.
  - apply (proj1 (proj2 (shebang_language "" eq_refl)) "no_std]").
    + reflexivity.
    + discriminate.
    + reflexivity.
  - apply (proj2 (proj2 (shebang_language "#!/bin/sh" eq_refl))). reflexivity.
Defined.

(** X9. A line comment whose text after [//] starts with neither [/] nor
    [!], the empty text included, is a plain comment; with the three cases
    of a leading [/] or [!] every line comment gets a class. *)
Theorem line_comment_plain_by_default (rest : string)
  (Hs : starts_with "/" rest = false) (Hb : starts_with "!" rest = false) :
  line_comment_class rest = Some Plain.
Proof.
  unfold line_comment_class, lex, candidates.
  rewrite line_comment_tokens_eq. cbn [flat_map t_pattern].
  destruct (rest_of_line_matches rest) as [n Hn].
  destruct rest as [ | c rest].
  - vm_compute. reflexivity.
  - simpl in Hs, Hb.
    change (rstr "//") with (RCat (RChar "/") (rstr "/")).
    change (rstr "/") with (RCat (RChar "/") REps).
    change (rstr "!") with (RCat (RChar "!") REps).
    rewrite !first_char_mismatch by assumption.
    rewrite Hn. reflexivity.
Qed.

Lemma line_comment_plain_by_default_witness :
  line_comment_class " text" = Some Plain /\ line_comment_class "" = Some Plain.
Proof.
  split.
  - apply (line_comment_plain_by_default " text"); reflexivity.
  - apply (line_comment_plain_by_default ""); reflexivity.
Defined.

End PatternFacts.

(** ** Resolution of operator expressions *)

Section OperatorTrees.
Import Regex DSL Syntax Operators Analysis Examples Shapes.
Open Scope Z_scope.

Lemma find_distinct (l : list (string * rule)) :
  distinct (map fst l) = true ->
  forall k b, In (k, b) l ->
  find (fun p => String.eqb (fst p) k) l = Some (k, b).
Proof.
  induction l as [ | [k0 b0] l IH]; intros Hd k b Hin; [contradiction | ].
  simpl in Hd. apply andb_true_iff in Hd as [Hn Hd].
  simpl. destruct Hin as [E | Hin].
  - injection E as -> ->. now rewrite String.eqb_refl.
  - destruct (String.eqb_spec k0 k) as [-> | Hne]; [ | now apply IH].
    exfalso. apply negb_true_iff in Hn.
    assert (Hex : existsb (String.eqb k) (map fst l) = true).
    { apply existsb_exists. exists k. split; [ | apply String.eqb_refl].
      apply in_map_iff. now exists (k, b). }
    congruence.
Qed.

(** No two rules of the table have the same name. *)
Lemma rule_names_distinct : distinct (map fst Grammar.rules) = true.
Proof. vm_compute. reflexivity. Qed.

Lemma lookup_in (k : string) (b : rule) :
  In (k, b) Grammar.rules -> lookup k = Some b.
Proof.
  intros H. unfold lookup.
  now rewrite (find_distinct _ rule_names_distinct k b H).
Qed.

Lemma find_op_some (ps : list production) (t : string) (p : production) :
  find_op ps t = Some p -> In p ps /\ In t (p_tokens p).
Proof.
  unfold find_op. intros H. apply find_some in H as [Hin Hex].
  split; [assumption | ].
  apply existsb_exists in Hex as (x & Hx & E).
  apply String.eqb_eq in E. now subst.
Qed.

Lemma literals_match (lbl : option string) (r : rule) (op : string) :
  In op (literals r) -> matches lbl r [(lbl, Tok op)].
Proof.
  unfold literals. intros H. apply in_flat_map in H as (r1 & Hin & Hop).
  assert (E : r1 = Str op).
  { destruct r1; simpl in Hop; try contradiction.
    destruct Hop as [-> | []]. reflexivity. }
  subst r1. destruct r; simpl in Hin;
    try (destruct Hin as [E | []]; try discriminate E;
         injection E as ->; constructor).
  apply M_choice with (Str op); [assumption | constructor].
Qed.

Lemma operator_matches (o : rule) (f : option string) (toks : list string)
  (op : string) :
  operator_of o = (f, toks) -> In op toks -> matches None o [(f, Tok op)].
Proof.
  intros E Hin. destruct o; simpl in E; injection E as <- <-;
    try (now apply literals_match).
  constructor. now apply literals_match.
Qed.

Lemma is_expression_eq (r : rule) :
  is_expression r = true -> r = $"_expression".
Proof.
  destruct r; simpl; try discriminate.
  intros H. apply String.eqb_eq in H. now subst.
Qed.

Lemma is_operand_eq (side : string) (r : rule) :
  is_operand side r = true -> r = Field side ($"_expression").
Proof.
  destruct r; simpl; try discriminate.
  intros H. apply andb_true_iff in H as [Hn He].
  apply String.eqb_eq in Hn. apply is_expression_eq in He. now subst.
Qed.

(** The children an infix, prefix or postfix production is built with are
    admitted by the alternative the production was read from. *)
Lemma infix_alternative (kind : string) (r : rule) (p : production)
  (op : string) (l e : tree) :
  In p (infix_of kind r) -> In op (p_tokens p) -> expr l -> expr e ->
  p_kind p = kind
  /\ matches None r [(Some "left", l); (p_opfield p, Tok op); (Some "right", e)].
Proof.
  intros Hp Hop Hl He. unfold infix_of in Hp.
  destruct r as [ | | | | | | | | a n r0 | | | | ]; try contradiction.
  destruct r0 as [ | | | | rs | | | | | | | | ]; try contradiction.
  destruct rs as [ | x [ | o [ | y [ | z rs]]]]; try contradiction.
  destruct (is_operand "left" x) eqn:Ex; [ | contradiction].
  destruct (is_operand "right" y) eqn:Ey; [ | contradiction].
  simpl in Hp. destruct (operator_of o) as [f toks] eqn:Eo.
  destruct Hp as [<- | []]. simpl in *.
  apply is_operand_eq in Ex as ->. apply is_operand_eq in Ey as ->.
  split; [reflexivity | ]. constructor.
  apply (M_seq_cons None _ _ [(Some "left", l)]); [constructor; apply Hl | ].
  apply (M_seq_cons None _ _ [(f, Tok op)]); [now apply (operator_matches o f toks) | ].
  apply (M_seq_cons None _ _ [(Some "right", e)] []); [ | constructor].
  constructor. apply He.
Qed.

Lemma prefix_alternative (kind : string) (r : rule) (p : production)
  (op : string) (e : tree) :
  In p (prefix_of kind r) -> In op (p_tokens p) -> expr e ->
  p_kind p = kind
  /\ matches None r [(p_opfield p, Tok op); (None, e)].
Proof.
  intros Hp Hop He. unfold prefix_of in Hp.
  destruct r as [ | | | | | | | | a n r0 | | | | ]; try contradiction.
  destruct r0 as [ | | | | rs | | | | | | | | ]; try contradiction.
  destruct rs as [ | o [ | y [ | z rs]]]; try contradiction.
  destruct (is_expression y) eqn:Ey; [ | contradiction].
  destruct (operator_of o) as [f toks] eqn:Eo.
  destruct Hp as [<- | []]. simpl in *.
  apply is_expression_eq in Ey as ->.
  split; [reflexivity | ]. constructor.
  apply (M_seq_cons None _ _ [(f, Tok op)]); [now apply (operator_matches o f toks) | ].
  apply (M_seq_cons None _ _ [(None, e)] []); [apply He | constructor].
Qed.

Lemma postfix_alternative (kind : string) (r : rule) (p : production)
  (op : string) (e : tree) :
  In p (postfix_of kind r) -> In op (p_tokens p) -> expr e ->
  p_kind p = kind
  /\ matches None r [(None, e); (p_opfield p, Tok op)].
Proof.
  intros Hp Hop He. unfold postfix_of in Hp.
  destruct r as [ | | | | | | | | a n r0 | | | | ]; try contradiction.
  destruct r0 as [ | | | | rs | | | | | | | | ]; try contradiction.
  destruct rs as [ | y [ | o [ | z rs]]]; try contradiction.
  destruct (is_expression y) eqn:Ey; [ | contradiction].
  destruct (operator_of o) as [f toks] eqn:Eo.
  destruct Hp as [<- | []]. simpl in *.
  apply is_expression_eq in Ey as ->.
  split; [reflexivity | ]. constructor.
  apply (M_seq_cons None _ _ [(None, e)]); [apply He | ].
  apply (M_seq_cons None _ _ [(f, Tok op)] []);
    [now apply (operator_matches o f toks) | constructor].
Qed.

Lemma alternative_matches (lbl : option string) (body r : rule)
  (cs : list child) :
  In r (alternatives body) -> matches lbl r cs -> matches lbl body cs.
Proof.
  intros Hin Hm. destruct body; simpl in Hin;
    try (destruct Hin as [<- | []]; exact Hm).
  now apply M_choice with r.
Qed.

(** A node of a kind that the expression rule lists is an expression. *)
Lemma expression_of_kind (kind : string) (body : rule) (cs : list child) :
  is_expression_kind kind = true -> lookup kind = Some body ->
  matches None body cs -> expr (Node kind cs).
Proof.
  intros Hk L Hm lbl. unfold is_expression_kind in Hk.
  apply andb_true_iff in Hk as [Hv Hex]. apply negb_true_iff in Hv.
  apply existsb_exists in Hex as (r & Hin & Hr).
  destruct r; simpl in Hr; try discriminate.
  apply String.eqb_eq in Hr. subst n.
  apply M_hidden with Grammar._expression; [reflexivity | reflexivity | ].
  apply M_choice with ($"_expression_except_range"); [now left | ].
  apply M_hidden with Grammar._expression_except_range;
    [reflexivity | reflexivity | ].
  apply (alternative_matches _ _ ($kind)); [exact Hin | ].
  now apply M_visible with body.
Qed.

Lemma production_source (shape : string -> rule -> list production)
  (p : production) :
  In p (productions shape) ->
  exists kind body r,
    lookup kind = Some body /\ In r (alternatives body) /\ In p (shape kind r).
Proof.
  unfold productions. intros H.
  apply in_flat_map in H as ([kind body] & Hin & H).
  apply in_flat_map in H as (r & Hr & H).
  exists kind, body, r. split; [now apply lookup_in | split; assumption].
Qed.

Lemma operator_kinds_are_expressions :
  forallb (fun p => is_expression_kind (p_kind p))
    (infix_productions ++ prefix_productions ++ postfix_productions) = true.
Proof. vm_compute. reflexivity. Qed.

Lemma production_kind_ok (p : production) :
  In p infix_productions \/ In p prefix_productions \/ In p postfix_productions ->
  is_expression_kind (p_kind p) = true.
Proof.
  intros H. pose proof operator_kinds_are_expressions as Hall.
  rewrite forallb_forall in Hall. apply Hall.
  rewrite !in_app_iff. tauto.
Qed.

Lemma expr_build (f : frame) (e : tree) :
  frame_ok f -> expr e -> expr (build f e).
Proof.
  destruct f as [l op p | op p]; cbn [frame_ok build].
  - intros (Hp & Hop & Hl) He.
    pose proof (production_kind_ok p (or_introl Hp)) as Hk.
    apply production_source in Hp as (kind & body & r & L & Hr & Hp).
    destruct (infix_alternative kind r p op l e Hp Hop Hl He) as [Ek Hm].
    rewrite Ek in *. apply (expression_of_kind kind body); auto.
    now apply (alternative_matches _ _ r).
  - intros (Hp & Hop) He.
    pose proof (production_kind_ok p (or_intror (or_introl Hp))) as Hk.
    apply production_source in Hp as (kind & body & r & L & Hr & Hp).
    destruct (prefix_alternative kind r p op e Hp Hop He) as [Ek Hm].
    rewrite Ek in *. apply (expression_of_kind kind body); auto.
    now apply (alternative_matches _ _ r).
Qed.

Lemma expr_build_postfix (p : production) (e : tree) (op : string) :
  In p postfix_productions -> In op (p_tokens p) -> expr e ->
  expr (build_postfix p e op).
Proof.
  intros Hp Hop He. unfold build_postfix.
  pose proof (production_kind_ok p (or_intror (or_intror Hp))) as Hk.
  apply production_source in Hp as (kind & body & r & L & Hr & Hp).
  destruct (postfix_alternative kind r p op e Hp Hop He) as [Ek Hm].
  rewrite Ek in *. apply (expression_of_kind kind body); auto.
  now apply (alternative_matches _ _ r).
Qed.

Lemma expr_operand (a : string) :
  re_match Grammar.re_identifier a = true -> expr (operand a).
Proof.
  intros Ha lbl.
  apply M_hidden with Grammar._expression; [reflexivity | reflexivity | ].
  apply M_choice with ($"_expression_except_range"); [now left | ].
  apply M_hidden with Grammar._expression_except_range;
    [reflexivity | reflexivity | ].
  apply M_choice with (prec_left0 ($"name")).
  { unfold Grammar._expression_except_range, choice. simpl. tauto. }
  constructor. apply M_visible with Grammar.name; [reflexivity | reflexivity | ].
  apply (M_seq_cons None _ _ []).
  { apply M_choice with Blank; [right; now left | constructor]. }
  apply (M_seq_cons None _ _ [(None, Node "identifier" [(None, Aux a)])] []);
    [ | constructor].
  apply M_visible with Grammar.identifier; [reflexivity | reflexivity | ].
  now constructor.
Qed.

Lemma unwind_ok (next : Z) (st : list frame) :
  forall e st' e',
    unwind st e next = Some (st', e') ->
    Forall frame_ok st -> expr e ->
    Forall frame_ok st' /\ expr e'.
Proof.
  induction st as [ | f st IH]; intros e st' e' H Hst He; cbn [unwind] in H.
  - injection H as <- <-. auto.
  - destruct (resolve (frame_production f) next).
    + injection H as <- <-. auto.
    + inversion Hst; subst. apply (IH _ _ _ H); [assumption | ].
      now apply expr_build.
    + discriminate.
Qed.

Lemma finish_ok (st : list frame) :
  forall e, Forall frame_ok st -> expr e -> expr (finish st e).
Proof.
  induction st as [ | f st IH]; intros e Hst He; cbn [finish]; [assumption | ].
  inversion Hst; subst. apply IH; [assumption | now apply expr_build].
Qed.

Lemma drive_ok (ts : list string) :
  forall st cur t,
    drive st cur ts = Some t ->
    Forall frame_ok st ->
    (forall e, cur = Some e -> expr e) ->
    expr t.
Proof.
  induction ts as [ | a ts IH]; intros st cur t H Hst Hc; cbn [drive] in H.
  - destruct cur as [e | ]; [ | discriminate].
    injection H as <-. apply finish_ok; auto.
  - destruct cur as [e | ].
    + destruct (find_op postfix_productions a) as [p | ] eqn:Fp.
      * destruct (unwind st e (p_prec p)) as [[st' e'] | ] eqn:U; [ | discriminate].
        apply find_op_some in Fp as [Hp Hop].
        destruct (unwind_ok _ _ _ _ _ U Hst (Hc e eq_refl)) as [Hst' He'].
        apply (IH _ _ _ H Hst'). intros e0 E. injection E as <-.
        now apply expr_build_postfix.
      * destruct (find_op infix_productions a) as [p | ] eqn:Fi; [ | discriminate].
        destruct (unwind st e (p_prec p)) as [[st' e'] | ] eqn:U; [ | discriminate].
        apply find_op_some in Fi as [Hp Hop].
        destruct (unwind_ok _ _ _ _ _ U Hst (Hc e eq_refl)) as [Hst' He'].
        apply (IH _ _ _ H); [ | intros e0 E; discriminate E].
        constructor; [ | assumption]. cbn [frame_ok]. auto.
    + destruct (find_op prefix_productions a) as [p | ] eqn:Fp.
      * apply find_op_some in Fp as [Hp Hop].
        apply (IH _ _ _ H); [ | intros e0 E; discriminate E].
        constructor; [ | assumption]. cbn [frame_ok]. auto.
      * destruct (is_word a) eqn:Ea; [ | discriminate].
        apply (IH _ _ _ H Hst). intros e0 E. injection E as <-.
        apply expr_operand. unfold is_word in Ea.
        now apply andb_true_iff in Ea as [Ea _].
Qed.

(** The trees that the resolution builds are trees of the grammar: each
    node it makes is an alternative of the rule it is named after, and that
    rule is an alternative of the expression rule. *)
Lemma parse_expression_admitted (ts : list string) (t : tree) :
  parse_expression ts = Some t -> derives "_expression" t.
Proof.
  intros H. apply (drive_ok ts [] None t H); [constructor | ].
  intros e E. discriminate E.
Qed.

End OperatorTrees.

Section OperatorResolution.
Import Regex DSL Syntax Operators Analysis Examples Shapes.
Open Scope Z_scope.

Lemma left_associative (p : production) :
  In p infix_productions -> p_assoc p = ALeft.
Proof.
  intros H.
  assert (Hall : forallb (fun q => match p_assoc q with
                                   | ALeft => true
                                   | _ => false
                                   end) infix_productions = true)
    by (vm_compute; reflexivity).
  rewrite forallb_forall in Hall. specialize (Hall p H).
  destruct (p_assoc p); congruence.
Qed.

Lemma infix_is_not_postfix (op : string) (p : production) :
  find_op infix_productions op = Some p ->
  find_op postfix_productions op = None.
Proof.
  intros H. apply find_op_some in H as [Hp Hop].
  assert (Hall : forallb (fun t => match find_op postfix_productions t with
                                   | None => true
                                   | Some _ => false
                                   end) infix_tokens = true)
    by (vm_compute; reflexivity).
  rewrite forallb_forall in Hall.
  assert (Hin : In op infix_tokens).
  { unfold infix_tokens. apply in_flat_map. now exists p. }
  specialize (Hall op Hin).
  destruct (find_op postfix_productions op); congruence.
Qed.

Lemma drive_name (st : list frame) (a : string) (ts : list string) :
  is_name a = true ->
  drive st None (a :: ts) = drive st (Some (operand a)) ts.
Proof.
  unfold is_name. intros H. cbn [drive].
  destruct (find_op prefix_productions a); [discriminate | ].
  now rewrite H.
Qed.

Lemma drive_infix (st : list frame) (e : tree) (op : string) (p : production)
  (ts : list string) :
  find_op postfix_productions op = None ->
  find_op infix_productions op = Some p ->
  drive st (Some e) (op :: ts)
  = match unwind st e (p_prec p) with
    | Some (st', e') => drive (FInfix e' op p :: st') None ts
    | None => None
    end.
Proof. intros Hpost Hp. cbn [drive]. now rewrite Hpost, Hp. Qed.

Lemma drive_prefix (st : list frame) (u : string) (p : production)
  (ts : list string) :
  find_op prefix_productions u = Some p ->
  drive st None (u :: ts) = drive (FPrefix u p :: st) None ts.
Proof. intros Hp. cbn [drive]. now rewrite Hp. Qed.

Lemma drive_chain (op : string) (p : production)
  (Hp : find_op infix_productions op = Some p) (rest : list string) :
  Forall (fun a => is_name a = true) rest ->
  forall l a,
    drive [FInfix l op p] (Some (operand a)) (flat_map (fun b => [op; b]) rest)
    = Some (fold_left (fun acc b => build (FInfix acc op p) (operand b)) rest
              (build (FInfix l op p) (operand a))).
Proof.
  pose proof (infix_is_not_postfix op p Hp) as Hpost.
  assert (Hred : resolve p (p_prec p) = Reduce).
  { apply resolve_tie. apply left_associative.
    now apply find_op_some in Hp as [Hin _]. }
  induction 1 as [ | b rest Hb _ IH]; intros l a.
  - reflexivity.
  - cbn [flat_map app]. rewrite (drive_infix _ _ op p) by assumption.
    cbn [unwind frame_production]. rewrite Hred. cbn [unwind].
    rewrite drive_name by exact Hb. rewrite IH. reflexivity.
Qed.

(** X13. Every infix operator of the grammar, the assignments included,
    chains to the left at any length: over names [a0 ... an] (ASCII words
    that are no keyword of the grammar) [a0 op a1 op ... an] is the tree in
    which each operator node has the chain before it as its left operand and
    a single name as its right operand. *)
Theorem infix_chains_group_left (op : string) (p : production)
  (a0 : string) (rest : list string)
  (Hp : find_op infix_productions op = Some p)
  (H0 : is_name a0 = true)
  (Hr : Forall (fun a => is_name a = true) rest) :
  parse_expression (chain_tokens a0 op rest) = Some (left_chain p op a0 rest).
Proof.
  unfold parse_expression, chain_tokens, left_chain.
  rewrite drive_name by exact H0.
  destruct Hr as [ | a1 rest Ha1 Hr]; [reflexivity | ].
  cbn [flat_map app].
  rewrite (drive_infix _ _ op p) by (try assumption; now apply (infix_is_not_postfix op p)).
  cbn [unwind].
  rewrite drive_name by exact Ha1.
  rewrite (drive_chain op p Hp rest Hr). reflexivity.
Qed.

Lemma infix_chains_group_left_witness :
  parse_expression ["a"; "="; "b"; "="; "c"; "="; "d"]
  = Some (assign (assign (assign (name "a") (name "b")) (name "c")) (name "d")).
Proof.
  destruct (find_op infix_productions "=") as [p | ] eqn:Hp;
    [ | vm_compute in Hp; discriminate Hp].
  assert (E : p = {| p_kind := "assignment_expression"; p_prec := 0;
                     p_assoc := ALeft; p_opfield := None;
                     p_tokens := ["="] |})
    by (vm_compute in Hp; now injection Hp as <-).
  subst p.
  apply (infix_chains_group_left "=" _ "a" ["b"; "c"; "d"] Hp).
  - reflexivity.
  - repeat constructor.
Defined.

(** X14. A prefix [-], [*] or [!] binds tighter than every infix operator:
    over names [a] and [b] (ASCII words that are no keyword of the grammar)
    [u a op b] is the infix node whose left operand is the unary node of
    [a]. *)
Theorem unary_binds_tighter_than_infix (u op a b : string)
  (p q : production)
  (Hu : find_op prefix_productions u = Some p)
  (Hk : p_kind p = "unary_expression")
  (Hq : find_op infix_productions op = Some q)
  (Ha : is_name a = true) (Hb : is_name b = true) :
  parse_expression [u; a; op; b]
  = Some (build (FInfix (build (FPrefix u p) (operand a)) op q) (operand b)).
Proof.
  assert (Hred : resolve p (p_prec q) = Reduce).
  { apply find_op_some in Hu as [Hpin _]. apply find_op_some in Hq as [Hqin _].
    assert (Hall : forallb (fun q0 => p_prec q0 <? 12) infix_productions = true)
      by (vm_compute; reflexivity).
    rewrite forallb_forall in Hall. specialize (Hall q Hqin).
    assert (Hp : p_prec p = 12).
    { vm_compute in Hpin.
      destruct Hpin as [<- | [<- | [<- | []]]];
        [reflexivity | discriminate Hk | discriminate Hk]. }
    unfold resolve. rewrite Hp. now rewrite Hall. }
  unfold parse_expression. rewrite (drive_prefix _ u p) by exact Hu.
  rewrite drive_name by exact Ha.
  rewrite (drive_infix _ _ op q)
    by (try assumption; now apply (infix_is_not_postfix op q)).
  cbn [unwind frame_production]. rewrite Hred. cbn [unwind].
  rewrite drive_name by exact Hb. reflexivity.
Qed.

Lemma unary_binds_tighter_than_infix_witness :
  parse_expression ["-"; "a"; "*"; "b"]
  = Some (binary "*" (unary "-" (name "a")) (name "b")).
Proof.
  destruct (find_op prefix_productions "-") as [p | ] eqn:Hp;
    [ | vm_compute in Hp; discriminate Hp].
  destruct (find_op infix_productions "*") as [q | ] eqn:Hq;
    [ | vm_compute in Hq; discriminate Hq].
  assert (Ep : p = {| p_kind := "unary_expression"; p_prec := 12;
                      p_assoc := ANone; p_opfield := None;
                      p_tokens := ["-"; "*"; "!"] |})
    by (vm_compute in Hp; now injection Hp as <-).
  assert (Eq : q = {| p_kind := "binary_expression"; p_prec := 10;
                      p_assoc := ALeft; p_opfield := Some "operator";
                      p_tokens := ["*"; "/"; "%"] |})
    by (vm_compute in Hq; now injection Hq as <-).
  subst p q.
  apply (unary_binds_tighter_than_infix "-" "*" "a" "b" _ _ Hp eq_refl Hq);
    reflexivity.
Defined.

End OperatorResolution.

(** ** The kinds of node of a syntax tree *)

Section KindFacts.
Import Regex DSL Syntax Analysis Examples Shapes.

Lemma kinds_in_node (k : string) (cs : list child) :
  kinds_in (Node k cs) = k :: flat_map (fun c => kinds_in (snd c)) cs.
Proof. reflexivity. Qed.

Lemma known_node (k : string) (cs : list child) :
  In k all_kinds -> Forall (fun c => known (snd c)) cs -> known (Node k cs).
Proof.
  intros Hk Hcs k' Hin. rewrite kinds_in_node in Hin.
  destruct Hin as [<- | Hin]; [assumption | ].
  apply in_flat_map in Hin as (c & Hc & Hin).
  rewrite Forall_forall in Hcs. exact (Hcs c Hc k' Hin).
Qed.

Lemma known_tok (s : string) : known (Tok s).
Proof. intros k []. Qed.

Lemma known_aux (s : string) : known (Aux s).
Proof. intros k []. Qed.

Lemma known_token_leaf (r : rule) (s : string) : known (token_leaf r s).
Proof.
  unfold token_leaf. destruct (token_string r); [apply known_tok | apply known_aux].
Qed.

Lemma kinds_of_seq (r : rule) (rs : list rule) :
  kinds_of (Seq (r :: rs)) = (kinds_of r ++ kinds_of (Seq rs))%list.
Proof. reflexivity. Qed.

Lemma kinds_of_choice (r : rule) (rs : list rule) :
  In r rs -> incl (kinds_of r) (kinds_of (Choice rs)).
Proof.
  induction rs as [ | r1 rs IH]; intros Hin; [contradiction | ].
  change (kinds_of (Choice (r1 :: rs)))
    with (kinds_of r1 ++ kinds_of (Choice rs))%list.
  destruct Hin as [<- | Hin].
  - apply incl_appl, incl_refl.
  - apply incl_appr. now apply IH.
Qed.

Lemma lookup_some (n : string) (r : rule) :
  lookup n = Some r -> exists m, In (m, r) Grammar.rules.
Proof.
  unfold lookup. intros H.
  destruct (find (fun p => String.eqb (fst p) n) Grammar.rules) as [[m b] | ] eqn:F;
    [ | discriminate].
  injection H as <-. apply find_some in F as [Hin _]. now exists m.
Qed.

Lemma table_kinds (n : string) (r : rule) :
  lookup n = Some r -> incl (kinds_of r) all_kinds.
Proof.
  intros H k Hk. apply lookup_some in H as (m & Hin).
  unfold all_kinds. apply nodup_In. right.
  apply in_flat_map. now exists (m, r).
Qed.

Lemma content_kinds_eq (r : rule) :
  sym_name r = None -> content_kinds r = kinds_of r.
Proof. destruct r; intros H; try reflexivity. discriminate H. Qed.

Lemma matches_known :
  forall lbl r cs,
    matches lbl r cs ->
    incl (kinds_of r) all_kinds -> Forall (fun c => known (snd c)) cs.
Proof.
  apply (matches_rect2
           (fun lbl r cs =>
              incl (kinds_of r) all_kinds -> Forall (fun c => known (snd c)) cs)
           (fun r cs =>
              incl (content_kinds r) all_kinds ->
              Forall (fun c => known (snd c)) cs)).
  - intros lbl _. constructor.
  - intros lbl s _. constructor; [apply known_tok | constructor].
  - intros lbl re s _ _. constructor; [apply known_aux | constructor].
  - intros lbl n r cs L _ _ IH _. apply IH. now apply (table_kinds n).
  - intros lbl n r cs L Hv _ IH Hi.
    constructor; [ | constructor]. apply known_node.
    + apply Hi. simpl. rewrite Hv. now left.
    + apply IH. now apply (table_kinds n).
  - intros lbl n s _ _ _ _. constructor; [apply known_aux | constructor].
  - intros lbl n s _ _ Hv Hi. constructor; [ | constructor].
    apply known_node.
    + apply Hi. simpl. rewrite Hv. now left.
    + constructor; [apply known_aux | constructor].
  - intros lbl _. constructor.
  - intros lbl r rs c1 c2 _ IH1 _ IH2 Hi. rewrite kinds_of_seq in Hi.
    apply Forall_app. split.
    + apply IH1. intros k Hk. apply Hi. apply in_or_app. now left.
    + apply IH2. intros k Hk. apply Hi. apply in_or_app. now right.
  - intros lbl r rs cs Hin _ IH Hi. apply IH.
    intros k Hk. apply Hi. now apply (kinds_of_choice r rs Hin).
  - intros lbl r _. constructor.
  - intros lbl r c1 c2 _ IH1 _ IH2 Hi. apply Forall_app. split; auto.
  - intros lbl r c1 c2 _ IH1 _ IH2 Hi. apply Forall_app. split; auto.
  - intros lbl a n r cs _ IH Hi. auto.
  - intros lbl n r cs _ IH Hi. auto.
  - intros lbl r n cs _ IH Hi. constructor; [ | constructor].
    apply known_node.
    + apply Hi. simpl. now left.
    + apply IH. intros k Hk. apply Hi. simpl. now right.
  - intros lbl r n cs _ _ _. constructor; [apply known_tok | constructor].
  - intros lbl r cs _ _ _. constructor; [apply known_token_leaf | constructor].
  - intros lbl r cs _ _ _. constructor; [apply known_token_leaf | constructor].
  - intros n r cs L _ IH _. apply IH. now apply (table_kinds n).
  - intros n s _ _ _. constructor; [apply known_aux | constructor].
  - intros r cs Hs _ IH Hi. apply IH.
    rewrite <- (content_kinds_eq r Hs). exact Hi.
Qed.

(** X15. Every named node of a syntax tree has one of the kinds that the
    rule table makes: a visible symbol that some rule refers to, a name
    given by an alias, or the root.  Hidden rules never give their name to a
    node, and neither do the rules that are used only under an alias or not
    at all ([delim_token_tree], [last_match_arm],
    [scoped_type_name_in_expression_position], [repr_modifier],
    [comment]). *)
Theorem node_kinds_are_closed (t : tree) (H : Syntax.valid t) :
  incl (kinds_in t) all_kinds
  /\ (forall k, In k (kinds_in t) ->
                is_hidden k = false /\ ~ In k nameless_rules)
  /\ length all_kinds = 176%nat
  /\ filter (fun n => negb (is_hidden n)) nameless_rules
     = ["repr_modifier"; "delim_token_tree";
        "scoped_type_name_in_expression_position"; "last_match_arm"; "comment"].
Proof.
  assert (Hroot : In "source_file" all_kinds).
  { assert (E : existsb (String.eqb "source_file") all_kinds = true)
      by (vm_compute; reflexivity).
    apply existsb_exists in E as (x & Hx & E).
    apply String.eqb_eq in E. subst x. exact Hx. }
  assert (Hk : known t).
  { apply matches_known in H.
    - inversion H; subst. assumption.
    - intros k [<- | []]. exact Hroot. }
  split; [exact Hk | split; [ | split; vm_compute; reflexivity]].
  intros k Hin. apply Hk in Hin.
  assert (Hall : forallb (fun n => negb (is_hidden n)
                                   && negb (existsb (String.eqb n) nameless_rules))
                   all_kinds = true)
    by (vm_compute; reflexivity).
  rewrite forallb_forall in Hall. specialize (Hall k Hin).
  apply andb_true_iff in Hall as [Hh Hn].
  apply negb_true_iff in Hh. apply negb_true_iff in Hn.
  split; [exact Hh | ].
  intros Hno.
  assert (Hex : existsb (String.eqb k) nameless_rules = true).
  { apply existsb_exists. exists k. split; [exact Hno | apply String.eqb_refl]. }
  rewrite Hex in Hn. discriminate Hn.
Qed.

Lemma node_kinds_are_closed_witness :
  incl (kinds_in script) all_kinds.
Proof.
  apply (node_kinds_are_closed script).
  apply check_sound with (fuel := 60%nat). vm_compute. reflexivity.
Defined.

(** X16. The rule table is closed: every symbol that a rule, the extras,
    the conflicts, the supertypes, the inline list or the word refers to has
    a rule or is an external token, no external token has a rule, and no two
    rules share a name. *)
Theorem grammar_is_closed :
  (forall n r s, In (n, r) Grammar.rules -> In s (symbols_of r) ->
                 defined s = true)
  /\ (forall s, In s (flat_map symbols_of
                        (Grammar.word :: Grammar.extras ++ Grammar.supertypes
                           ++ Grammar.inline ++ concat Grammar.conflicts)) ->
                defined s = true)
  /\ (forall s, In s (symbol_names Grammar.externals) -> lookup s = None)
  /\ distinct (map fst Grammar.rules) = true.
Proof.
  split; [ | split; [ | split]].
  - intros n r s Hin Hs.
    assert (Hall : forallb (fun nr => forallb defined (symbols_of (snd nr)))
                     Grammar.rules = true) by (vm_compute; reflexivity).
    rewrite forallb_forall in Hall. specialize (Hall (n, r) Hin).
    rewrite forallb_forall in Hall. now apply Hall.
  - intros s Hs.
    assert (Hall : forallb defined
                     (flat_map symbols_of
                        (Grammar.word :: Grammar.extras ++ Grammar.supertypes
                           ++ Grammar.inline ++ concat Grammar.conflicts))
                   = true) by (vm_compute; reflexivity).
    rewrite forallb_forall in Hall. now apply Hall.
  - intros s Hs.
    assert (Hall : forallb (fun x => match lookup x with
                                     | None => true
                                     | Some _ => false
                                     end) (symbol_names Grammar.externals) = true)
      by (vm_compute; reflexivity).
    rewrite forallb_forall in Hall. specialize (Hall s Hs).
    destruct (lookup s); [discriminate | reflexivity].
  - exact rule_names_distinct.
Qed.

End KindFacts.

(** ** Comma-separated lists *)

Section ListFacts.
Import Regex DSL Syntax Analysis Examples Shapes.

(** X17. An argument list is [(], expressions (each with its attributes)
    separated by commas, an optional trailing comma, and [)].  The trailing
    comma does not depend on the list: the argument list that consists of a
    lone comma is admitted too. *)
Theorem arguments_shape (cs : list child) :
  (matches None Grammar.arguments cs <->
   exists body trailing,
     matches None
       (sepBy "," (seq [repeat ($"attribute_item"); $"_expression"])) body
     /\ (trailing = [] \/ trailing = [tok ","])
     /\ cs = (tok "(" :: body ++ trailing ++ [tok ")"])%list)
  /\ matches None Grammar.arguments [tok "("; tok ","; tok ")"]
  /\ derives "_expression"
       (Node "call_expression"
          [(Some "function", name "f");
           (Some "arguments", Node "arguments" [tok "("; tok ","; tok ")"])]).
Proof.
  assert (Hiff : forall l,
             matches None Grammar.arguments l <->
             exists body trailing,
               matches None
                 (sepBy "," (seq [repeat ($"attribute_item"); $"_expression"])) body
               /\ (trailing = [] \/ trailing = [tok ","])
               /\ l = (tok "(" :: body ++ trailing ++ [tok ")"])%list).
  { intros l. unfold Grammar.arguments at 1. unfold seq at 1. split.
    - intros H.
      apply matches_seq_cons in H as (c1 & r1 & -> & H1 & H).
      apply matches_seq_cons in H as (body & r2 & -> & H2 & H).
      apply matches_seq_cons in H as (tr & r3 & -> & H3 & H).
      apply matches_seq_cons in H as (c4 & r4 & -> & H4 & H).
      apply matches_seq_nil in H as ->.
      apply matches_str in H1 as ->. apply matches_str in H4 as ->.
      exists body, tr. split; [exact H2 | split; [ | reflexivity]].
      apply matches_optional in H3 as [-> | H3]; [now left | right].
      now apply matches_str in H3.
    - intros (body & tr & Hb & Ht & ->).
      apply (M_seq_cons None _ _ [tok "("]); [constructor | ].
      apply M_seq_cons; [exact Hb | ].
      apply M_seq_cons.
      + destruct Ht as [-> | ->].
        * apply M_choice with Blank; [right; now left | constructor].
        * apply M_choice with (Str ","); [now left | constructor].
      + apply (M_seq_cons None _ _ [tok ")"] []); constructor. }
  split; [apply Hiff | ].
  assert (Hlone : matches None Grammar.arguments [tok "("; tok ","; tok ")"]).
  { apply Hiff. exists [], [tok ","]. split; [ | split; [now right | reflexivity]].
    apply M_choice with Blank; [right; now left | constructor]. }
  split; [exact Hlone | ].
  apply check_sound with (fuel := 60%nat). vm_compute. reflexivity.
Qed.

(** A pattern is one child: a named node or the token [_]. *)
Lemma pattern_child (lbl : option string) (cs : list child) :
  matches lbl ($"_pattern") cs ->
  (exists k kids, cs = [(lbl, Node k kids)]) \/ cs = [(lbl, Tok "_")].
Proof.
  intros Hm.
  apply (matches_hidden _ _ Grammar._pattern) in Hm; [ | reflexivity | reflexivity].
  unfold Grammar._pattern, choice in Hm.
  apply matches_choice in Hm as (r & Hin & Hm).
  simpl in Hin.
  repeat (destruct Hin as [<- | Hin];
          [ first [ left; refine (one_node_of 10 _ _ _ _ _ Hm);
                    vm_compute; reflexivity
                  | right; apply matches_str in Hm; auto ] | ]).
  contradiction.
Qed.

Lemma closure_parameter_child (c : list child) :
  matches None (choice [$"_pattern"; $"parameter"]) c ->
  exists x, c = [x] /\ x <> tok ",".
Proof.
  intros H. apply matches_choice in H as (r & [<- | [<- | []]] & H).
  - apply pattern_child in H as [(k & kids & ->) | ->];
      eexists; (split; [reflexivity | discriminate]).
  - apply (matches_visible _ _ Grammar.parameter) in H as (kids & -> & _);
      [ | reflexivity | reflexivity].
    eexists. split; [reflexivity | discriminate].
Qed.

(** A sequence of children that is not empty and whose last child is not
    [x]. *)
Lemma last_child_app (x : child) (a c : list child) :
  c <> [] -> (forall pre, c <> (pre ++ [x])%list) ->
  forall pre, (a ++ c)%list <> (pre ++ [x])%list.
Proof.
  intros Hne Hc pre E.
  destruct (exists_last Hne) as (c' & z & ->).
  rewrite app_assoc in E. apply app_inj_tail in E as [_ ->].
  now apply (Hc c').
Qed.

Lemma separated_last_child (lbl : option string) (sep item : rule) (x : child)
  (pieces : list (list child * list child)) :
  (forall c, matches lbl item c ->
             c <> [] /\ forall pre, c <> (pre ++ [x])%list) ->
  Forall (piece_ok lbl sep item) pieces -> pieces <> [] ->
  separated pieces <> [] /\ forall pre, separated pieces <> (pre ++ [x])%list.
Proof.
  intros Hitem Hp. induction Hp as [ | [s i] pieces [Hs Hi] Hps IH]; intros Hne;
    [congruence | ].
  simpl in Hs, Hi. destruct (Hitem i Hi) as [Hin Hil].
  change (separated ((s, i) :: pieces)) with ((s ++ i) ++ separated pieces)%list.
  destruct pieces as [ | q pieces].
  - change (separated []) with (@nil child). rewrite app_nil_r. split.
    + intros E. apply app_eq_nil in E as [_ E]. contradiction.
    + now apply last_child_app.
  - destruct IH as [IHn IHl]; [discriminate | ]. split.
    + intros E. apply app_eq_nil in E as [_ E]. contradiction.
    + now apply last_child_app.
Qed.

(** X1. A list [sepBy1(s, rule)] whose items are never empty and neither
    begin nor end with the token [s] is itself not empty and neither begins
    nor ends with a separator; it is also a list of [sepBy(s, rule)], which
    admits the empty list besides, while [sepBy1] does not.  Without the
    condition on the items this fails: an item that may be empty lets the
    list be empty or a lone separator. *)
Theorem separated_lists_have_no_outer_separator (lbl : option string)
  (s : string) (item : rule) (cs : list child)
  (Hitem : forall c, matches lbl item c ->
                     c <> []
                     /\ (forall rest, c <> (lbl, Tok s) :: rest)
                     /\ (forall pre, c <> (pre ++ [(lbl, Tok s)])%list))
  (H : matches lbl (sepBy1 s item) cs) :
  cs <> []
  /\ (forall rest, cs <> (lbl, Tok s) :: rest)
  /\ (forall pre, cs <> (pre ++ [(lbl, Tok s)])%list)
  /\ matches lbl (sepBy s item) cs
  /\ matches lbl (sepBy s item) []
  /\ ~ matches lbl (sepBy1 s item) []
  /\ matches None (sepBy1 "," Blank) [tok ","].
Proof.
  assert (Hempty : ~ matches lbl (sepBy1 s item) []).
  { intros E. apply (proj1 (sepBy_shape' lbl s item [])) in E
      as (first & pieces & Hf & _ & E).
    symmetry in E. apply app_eq_nil in E as [-> _].
    now destruct (Hitem [] Hf) as [Hn _]. }
  pose proof H as H'.
  apply (proj1 (sepBy_shape' lbl s item cs)) in H
    as (first & pieces & Hf & Hp & ->).
  destruct (Hitem first Hf) as (Hn & Hfirst & Hlast).
  split; [ | split; [ | split; [ | split; [ | split; [ | split]]]]].
  - intros E. apply app_eq_nil in E as [E _]. contradiction.
  - intros rest E. destruct first as [ | x first]; [contradiction | ].
    injection E as -> _. now apply (Hfirst first).
  - destruct pieces as [ | q pieces].
    + change (separated []) with (@nil child). rewrite app_nil_r. exact Hlast.
    + apply last_child_app;
        apply (separated_last_child lbl s item (lbl, Tok s) (q :: pieces));
        try assumption; try discriminate;
        intros c Hc; destruct (Hitem c Hc) as (Hc1 & _ & Hc3); now split.
  - apply (proj2 (sepBy_shape' lbl s item _)). now right.
  - apply (proj2 (sepBy_shape' lbl s item _)). now left.
  - exact Hempty.
  - apply (proj1 (sepBy_shape' None "," Blank [tok ","])).
    exists [], [([tok ","], [])].
    split; [constructor | split; [ | reflexivity]].
    constructor; [ | constructor]. split; constructor.
Qed.

Lemma separated_lists_have_no_outer_separator_witness :
  [anon (name "a"); tok ","; anon (name "b")] <> []
  /\ matches None (sepBy "," (choice [$"_pattern"; $"parameter"]))
       [anon (name "a"); tok ","; anon (name "b")].
Proof.
  assert (Hitem : forall c,
             matches None (choice [$"_pattern"; $"parameter"]) c ->
             c <> []
             /\ (forall rest, c <> (None, Tok ",") :: rest)
             /\ (forall pre, c <> (pre ++ [(None, Tok ",")])%list)).
  { intros c Hc. apply closure_parameter_child in Hc as (x & -> & Hx).
    split; [discriminate | split].
    - intros rest E. injection E as E _. now apply Hx.
    - intros pre E. destruct pre as [ | y pre].
      + injection E as E. now apply Hx.
      + destruct pre; discriminate E. }
  assert (H : matches None (sepBy1 "," (choice [$"_pattern"; $"parameter"]))
                [anon (name "a"); tok ","; anon (name "b")]).
  { assert (R : In [] (run 30 None
                         (sepBy1 "," (choice [$"_pattern"; $"parameter"]))
                         [anon (name "a"); tok ","; anon (name "b")]))
      by (vm_compute; tauto).
    apply run_sound in R as (p & E & Hm). rewrite app_nil_r in E. now subst. }
  pose proof (separated_lists_have_no_outer_separator None ","
                (choice [$"_pattern"; $"parameter"])
                [anon (name "a"); tok ","; anon (name "b")] Hitem H) as R.
  split; [apply R | apply R].
Defined.

Lemma separated_ends_with_item (item : rule) (pieces : list (list child * list child)) :
  (forall c, matches None item c -> exists x, c = [x] /\ x <> tok ",") ->
  Forall (piece_ok None (Str ",") item) pieces ->
  forall pre x, x <> tok "," ->
  exists pre' x',
    (pre ++ [x] ++ separated pieces = pre' ++ [x'])%list /\ x' <> tok ",".
Proof.
  intros Hitem Hp. induction Hp as [ | [s i] pieces [Hs Hi] _ IH]; intros pre x Hx.
  - exists pre, x. split; [now rewrite app_nil_r | assumption].
  - simpl in Hs, Hi. apply matches_str in Hs as ->.
    apply Hitem in Hi as (xi & -> & Hxi).
    destruct (IH (pre ++ [x] ++ [tok ","])%list xi Hxi) as (pre' & x' & E & Hx').
    exists pre', x'. split; [ | assumption].
    rewrite <- E. simpl. now rewrite <- !app_assoc.
Qed.

(** X18. The parameter list of a closure is [|], patterns or parameters
    separated by commas, and [|]: unlike an argument list it has no optional
    trailing comma, so it never ends in a comma followed by [|].  The empty
    list [| |] is admitted. *)
Theorem closure_parameters_have_no_trailing_comma (cs : list child)
  (H : matches None Grammar.closure_parameters cs) :
  (exists body,
      cs = (tok "|" :: body ++ [tok "|"])%list
      /\ matches None (sepBy "," (choice [$"_pattern"; $"parameter"])) body)
  /\ (forall pre, cs <> (pre ++ [tok ","; tok "|"])%list)
  /\ matches None Grammar.closure_parameters [tok "|"; tok "|"].
Proof.
  unfold Grammar.closure_parameters in H. unfold seq at 1 in H.
  apply matches_seq_cons in H as (c1 & r1 & -> & H1 & H).
  apply matches_seq_cons in H as (body & r2 & -> & H2 & H).
  apply matches_seq_cons in H as (c3 & r3 & -> & H3 & H).
  apply matches_seq_nil in H as ->.
  apply matches_str in H1 as ->. apply matches_str in H3 as ->.
  split; [exists body; split; [reflexivity | exact H2] | split].
  - intros pre E.
    apply (proj2 (sepBy_shape' None (Str ",") _ body)) in H2 as [-> | H2].
    + simpl in E. destruct pre as [ | a [ | b [ | c pre]]]; simpl in E;
        discriminate E.
    + apply (proj1 (sepBy_shape' None (Str ",") _ body)) in H2
        as (first & pieces & Hf & Hp & ->).
      apply closure_parameter_child in Hf as (x & -> & Hx).
      destruct (separated_ends_with_item _ pieces closure_parameter_child Hp
                  [tok "|"] x Hx) as (pre' & x' & E' & Hx').
      simpl in E'.
      assert (E2 : ((pre' ++ [x']) ++ [tok "|"] = (pre ++ [tok ","]) ++ [tok "|"])%list).
      { rewrite <- E', <- app_assoc. exact E. }
      apply app_inj_tail in E2 as [E2 _].
      clear E. rename E2 into E.
      apply app_inj_tail in E as [_ E]. contradiction.
  - apply (M_seq_cons None _ _ [tok "|"]); [constructor | ].
    apply (M_seq_cons None _ _ []).
    + apply M_choice with Blank; [right; now left | constructor].
    + apply (M_seq_cons None _ _ [tok "|"] []); constructor.
Qed.

Lemma closure_parameters_have_no_trailing_comma_witness :
  exists body,
    [tok "|"; anon (name "a"); tok "|"] = (tok "|" :: body ++ [tok "|"])%list
    /\ matches None (sepBy "," (choice [$"_pattern"; $"parameter"])) body.
Proof.
  apply (closure_parameters_have_no_trailing_comma
           [tok "|"; anon (name "a"); tok "|"]).
  assert (H : In [] (run 30 None Grammar.closure_parameters
                       [tok "|"; anon (name "a"); tok "|"]))
    by (vm_compute; tauto).
  apply run_sound in H as (p & E & Hm). rewrite app_nil_r in E. now subst.
Defined.

End ListFacts.

(** ** The nodes of the infix operators *)

Section OperatorNodes.
Import Regex DSL Syntax Operators Analysis Examples Shapes.








End OperatorNodes.
